(** * The acme client library: event codec, window registry, dispatch

    A shallow embedding of package [acme] (files acme.go and acme_plan9.go)
    and the properties of its event protocol, window registry, command
    dispatcher and utilities.

    Modelling conventions.
    - Go's [int] is the 64-bit two's-complement integer: a [Z] kept in range
      by [wrap] wherever the source does arithmetic on it.
    - A [rune] is a code point, a [Z].
    - The buffered reader [w.ebuf] is the sequence of runes that successive
      [ReadRune] calls deliver; reading past its end is the reader's error
      (io.EOF).  An event's [Text], [Arg] and [Loc] are kept as the runes
      they encode.
    - A Go string is the list of its runes where the source reads runes
      (the event codec, the dispatcher with [strings.TrimSpace]), and a
      [string] of bytes where the source works on bytes ([Sort] with
      [strings.Split], [Err] with [path.Split]).  [ReadAddr] reads a
      buffer of 40 bytes, a list of byte values, and cuts the fields from
      the runes they decode to.
    - [panic(v)] with a string value, a run-time panic (a value that is not a
      string), [os.Exit] and [log.Fatalf] are explicit outcomes.  The
      dispatcher reports errors by [Err], which works on the registry and
      may end the process, so it threads the registry and has these
      outcomes too.
    - What the transport answers (opening a file, a write to a control
      file, the text read from "xdata") is an argument of the operation
      that asks for it. *)

From Stdlib Require Import ZArith Lia String Ascii List Bool Sorted.
From stdpp Require Import base option list gmap strings.

Local Open Scope Z_scope.

(** ** Integers and runes *)

Definition rune := Z.

(** Wrap-around of Go's 64-bit [int]. *)
Definition wrap (x : Z) : Z := (x + 2 ^ 63) mod 2 ^ 64 - 2 ^ 63.

Definition in_int (x : Z) : Prop := - 2 ^ 63 <= x < 2 ^ 63.

(** The runes of an ASCII literal. *)
Definition runes (s : string) : list rune :=
  map (fun a => Z.of_nat (nat_of_ascii a)) (list_ascii_of_string s).

(** ** Events *)

Definition eventSize : Z := 256.

Record Event := mkEvent {
  C1 : rune; C2 : rune;
  Q0 : Z; Q1 : Z;
  OrigQ0 : Z; OrigQ1 : Z;
  Flag : Z;
  Nb : Z;
  Nr : Z;
  Text : list rune;
  Arg : list rune;
  Loc : list rune
}.

(** [new(Event)]: every field zero. *)
Definition newEvent : Event := mkEvent 0 0 0 0 0 0 0 0 0 [] [] [].

Definition set_C1 (v : rune) (e : Event) : Event :=
  mkEvent v (C2 e) (Q0 e) (Q1 e) (OrigQ0 e) (OrigQ1 e) (Flag e) (Nb e) (Nr e) (Text e) (Arg e) (Loc e).
Definition set_C2 (v : rune) (e : Event) : Event :=
  mkEvent (C1 e) v (Q0 e) (Q1 e) (OrigQ0 e) (OrigQ1 e) (Flag e) (Nb e) (Nr e) (Text e) (Arg e) (Loc e).
Definition set_Q0 (v : Z) (e : Event) : Event :=
  mkEvent (C1 e) (C2 e) v (Q1 e) (OrigQ0 e) (OrigQ1 e) (Flag e) (Nb e) (Nr e) (Text e) (Arg e) (Loc e).
Definition set_Q1 (v : Z) (e : Event) : Event :=
  mkEvent (C1 e) (C2 e) (Q0 e) v (OrigQ0 e) (OrigQ1 e) (Flag e) (Nb e) (Nr e) (Text e) (Arg e) (Loc e).
Definition set_OrigQ0 (v : Z) (e : Event) : Event :=
  mkEvent (C1 e) (C2 e) (Q0 e) (Q1 e) v (OrigQ1 e) (Flag e) (Nb e) (Nr e) (Text e) (Arg e) (Loc e).
Definition set_OrigQ1 (v : Z) (e : Event) : Event :=
  mkEvent (C1 e) (C2 e) (Q0 e) (Q1 e) (OrigQ0 e) v (Flag e) (Nb e) (Nr e) (Text e) (Arg e) (Loc e).
Definition set_Flag (v : Z) (e : Event) : Event :=
  mkEvent (C1 e) (C2 e) (Q0 e) (Q1 e) (OrigQ0 e) (OrigQ1 e) v (Nb e) (Nr e) (Text e) (Arg e) (Loc e).
Definition set_Nr (v : Z) (e : Event) : Event :=
  mkEvent (C1 e) (C2 e) (Q0 e) (Q1 e) (OrigQ0 e) (OrigQ1 e) (Flag e) (Nb e) v (Text e) (Arg e) (Loc e).
Definition set_Text (v : list rune) (e : Event) : Event :=
  mkEvent (C1 e) (C2 e) (Q0 e) (Q1 e) (OrigQ0 e) (OrigQ1 e) (Flag e) (Nb e) (Nr e) v (Arg e) (Loc e).
Definition set_Arg (v : list rune) (e : Event) : Event :=
  mkEvent (C1 e) (C2 e) (Q0 e) (Q1 e) (OrigQ0 e) (OrigQ1 e) (Flag e) (Nb e) (Nr e) (Text e) v (Loc e).
Definition set_Loc (v : list rune) (e : Event) : Event :=
  mkEvent (C1 e) (C2 e) (Q0 e) (Q1 e) (OrigQ0 e) (OrigQ1 e) (Flag e) (Nb e) (Nr e) (Text e) (Arg e) v.

(** ** The decoder monad: a rune reader that may panic *)

Inductive res (A : Type) : Type :=
| Ok (a : A) (s : list rune)         (* normal return, rest of the buffer *)
| Panic (v : string) (s : list rune) (* panic with a string value *)
| RuntimePanic (s : list rune).      (* panic raised by the Go run time *)
Arguments Ok {A} a s.
Arguments Panic {A} v s.
Arguments RuntimePanic {A} s.

Definition M (A : Type) : Type := list rune -> res A.

Definition ret {A} (a : A) : M A := fun s => Ok a s.
Definition panic {A} (v : string) : M A := fun s => Panic v s.
Definition bind {A B} (m : M A) (k : A -> M B) : M B :=
  fun s => match m s with
           | Ok a s' => k a s'
           | Panic v s' => Panic v s'
           | RuntimePanic s' => RuntimePanic s'
           end.

Notation "x <- m ;; k" := (bind m (fun x => k))
  (at level 100, m at next level, right associativity).

(** [getec]: one rune, or a panic carrying the reader's error text. *)
Definition getec : M rune :=
  fun s => match s with
           | [] => Panic "EOF" []
           | c :: s' => Ok c s'
           end.

(** The loop of [geten], with the running value [n]. *)
Fixpoint geten_loop (n : Z) (s : list rune) : res Z :=
  match s with
  | [] => Panic "EOF" []
  | c :: s' =>
      if (c <? 48) || (c >? 57)
      then if c =? 32 then Ok n s' else Panic "event number syntax" s'
      else geten_loop (wrap (n * 10 + c - 48)) s'
  end.

Definition geten : M Z := geten_loop 0.

(** [for i := 0; i < e.Nr; i++ { r[i] = w.getec() }] *)
Fixpoint getecs (k : nat) : M (list rune) :=
  match k with
  | O => ret []
  | S k' => c <- getec ;; r <- getecs k' ;; ret (c :: r)
  end.

Definition gete (e : Event) : M Event :=
  c1 <- getec ;;
  c2 <- getec ;;
  q0 <- geten ;;
  q1 <- geten ;;
  fl <- geten ;;
  nr <- geten ;;
  let e := set_Nr nr (set_Flag fl (set_Q1 q1 (set_Q0 q0 (set_C2 c2 (set_C1 c1 e))))) in
  if nr >? eventSize then panic "event string too long"
  else if nr <? 0 then RuntimePanic   (* make([]rune, e.Nr), negative length *)
  else
    r <- getecs (Z.to_nat nr) ;;
    let e := set_Text r e in
    c <- getec ;;
    if c =? 10 then ret e else panic "phase error".

(** [ReadEvent] after the event file has been opened, in the three steps
    of the source: the primary record, the expansion, the chorded
    argument. *)
Definition readPrimary : M Event :=
  e <- gete newEvent ;;
  ret (set_OrigQ1 (Q1 e) (set_OrigQ0 (Q0 e) e)).

Definition readExpansion (e : Event) : M Event :=
  if negb (Z.land (Flag e) 2 =? 0)
  then e2 <- gete newEvent ;;
       if Q0 e =? Q1 e
       then ret (set_Flag (Flag e) (set_OrigQ1 (Q1 e) (set_OrigQ0 (Q0 e) e2)))
       else ret e
  else ret e.

Definition readChorded (e : Event) : M Event :=
  if negb (Z.land (Flag e) 8 =? 0)
  then e3 <- gete newEvent ;;
       e4 <- gete newEvent ;;
       ret (set_Loc (Text e4) (set_Arg (Text e3) e))
  else ret e.

Definition readEvent : M Event :=
  e <- readPrimary ;;
  e <- readExpansion e ;;
  readChorded e.

(** What a call of [ReadEvent] does: it returns the pair [(e, err)] and
    leaves the buffer at [s], or the process dies of a panic that the
    deferred handler could not turn into an error (its [v.(string)] fails). *)
Inductive outcome : Type :=
| Returned (e : option Event) (err : option string) (s : list rune)
| Crashed.

(** [fidErr] is what opening the window's event file answers: [None] when
    [w.fid("event")] gives a handle, the transport's error otherwise. *)
Definition ReadEvent (fidErr : option string) (s : list rune) : outcome :=
  match fidErr with
  | Some err => Returned None (Some err) s
  | None =>
      match readEvent s with
      | Ok e s' => Returned (Some e) None s'
      | Panic v s' => Returned None (Some ("malformed acme event: " +:+ v)%string) s'
      | RuntimePanic _ => Crashed
      end
  end.

(** ** Writing an event back *)

(** [%c]: a value that is not a Unicode scalar is printed as U+FFFD. *)
Definition validRune (r : rune) : bool :=
  ((0 <=? r) && (r <? 55296)) || ((57344 <=? r) && (r <=? 1114111)).
Definition fmt_c (r : rune) : rune := if validRune r then r else 65533.

(** The decimal digits of [n >= 0], most significant first.  A Go [int]
    has at most 19 of them, which bounds the loop. *)
Fixpoint fmtUint (k : nat) (n : Z) (acc : list rune) : list rune :=
  match k with
  | O => acc
  | S k' => if n <? 10 then (48 + n) :: acc
            else fmtUint k' (n / 10) ((48 + n mod 10) :: acc)
  end.

(** [%d] *)
Definition fmt_d (n : Z) : list rune :=
  if n <? 0 then 45 :: fmtUint 20 (- n) [] else fmtUint 20 n [].

(** The bytes [WriteEvent] writes to the event file:
    [fmt.Fprintf(&buf, "%c%c%d %d \n", e.C1, e.C2, e.Q0, e.Q1)]. *)
Definition WriteEvent (e : Event) : list rune :=
  fmt_c (C1 e) :: fmt_c (C2 e) :: fmt_d (Q0 e) ++ 32 :: fmt_d (Q1 e) ++ [32; 10].

(** The six fixed fields with which [gete] starts a record. *)
Definition getFields : M (rune * rune * Z * Z * Z * Z) :=
  c1 <- getec ;;
  c2 <- getec ;;
  q0 <- geten ;;
  q1 <- geten ;;
  fl <- geten ;;
  nr <- geten ;;
  ret (c1, c2, q0, q1, fl, nr).

(** The first four of them. *)
Definition getHeader : M (rune * rune * Z * Z) :=
  c1 <- getec ;;
  c2 <- getec ;;
  q0 <- geten ;;
  q1 <- geten ;;
  ret (c1, c2, q0, q1).

(** The record that starts at [r] announces more than [eventSize] runes;
    [rest] is what follows its length field. *)
Definition oversized (r rest : list rune) : Prop :=
  exists c1 c2 q0 q1 fl nr,
    getFields r = Ok (c1, c2, q0, q1, fl, nr) rest /\ nr > eventSize.

(** [reads_record s r]: a call of [ReadEvent] on the buffer [s] decodes a
    record at [r]. *)
Inductive reads_record (s : list rune) : list rune -> Prop :=
| rr_primary : reads_record s s
| rr_expansion e s1 :
    readPrimary s = Ok e s1 -> Z.land (Flag e) 2 <> 0 -> reads_record s s1
| rr_arg e s1 e' s2 :
    readPrimary s = Ok e s1 -> readExpansion e s1 = Ok e' s2 ->
    Z.land (Flag e') 8 <> 0 -> reads_record s s2
| rr_loc e s1 e' s2 e3 s3 :
    readPrimary s = Ok e s1 -> readExpansion e s1 = Ok e' s2 ->
    Z.land (Flag e') 8 <> 0 -> gete newEvent s2 = Ok e3 s3 -> reads_record s s3.

(** What the expansion rule makes of a primary record [e1] with an empty
    selection and a second record [e2]. *)
Definition expandedFrom (e1 e2 e : Event) : Prop :=
  Q0 e = Q0 e2 /\ Q1 e = Q1 e2 /\ Flag e = Flag e1 /\
  OrigQ0 e = Q0 e1 /\ OrigQ1 e = Q1 e1.

Definition isDigit (c : rune) : Prop := 48 <= c <= 57.

(** The value of a digit string continued from [a], without wrap-around. *)
Definition digitsVal (a : Z) (ds : list rune) : Z :=
  fold_left (fun a d => a * 10 + d - 48) ds a.

(** *** Sample events and buffers *)

(** The event of the write-back example: C1='x', C2='X', Q0=10, Q1=12. *)
Definition ev_xX : Event := mkEvent 120 88 10 12 10 12 0 0 0 [] [] [].

(** A primary record with the expansion bit and the empty selection 5,5,
    then a second record for 3,7 with flag 0 and the text "ab". *)
Definition buf_expansion : list rune :=
  runes "Mx5 5 2 0 " ++ [10] ++ runes "Mx3 7 0 2 ab" ++ [10].
Definition ev_primary : Event := mkEvent 77 120 5 5 0 0 2 0 0 [] [] [].
Definition ev_second : Event := mkEvent 77 120 3 7 0 0 0 0 2 [97; 98] [] [].
Definition ev_expanded : Event := mkEvent 77 120 3 7 5 5 2 0 2 [97; 98] [] [].

(** ** The window registry *)

(** The last element of a list (stdpp's [last], named here before the
    registry's global [last] takes the name). *)
Abbreviation lastOf := (@last _) (only parsing).

(** A [*Win] is an address; [nil] is [None]. *)
Definition ptr := positive.

(** The fields of [Win] that the registry and the dispatcher use; the file
    handles, the read buffer and the channel are left to the operations
    that use them. *)
Record Win := mkWin {
  id : Z;
  name : string;
  errorPrefix : string;
  next : option ptr;
  prev : option ptr
}.

(** [new(Win)] *)
Definition newWin : Win := mkWin 0 "" "" None None.

Definition set_id (v : Z) (w : Win) : Win :=
  mkWin v (name w) (errorPrefix w) (next w) (prev w).
Definition set_name (v : string) (w : Win) : Win :=
  mkWin (id w) v (errorPrefix w) (next w) (prev w).
Definition set_next (v : option ptr) (w : Win) : Win :=
  mkWin (id w) (name w) (errorPrefix w) v (prev w).
Definition set_prev (v : option ptr) (w : Win) : Win :=
  mkWin (id w) (name w) (errorPrefix w) (next w) v.

(** The package-level variables [windows], [last] and [autoExit], and the
    windows allocated so far. *)
Record State := mkState {
  heap : gmap ptr Win;
  windows : option ptr;
  last : option ptr;
  autoExit : bool
}.

Definition set_windows (v : option ptr) (st : State) : State :=
  mkState (heap st) v (last st) (autoExit st).
Definition set_last (v : option ptr) (st : State) : State :=
  mkState (heap st) (windows st) v (autoExit st).

(** The state at process start. *)
Definition initState : State := mkState ∅ None None false.

(** [AutoExit(exit)] *)
Definition AutoExit (exit : bool) (st : State) : State :=
  mkState (heap st) (windows st) (last st) exit.

(** [*w]; every [*Win] the program holds is live, so the default is never
    read on a state the program reaches. *)
Definition deref (st : State) (w : ptr) : Win := default newWin (heap st !! w).

(** [w.f = v] for the field update [f]. *)
Definition store (w : ptr) (f : Win -> Win) (st : State) : State :=
  mkState (<[w := f (deref st w)]> (heap st)) (windows st) (last st) (autoExit st).

(** [new(Win)] at the address [w]. *)
Definition alloc (w : ptr) (st : State) : State :=
  mkState (<[w := newWin]> (heap st)) (windows st) (last st) (autoExit st).

(** [dropLocked]; the boolean tells whether [os.Exit(0)] was called. *)
Definition dropLocked (w : ptr) (st : State) : State * bool :=
  if bool_decide (prev (deref st w) = None) &&
     bool_decide (next (deref st w) = None) &&
     negb (bool_decide (windows st = Some w))
  then (st, false)
  else
    let st := match prev (deref st w) with
              | Some p => store p (set_next (next (deref st w))) st
              | None => set_windows (next (deref st w)) st
              end in
    let st := match next (deref st w) with
              | Some n => store n (set_prev (prev (deref st w))) st
              | None => set_last (prev (deref st w)) st
              end in
    let st := store w (set_prev None) st in
    let st := store w (set_next None) st in
    (st, autoExit st && bool_decide (windows st = None)).

(** [drop]: [dropLocked] under the registry lock. *)
Definition drop (w : ptr) (st : State) : State * bool := dropLocked w st.

(** [Open(id, ctl)].  [err] is the failure, if any, of mounting the window
    service or of opening the control file; otherwise a window is
    allocated and appended to the registry. *)
Definition Open (err : option string) (id0 : Z) (st : State)
  : option ptr * option string * State :=
  match err with
  | Some e => (None, Some e, st)
  | None =>
      let w := fresh (dom (heap st)) in
      let st := alloc w st in
      let st := store w (set_id id0) st in
      let st := store w (set_next None) st in
      let st := store w (set_prev (last st)) st in
      let st := match last st with
                | Some l => store l (set_next (Some w)) st
                | None => set_windows (Some w) st
                end in
      let st := set_last (Some w) st in
      (Some w, None, st)
  end.

(** [w.Name(...)] with the formatted name [n]; [ctlErr] is the failure, if
    any, of writing the "name" command to the control file. *)
Definition Name (ctlErr : option string) (w : ptr) (n : string) (st : State)
  : option string * State :=
  match ctlErr with
  | Some e => (Some e, st)
  | None => (None, store w (set_name n) st)
  end.

(** How a call that may end the process comes back. *)
Inductive showResult : Type :=
| ShowReturn (w : option ptr) (st : State)
| ShowExit (st : State).

(** [Show(name)].  [ctl w cmd] is the failure, if any, of [w.Ctl(cmd)].
    The loop follows the [next] links; [fuel] bounds the number of windows
    visited and [None] means that it ran out. *)
Fixpoint Show_loop (fuel : nat) (ctl : ptr -> string -> option string)
    (n : string) (cur : option ptr) (st : State) : option showResult :=
  match cur with
  | None => Some (ShowReturn None st)
  | Some w =>
      match fuel with
      | O => None
      | S fuel' =>
          if bool_decide (name (deref st w) = n)
          then match ctl w "show"%string with
               | Some _ =>
                   let (st', exited) := dropLocked w st in
                   if exited then Some (ShowExit st')
                   else Some (ShowReturn None st')
               | None => Some (ShowReturn (Some w) st)
               end
          else Show_loop fuel' ctl n (next (deref st w)) st
      end
  end.

Definition Show (fuel : nat) (ctl : ptr -> string -> option string)
    (n : string) (st : State) : option showResult :=
  Show_loop fuel ctl n (windows st) st.

(** *** The registry as a list *)

(** [wf st l]: the registry of [st] is the doubly linked list of the
    windows [l], first to last, and no other window carries links. *)
Definition wf (st : State) (l : list ptr) : Prop :=
  NoDup l /\
  windows st = head l /\
  last st = lastOf l /\
  (forall p, p ∈ l -> is_Some (heap st !! p)) /\
  (forall l1 p l2, l = l1 ++ p :: l2 ->
     prev (deref st p) = lastOf l1 /\ next (deref st p) = head l2) /\
  (forall p, p ∉ l -> prev (deref st p) = None /\ next (deref st p) = None).

(** Opening windows one after the other. *)
Fixpoint Opens (ids : list Z) (st : State) : list ptr * State :=
  match ids with
  | [] => ([], st)
  | i :: ids' =>
      match Open None i st with
      | (Some w, _, st') => let (ws, st'') := Opens ids' st' in (w :: ws, st'')
      | (None, _, st') => Opens ids' st'
      end
  end.

(** Removing windows one after the other: the state and the exit signal
    after each removal. *)
Fixpoint drops (ws : list ptr) (st : State) : list (State * bool) :=
  match ws with
  | [] => []
  | w :: ws' => let r := dropLocked w st in r :: drops ws' (fst r)
  end.

(** [Show] read on the list of the registry's members: the first window
    with the name decides. *)
Fixpoint Show_list (ctl : ptr -> string -> option string) (n : string)
    (l : list ptr) (st : State) : showResult :=
  match l with
  | [] => ShowReturn None st
  | w :: l' =>
      if bool_decide (name (deref st w) = n)
      then match ctl w "show"%string with
           | Some _ =>
               let (st', exited) := dropLocked w st in
               if exited then ShowExit st' else ShowReturn None st'
           | None => ShowReturn (Some w) st
           end
      else Show_list ctl n l' st
  end.

(** ** Event delivery *)

(** What the event-delivery task does, in order: a send on [w.c] that a
    consumer received, the call of [w.drop], [close(w.c)], the end of the
    process by [os.Exit] inside [drop], the death of the process by a panic
    that was not recovered. *)
Inductive action : Type :=
| Send (e : option Event)
| DropWin
| CloseChan
| ExitProcess
| PanicProcess.

(** The loop of [eventReader]: the events sent, up to the first call of
    [ReadEvent] that does not return an event without error, and what that
    call did.  Every successful call consumes input, so [fuel] above the
    length of the buffer is never used up; [None] means it ran out. *)
Fixpoint readLoop (fuel : nat) (fidErr : option string) (s : list rune)
  : option (list (option Event) * outcome) :=
  match fuel with
  | O => None
  | S fuel' =>
      match ReadEvent fidErr s with
      | Returned e None s' =>
          match readLoop fuel' fidErr s' with
          | Some (evs, o) => Some (e :: evs, o)
          | None => None
          end
      | o => Some ([], o)
      end
  end.

(** [eventReader] for the window [w]; [st] is the registry at the time the
    loop ends. *)
Definition eventReader (fuel : nat) (fidErr : option string) (s : list rune)
    (w : ptr) (st : State) : option (list action * State) :=
  match readLoop fuel fidErr s with
  | None => None
  | Some (evs, Crashed) => Some (map Send evs ++ [PanicProcess], st)
  | Some (evs, Returned _ _ _) =>
      let (st', exited) := drop w st in
      Some (map Send evs ++
            [Send (Some newEvent); DropWin; if exited then ExitProcess else CloseChan],
            st')
  end.

(** ** The command dispatcher *)

(** [unicode.IsSpace] *)
Definition isSpace (r : rune) : bool :=
  ((9 <=? r) && (r <=? 13)) || (r =? 32) || (r =? 133) || (r =? 160) ||
  (r =? 5760) || ((8192 <=? r) && (r <=? 8202)) ||
  (r =? 8232) || (r =? 8233) || (r =? 8239) || (r =? 8287) || (r =? 12288).

Fixpoint trimLeft (s : list rune) : list rune :=
  match s with
  | [] => []
  | c :: s' => if isSpace c then trimLeft s' else s
  end.

(** [strings.TrimSpace] *)
Definition TrimSpace (s : list rune) : list rune :=
  rev (trimLeft (rev (trimLeft s))).

(** [strings.IndexAny]; [None] is Go's -1. *)
Fixpoint IndexAny (s chars : list rune) : option nat :=
  match s with
  | [] => None
  | c :: s' => if existsb (Z.eqb c) chars then Some O
               else match IndexAny s' chars with
                    | Some i => Some (S i)
                    | None => None
                    end
  end.

(** The types that [execute] tells apart by reflection. *)
Inductive gotype : Type :=
| TString
| TError
| TOther (n : list rune).

(** [%v] of a type *)
Definition typeName (t : gotype) : list rune :=
  match t with
  | TString => runes "string"
  | TError => runes "error"
  | TOther n => n
  end.

Definition isTError (t : gotype) : bool :=
  match t with TError => true | _ => false end.
Definition isTString (t : gotype) : bool :=
  match t with TString => true | _ => false end.

(** A method of the handler as reflection shows it.  [Call] gives the
    error that the call returns, when it returns one that is not nil. *)
Record Method := mkMethod {
  NumIn : nat;
  In0 : gotype;
  NumOut : nat;
  Out0 : gotype;
  Call : list (list rune) -> option (list rune)
}.

(** An [EventHandler]: the two methods of the interface and the other
    exported methods of the value, by name. *)
Record EventHandler := mkHandler {
  Execute : list rune -> bool;
  Look : list rune -> bool;
  methods : list rune -> option Method
}.

(** [reflect.ValueOf(h).MethodByName(name)]: reflection finds the methods
    of the interface too, [Execute(cmd string) bool] and
    [Look(arg string) bool], and then the others. *)
Definition MethodByName (h : EventHandler) (name : list rune) : option Method :=
  if bool_decide (name = runes "Execute")
  then Some (mkMethod 1 TString 1 (TOther (runes "bool")) (fun _ => None))
  else if bool_decide (name = runes "Look")
  then Some (mkMethod 1 TString 1 (TOther (runes "bool")) (fun _ => None))
  else methods h name.

(** What the dispatcher does to the handler and the windows: the calls of
    the handler, the calls of [w.Err] or [w.Errf] with the message, the
    writes of [Err] into the error window, and the events written back. *)
Inductive effect : Type :=
| CallExecute (cmd : list rune)
| CallLook (arg : list rune)
| CallMethod (name : list rune) (args : list (list rune))
| Errf (msg : list rune)
| ErrWrites (w1 : ptr) (writes : list (string * string))
| WriteBack (e : Event).

(** The first lines of [execute]: the verb and its argument. *)
Definition splitVerb (cmd : list rune) : list rune * list rune :=
  match IndexAny cmd [32; 9] with
  | Some i => (take i cmd, TrimSpace (skipn (S i) cmd))
  | None => (cmd, [])
  end.

(** ** Sort *)

(** The newline byte. *)
Definition nl : ascii := ascii_of_nat 10.

(** [strings.Split(s, "\n")] *)
Fixpoint Split (s : string) : list string :=
  match s with
  | EmptyString => [EmptyString]
  | String c s' =>
      if Ascii.eqb c nl then EmptyString :: Split s'
      else match Split s' with
           | l :: ls => String c l :: ls
           | [] => [String c EmptyString]
           end
  end.

(** [strings.Join(lines, "\n")] *)
Fixpoint Join (lines : list string) : string :=
  match lines with
  | [] => EmptyString
  | [l] => l
  | l :: ls => l +:+ String nl (Join ls)
  end.

(** [sort.SliceStable]: a stable sort, here by insertion.  For a [less]
    that is a strict weak order every stable sort gives the same list. *)
Fixpoint insertStable (less : string -> string -> bool) (x : string) (l : list string)
  : list string :=
  match l with
  | [] => [x]
  | y :: l' => if less y x then y :: insertStable less x l' else x :: l
  end.

Definition SliceStable (less : string -> string -> bool) (l : list string) : list string :=
  foldr (insertStable less) [] l.

(** The bytes that [Sort] writes to "data" for the bytes [data] read from
    "xdata". *)
Definition Sort_data (less : string -> string -> bool) (data : string) : string :=
  let lines := Split data in
  let '(suffix, lines) :=
    if String.eqb (List.last lines EmptyString) EmptyString
    then (String nl EmptyString, removelast lines)
    else (EmptyString, lines) in
  Join (SliceStable less lines) +:+ suffix.

(** The writes of [Sort]. *)
Inductive fileop : Type :=
| WriteAddr (q0 q1 : Z)      (* w.Addr("#%d,#%d", q0, q1) *)
| WriteData (b : string).    (* w.Write("data", b) *)

(** [Sort]; [addr] is what [ReadAddr] gives and [xdata] what
    [ReadAll("xdata")] gives, a value or an error. *)
Definition Sort (addr : Z * Z + string) (xdata : string + string)
    (less : string -> string -> bool) : list fileop * option string :=
  match addr with
  | inr err => ([], Some err)
  | inl (q0, q1) =>
      match xdata with
      | inr err => ([], Some err)
      | inl data => ([WriteAddr q0 q1; WriteData (Sort_data less data)], None)
      end
  end.

(** ** Err *)

(** [strings.LastIndexByte]; [None] is Go's -1. *)
Fixpoint LastIndexByte (s : string) (c : ascii) : option nat :=
  match s with
  | EmptyString => None
  | String a s' =>
      match LastIndexByte s' c with
      | Some i => Some (S i)
      | None => if Ascii.eqb a c then Some O else None
      end
  end.

(** [path.Split]: [path[:i+1], path[i+1:]] for the last slash [i]. *)
Definition path_Split (p : string) : string * string :=
  match LastIndexByte p "/"%char with
  | Some i => (substring 0 (S i) p, substring (S i) (String.length p - S i) p)
  | None => (EmptyString, p)
  end.

(** The message that [Err] prints: [msg] with a final newline. *)
Definition Err_msg (msg : string) : string :=
  match LastIndexByte msg nl with
  | Some i => if Nat.eqb (S i) (String.length msg) then msg
              else msg +:+ String nl EmptyString
  | None => msg +:+ String nl EmptyString
  end.

(** The name of the window in which [Err] reports errors about [src]. *)
Definition Err_name (src : string) : string :=
  let (prefix, _) := path_Split src in
  let prefix := if String.eqb prefix "/" || String.eqb prefix "."
                then EmptyString else prefix in
  (prefix +:+ "+Errors")%string.

(** *** Sample registries *)

(** Three windows opened at process start, with auto-exit enabled. *)
Definition reg3 : list ptr * State := Opens [11; 12; 13] (AutoExit true initState).

(** One window, with auto-exit enabled. *)
Definition reg1 : list ptr * State := Opens [11] (AutoExit true initState).

(** A control file on which every write fails. *)
Definition ctl_fails : ptr -> string -> option string :=
  fun _ _ => Some "write failed"%string.

(** The second of the three windows is named "/tmp/+Errors". *)
Definition reg3_named : State :=
  snd (Name None 2%positive "/tmp/+Errors" (snd reg3)).

(** The only window is named "/tmp/+Errors". *)
Definition reg1_named : State :=
  snd (Name None 1%positive "/tmp/+Errors" (snd reg1)).

(** *** Sample handlers *)

(** A handler with the one verb-specific method [ExecFoo(arg string)]; its
    [Execute] and [Look] decline everything. *)
Definition h_foo : EventHandler :=
  mkHandler (fun _ => false) (fun _ => false)
    (fun name => if bool_decide (name = runes "ExecFoo")
                 then Some (mkMethod 1 TString 0 TError (fun _ => None))
                 else None).

(** No selection to read. *)
Definition noSel : Z -> Z -> list rune * option (list rune) := fun _ _ => ([], None).

(** The execute event with the text "Foo bar baz". *)
Definition ev_foo : Event :=
  mkEvent 77 120 0 11 0 11 0 0 11 (runes "Foo bar baz") [] [].

(** The execute event with the text "Put now". *)
Definition ev_put : Event :=
  mkEvent 77 120 0 7 0 7 0 0 7 (runes "Put now") [] [].

(** *** Sorting: what is asked of the order and of the result *)

(** [x] and [y] are tied: neither is less than the other. *)
Definition tied (less : string -> string -> bool) (x y : string) : bool :=
  negb (less x y) && negb (less y x).

(** [x] may stand before [y]: [y] is not less than [x]. *)
Definition notAfter (less : string -> string -> bool) (x y : string) : Prop :=
  less y x = false.

(** The text "b\na\nc\n". *)
Definition text_bac : string :=
  ("b" +:+ String nl ("a" +:+ String nl ("c" +:+ String nl EmptyString)))%string.

(** The text "a\nb\nc\n". *)
Definition text_abc : string :=
  ("a" +:+ String nl ("b" +:+ String nl ("c" +:+ String nl EmptyString)))%string.

(** *** More sample buffers *)

(** A chorded event after an expansion: the primary record (flag 10, empty
    selection 5,5), the expansion (3,7, text "ab"), the chorded argument
    "arg" and the chorded location "loc". *)
Definition buf_chorded : list rune :=
  runes "Mx5 5 10 0 " ++ [10] ++ runes "Mx3 7 0 2 ab" ++ [10] ++
  runes "Mx0 0 0 3 arg" ++ [10] ++ runes "Mx0 0 0 3 loc" ++ [10].

(** An expansion of a selection that is not empty: primary 5,9 with flag
    2, then the second record. *)
Definition buf_selected : list rune :=
  runes "Mx5 9 2 0 " ++ [10] ++ runes "Mx3 7 0 2 ab" ++ [10].

(** ** More of the registry *)

(** [DeleteAll]: the control writes it makes, in order.  The loop follows
    the [next] links as [Show] does; the answers of the writes are not
    looked at and the registry is not touched. *)
Fixpoint DeleteAll_loop (fuel : nat) (cur : option ptr) (st : State)
  : option (list (ptr * string)) :=
  match cur with
  | None => Some []
  | Some w =>
      match fuel with
      | O => None
      | S fuel' =>
          match DeleteAll_loop fuel' (next (deref st w)) st with
          | Some ws => Some ((w, "delete"%string) :: ws)
          | None => None
          end
      end
  end.

Definition DeleteAll (fuel : nat) (st : State) : option (list (ptr * string)) :=
  DeleteAll_loop fuel (windows st) st.

(** A control file on which every write succeeds. *)
Definition ctl_ok : ptr -> string -> option string := fun _ _ => None.

(** ** More of the dispatcher *)

(** The signature that [execute] accepts for a method called with the
    argument [arg]: no result or one [error], and no parameter (with an
    empty argument) or one [string]. *)
Definition acceptable (m : Method) (arg : list rune) : bool :=
  ((NumOut m =? 0)%nat || ((NumOut m =? 1)%nat && isTError (Out0 m))) &&
  (((NumIn m =? 0)%nat && bool_decide (arg = [])) ||
   ((NumIn m =? 1)%nat && isTString (In0 m))).

(** The effect is neither the fallback nor a write-back. *)
Definition keptFromHost (x : effect) : Prop :=
  match x with
  | CallExecute _ | WriteBack _ => False
  | _ => True
  end.

(** A handler whose [ExecFoo] takes no argument. *)
Definition h_foo0 : EventHandler :=
  mkHandler (fun _ => false) (fun _ => false)
    (fun name => if bool_decide (name = runes "ExecFoo")
                 then Some (mkMethod 0 TString 0 TError (fun _ => None))
                 else None).

(** The look event on the range 3,8 that carries no text. *)
Definition ev_look : Event := mkEvent 77 108 3 8 3 8 0 0 0 [] [] [].

(** The selection reads as "hello". *)
Definition sel_hello : Z -> Z -> list rune * option (list rune) :=
  fun _ _ => (runes "hello", None).

(** ** More of Sort and Err *)

(** The line has no newline in it. *)
Fixpoint noNl (s : string) : bool :=
  match s with
  | EmptyString => true
  | String c s' => negb (Ascii.eqb c nl) && noNl s'
  end.

(** The order by length: a strict weak order that is not total. *)
Definition shorter : string -> string -> bool :=
  fun x y => (String.length x <? String.length y)%nat.

(** The text "bb\na". *)
Definition text_bb_a : string := ("bb" +:+ String nl "a")%string.

(** The order that ties all lines. *)
Definition allTied : string -> string -> bool := fun _ _ => false.

(** ** Reading numbers and fields *)

(** [strings.Fields]: the maximal runs of runes that are not white space.
    [cur] is the run being read, last rune first. *)
Fixpoint Fields_aux (s cur : list rune) : list (list rune) :=
  match s with
  | [] => match cur with [] => [] | _ => [rev cur] end
  | c :: s' =>
      if isSpace c
      then match cur with
           | [] => Fields_aux s' []
           | _ => rev cur :: Fields_aux s' []
           end
      else Fields_aux s' (c :: cur)
  end.

Definition Fields (s : list rune) : list (list rune) := Fields_aux s [].

(** The two errors of [strconv]. *)
Inductive numErr : Type := ErrSyntax | ErrRange.

Definition maxUint64 : Z := 2 ^ 64 - 1.

(** The loop of [strconv.ParseUint(s, 10, 64)]: the digits are taken left
    to right, and the first rune that is not a digit, or the first digit
    that overflows, ends it. *)
Fixpoint ParseUint_loop (s : list rune) (n : Z) : Z * option numErr :=
  match s with
  | [] => (n, None)
  | c :: s' =>
      if (48 <=? c) && (c <=? 57)
      then if n >=? maxUint64 / 10 + 1 then (maxUint64, Some ErrRange)
           else if n * 10 + (c - 48) >? maxUint64 then (maxUint64, Some ErrRange)
           else ParseUint_loop s' (n * 10 + (c - 48))
      else (0, Some ErrSyntax)
  end.

Definition ParseUint (s : list rune) : Z * option numErr :=
  match s with
  | [] => (0, Some ErrSyntax)
  | _ => ParseUint_loop s 0
  end.

(** [strconv.Atoi], which is [ParseInt(s, 10, 0)] (its fast path for short
    strings gives the same answers): the value and the error. *)
Definition Atoi (s : list rune) : Z * option numErr :=
  match s with
  | [] => (0, Some ErrSyntax)
  | c :: s' =>
      let neg := c =? 45 in
      let body := if (c =? 43) || (c =? 45) then s' else s in
      match ParseUint body with
      | (_, Some ErrSyntax) => (0, Some ErrSyntax)
      | (un, _) =>
          if negb neg && (un >=? 2 ^ 63) then (2 ^ 63 - 1, Some ErrRange)
          else if neg && (un >? 2 ^ 63) then (- 2 ^ 63, Some ErrRange)
          else (if neg then - un else un, None)
      end
  end.

(** [utf8.DecodeRune] on the byte [b0] followed by the bytes [s]: the rune
    and its width.  A byte sequence that is not the encoding of a rune
    gives U+FFFD and the width 1. *)
Definition contByte (lo hi : Z) (b : option Z) : option Z :=
  match b with
  | Some x => if (lo <=? x) && (x <=? hi) then Some (Z.land x 63) else None
  | None => None
  end.

Definition DecodeRune (b0 : Z) (s : list Z) : rune * nat :=
  let bad := (65533, 1%nat) in
  if (0 <=? b0) && (b0 <? 128) then (b0, 1%nat)
  else if (194 <=? b0) && (b0 <=? 223) then
    match contByte 128 191 (s !! 0%nat) with
    | Some c1 => (Z.lor (Z.shiftl (Z.land b0 31) 6) c1, 2%nat)
    | None => bad
    end
  else if (224 <=? b0) && (b0 <=? 239) then
    match contByte (if b0 =? 224 then 160 else 128)
                   (if b0 =? 237 then 159 else 191) (s !! 0%nat),
          contByte 128 191 (s !! 1%nat) with
    | Some c1, Some c2 =>
        (Z.lor (Z.shiftl (Z.land b0 15) 12) (Z.lor (Z.shiftl c1 6) c2), 3%nat)
    | _, _ => bad
    end
  else if (240 <=? b0) && (b0 <=? 244) then
    match contByte (if b0 =? 240 then 144 else 128)
                   (if b0 =? 244 then 143 else 191) (s !! 0%nat),
          contByte 128 191 (s !! 1%nat),
          contByte 128 191 (s !! 2%nat) with
    | Some c1, Some c2, Some c3 =>
        (Z.lor (Z.shiftl (Z.land b0 7) 18)
           (Z.lor (Z.shiftl c1 12) (Z.lor (Z.shiftl c2 6) c3)), 4%nat)
    | _, _, _ => bad
    end
  else bad.

(** The runes of a Go string given by its bytes, as [range] and
    [strings.Fields] see them; [skip] bytes belong to the rune before. *)
Fixpoint decodeRunes (s : list Z) (skip : nat) : list rune :=
  match s with
  | [] => []
  | b :: s' =>
      match skip with
      | S k => decodeRunes s' k
      | O => let (r, w) := DecodeRune b s' in r :: decodeRunes s' (Nat.pred w)
      end
  end.

(** [f.ReadAt(buf, 0)] with a buffer of [n] bytes.  [file] is what the
    file serves from its start, its bytes or the failure of the read.
    [ReadAt] fills the buffer or returns an error: a file of fewer than
    [n] bytes gives [io.EOF]. *)
Definition ReadAt (n : nat) (file : list Z + string) : list Z * option string :=
  match file with
  | inr e => ([], Some e)
  | inl bytes =>
      if (length bytes <? n)%nat then (bytes, Some "EOF"%string)
      else (take n bytes, None)
  end.

(** [ReadAddr].  [fidErr] is the failure, if any, of opening "addr";
    [file] is what the addr file serves.  The fields are cut from the
    runes of the 40 bytes read; a number is read from a field of ASCII
    digits only, which is its own bytes. *)
Definition ReadAddr (fidErr : option string) (file : list Z + string)
  : Z * Z * option string :=
  match fidErr with
  | Some e => (0, 0, Some e)
  | None =>
      match ReadAt 40 file with
      | (_, Some e) => (0, 0, Some e)
      | (buf, None) =>
          match Fields (decodeRunes buf 0) with
          | a0 :: a1 :: _ =>
              match Atoi a0, Atoi a1 with
              | (q0, None), (q1, None) => (q0, q1, None)
              | _, _ => (0, 0, Some "invalid read from acme addr"%string)
              end
          | _ => (0, 0, Some "short read from acme addr"%string)
          end
      end
  end.

(** The errors of [New]. *)
Inductive newErr : Type :=
| NewTransport (e : string)        (* mounting, opening or reading failed *)
| NewShortRead                     (* "short read from acme/new/ctl" *)
| NewInvalidId (field : list rune).  (* "invalid window id in acme/new/ctl: " + field *)

(** [New].  [err] is the failure, if any, of mounting the window service
    or of opening "new/ctl"; [rd] is what reading it gives. *)
Definition New (err : option string) (rd : list rune + string) (st : State)
  : option ptr * option newErr * State :=
  match err with
  | Some e => (None, Some (NewTransport e), st)
  | None =>
      match rd with
      | inr e => (None, Some (NewTransport e), st)
      | inl text =>
          match Fields text with
          | [] => (None, Some NewShortRead, st)
          | a0 :: _ =>
              match Atoi a0 with
              | (_, Some _) => (None, Some (NewInvalidId a0), st)
              | (id0, None) =>
                  match Open None id0 st with
                  | (w, Some e, st') => (w, Some (NewTransport e), st')
                  | (w, None, st') => (w, None, st')
                  end
              end
          end
      end
  end.

(** ** The files of a window *)

(** The files that [fid] knows, one field of [Win] each. *)
Inductive slot : Type :=
| Saddr | Sbody | Sctl | Sdata | Sevent | Stag | Sxdata | Serrors.

Definition slotOf (name : string) : option slot :=
  if String.eqb name "addr" then Some Saddr
  else if String.eqb name "body" then Some Sbody
  else if String.eqb name "ctl" then Some Sctl
  else if String.eqb name "data" then Some Sdata
  else if String.eqb name "event" then Some Sevent
  else if String.eqb name "tag" then Some Stag
  else if String.eqb name "xdata" then Some Sxdata
  else if String.eqb name "errors" then Some Serrors
  else None.

Inductive openMode : Type := O_RDWR | O_WRONLY.

Definition modeOf (sl : slot) : openMode :=
  match sl with Serrors => O_WRONLY | _ => O_RDWR end.

(** An open file is a number. *)
Definition handle := nat.

(** The file fields of [Win]; [None] is nil. *)
Record Files := mkFiles {
  f_addr : option handle; f_body : option handle; f_ctl : option handle;
  f_data : option handle; f_event : option handle; f_tag : option handle;
  f_xdata : option handle; f_errors : option handle
}.

Definition getf (sl : slot) (fs : Files) : option handle :=
  match sl with
  | Saddr => f_addr fs | Sbody => f_body fs | Sctl => f_ctl fs
  | Sdata => f_data fs | Sevent => f_event fs | Stag => f_tag fs
  | Sxdata => f_xdata fs | Serrors => f_errors fs
  end.

Definition setf (sl : slot) (v : option handle) (fs : Files) : Files :=
  match sl with
  | Saddr => mkFiles v (f_body fs) (f_ctl fs) (f_data fs) (f_event fs) (f_tag fs) (f_xdata fs) (f_errors fs)
  | Sbody => mkFiles (f_addr fs) v (f_ctl fs) (f_data fs) (f_event fs) (f_tag fs) (f_xdata fs) (f_errors fs)
  | Sctl => mkFiles (f_addr fs) (f_body fs) v (f_data fs) (f_event fs) (f_tag fs) (f_xdata fs) (f_errors fs)
  | Sdata => mkFiles (f_addr fs) (f_body fs) (f_ctl fs) v (f_event fs) (f_tag fs) (f_xdata fs) (f_errors fs)
  | Sevent => mkFiles (f_addr fs) (f_body fs) (f_ctl fs) (f_data fs) v (f_tag fs) (f_xdata fs) (f_errors fs)
  | Stag => mkFiles (f_addr fs) (f_body fs) (f_ctl fs) (f_data fs) (f_event fs) v (f_xdata fs) (f_errors fs)
  | Sxdata => mkFiles (f_addr fs) (f_body fs) (f_ctl fs) (f_data fs) (f_event fs) (f_tag fs) v (f_errors fs)
  | Serrors => mkFiles (f_addr fs) (f_body fs) (f_ctl fs) (f_data fs) (f_event fs) (f_tag fs) (f_xdata fs) v
  end.

(** [fid].  [open wid name mode] is what [os.OpenFile] answers for the
    file [name] of the window [wid]: a handle or an error. *)
Definition fid (open : Z -> string -> openMode -> handle + string)
    (wid : Z) (name : string) (fs : Files) : (handle + string) * Files :=
  match slotOf name with
  | None => (inr ("unknown acme file: " +:+ name)%string, fs)
  | Some sl =>
      match getf sl fs with
      | Some h => (inl h, fs)
      | None =>
          match open wid name (modeOf sl) with
          | inl h => (inl h, setf sl (Some h) fs)
          | inr e => (inr e, fs)
          end
      end
  end.

(** [CloseFiles]: every file field is nil afterwards. *)
Definition CloseFiles (fs : Files) : Files :=
  mkFiles None None None None None None None None.

(** An acme that answers every open with the handle 7. *)
Definition open7 : Z -> string -> openMode -> handle + string := fun _ _ _ => inl 7%nat.

(** No file open. *)
Definition noFiles : Files := mkFiles None None None None None None None None.

(** ** Err, with its window *)

(** The writes with which [Err] shows the message in its window: the file
    and the bytes written, in order.  [Ctl] ends its command with a
    newline. *)
Definition errWrites (msg : string) : list (string * string) :=
  [("addr", "$"); ("ctl", "dot=addr" +:+ String nl EmptyString); ("body", msg);
   ("addr", ".,"); ("ctl", "dot=addr" +:+ String nl EmptyString);
   ("ctl", "show" +:+ String nl EmptyString)]%string.

(** How [Err] ends: it wrote the message into the window [w] (the results
    of these writes are not looked at); or it could not create a window
    ([log.Fatalf]); or removing a window in [Show] ended the process; or
    [New] returned neither a window nor an error and [w1.Name] was called
    on nil. *)
Inductive errOutcome : Type :=
| ErrWrote (w : ptr) (writes : list (string * string)) (st : State)
| ErrFatal (st : State)
| ErrExited (st : State)
| ErrNilWindow (st : State).

(** [Err(src, msg)].  [ctl] answers the control writes of [Show] and of
    [Name]; [new1] and [new2] are what the window service answers to the
    first and to the second call of [New]: the failure to open "new/ctl",
    if any, and what reading it gives. *)
Definition Err (fuel : nat) (ctl : ptr -> string -> option string)
    (new1 new2 : option string * (list rune + string))
    (src msg : string) (st : State) : option errOutcome :=
  let msg := Err_msg msg in
  let name := Err_name src in
  let created (w1 : option ptr) (st : State) :=
    match w1 with
    | Some w1 =>
        let st := snd (Name (ctl w1 ("name " +:+ name)%string) w1 name st) in
        ErrWrote w1 (errWrites msg) st
    | None => ErrNilWindow st
    end in
  match Show fuel ctl name st with
  | None => None
  | Some (ShowExit st) => Some (ErrExited st)
  | Some (ShowReturn (Some w1) st) => Some (ErrWrote w1 (errWrites msg) st)
  | Some (ShowReturn None st) =>
      match New (fst new1) (snd new1) st with
      | (w1, None, st) => Some (created w1 st)
      | (_, Some _, st) =>
          match New (fst new2) (snd new2) st with
          | (w1, None, st) => Some (created w1 st)
          | (_, Some _, st) => Some (ErrFatal st)
          end
      end
  end.

(** ** The dispatcher, with the error window *)

(** The UTF-8 bytes of a rune, as the conversion of runes to a string
    writes them; a rune that is no Unicode scalar value is written as
    U+FFFD. *)
Definition encodeRune (r : rune) : list Z :=
  if (r <? 0) || (1114111 <? r) || ((55296 <=? r) && (r <=? 57343))
  then [239; 191; 189]
  else if r <? 128 then [r]
  else if r <? 2048
  then [Z.lor 192 (Z.shiftr r 6); Z.lor 128 (Z.land r 63)]
  else if r <? 65536
  then [Z.lor 224 (Z.shiftr r 12); Z.lor 128 (Z.land (Z.shiftr r 6) 63);
        Z.lor 128 (Z.land r 63)]
  else [Z.lor 240 (Z.shiftr r 18); Z.lor 128 (Z.land (Z.shiftr r 12) 63);
        Z.lor 128 (Z.land (Z.shiftr r 6) 63); Z.lor 128 (Z.land r 63)].

Definition utf8 (s : list rune) : string :=
  string_of_list_ascii
    (map (fun b => ascii_of_N (Z.to_N b)) (flat_map encodeRune s)).

(** What the outside answers while one event is handled: the control
    files, the window service to the two calls of [New] that an [Err] may
    make, and the fuel of the search in [Show]. *)
Record Env := mkEnv {
  e_fuel : nat;
  e_ctl : ptr -> string -> option string;
  e_new1 : option string * (list rune + string);
  e_new2 : option string * (list rune + string)
}.

(** How the process can end inside [Err]: [log.Fatalf] when no window can
    be created, [os.Exit] when [Show] removes the last window under
    auto-exit, a nil dereference when [New] gives neither window nor
    error. *)
Inductive ending : Type := Fatal | Exit | NilWindow.

(** How a piece of the dispatcher comes back: it returns a value; or the
    process ended; or the fuel of [Show] ran out.  Each carries what was
    done until then, and the first two the registry. *)
Inductive run (A : Type) : Type :=
| Returns (a : A) (tr : list effect) (st : State)
| Ends (how : ending) (tr : list effect) (st : State)
| NoFuel (tr : list effect).
Arguments Returns {A} a tr st.
Arguments Ends {A} how tr st.
Arguments NoFuel {A} tr.

Definition traceOf {A} (r : run A) : list effect :=
  match r with
  | Returns _ tr _ => tr
  | Ends _ tr _ => tr
  | NoFuel tr => tr
  end.

Definition proc (A : Type) : Type := State -> run A.

Definition retP {A} (a : A) : proc A := fun st => Returns a [] st.
Definition emit (x : effect) : proc unit := fun st => Returns tt [x] st.
Definition bindP {A B} (m : proc A) (k : A -> proc B) : proc B :=
  fun st =>
    match m st with
    | Returns a tr st' =>
        match k a st' with
        | Returns b tr' st'' => Returns b (tr ++ tr') st''
        | Ends how tr' st'' => Ends how (tr ++ tr') st''
        | NoFuel tr' => NoFuel (tr ++ tr')
        end
    | Ends how tr st' => Ends how tr st'
    | NoFuel tr => NoFuel tr
    end.

Notation "x <~ m ;; k" := (bindP m (fun x => k))
  (at level 100, m at next level, right associativity).

(** [w.Err(msg)], which is [Err(w.errorPrefix, msg)]; [w.Errf] is the same
    on the formatted message. *)
Definition Win_Err (env : Env) (w : ptr) (msg : list rune) : proc unit :=
  fun st =>
    match Err (e_fuel env) (e_ctl env) (e_new1 env) (e_new2 env)
              (errorPrefix (deref st w)) (utf8 msg) st with
    | None => NoFuel [Errf msg]
    | Some (ErrWrote w1 writes st') => Returns tt [Errf msg; ErrWrites w1 writes] st'
    | Some (ErrFatal st') => Ends Fatal [Errf msg] st'
    | Some (ErrExited st') => Ends Exit [Errf msg] st'
    | Some (ErrNilWindow st') => Ends NilWindow [Errf msg] st'
    end.

(** [w.execute(h, cmd)] *)
Definition execute (env : Env) (h : EventHandler) (w : ptr) (cmd : list rune)
  : proc bool :=
  let (verb, arg) := splitVerb cmd in
  match MethodByName h (runes "Exec" ++ verb) with
  | None => _ <~ emit (CallExecute cmd) ;; retP (Execute h cmd)
  | Some m =>
      if (2 <=? NumOut m)%nat
      then _ <~ Win_Err env w (runes "bad method " ++ cmd ++ runes ": too many results") ;;
           retP true
      else if (NumOut m =? 1)%nat && negb (isTError (Out0 m))
      then _ <~ Win_Err env w (runes "bad method " ++ cmd ++ runes ": return type " ++
                               typeName (Out0 m) ++ runes ", not error") ;;
           retP true
      else if (2 <=? NumIn m)%nat
      then _ <~ Win_Err env w (runes "bad method " ++ cmd ++ runes ": too many arguments") ;;
           retP true
      else if (NumIn m =? 0)%nat && negb (bool_decide (arg = []))
      then _ <~ Win_Err env w (cmd ++ runes " takes no arguments") ;;
           retP true
      else if (NumIn m =? 1)%nat && negb (isTString (In0 m))
      then _ <~ Win_Err env w (runes "bad method " ++ cmd ++ runes ": argument type " ++
                               typeName (In0 m) ++ runes ", not string") ;;
           retP true
      else
        let args := if (0 <? NumIn m)%nat then [arg] else [] in
        let err := if (NumOut m =? 1)%nat then Call m args else None in
        _ <~ emit (CallMethod (runes "Exec" ++ verb) args) ;;
        _ <~ match err with Some e => Win_Err env w e | None => retP tt end ;;
        retP true
  end.

(** [w.loadText(e, h)]; [readSel q0 q1] is what addressing [q0,q1) and
    [ReadAll("xdata")] give: the data and the error, if any.  The event
    returned is [e] after the call. *)
Definition loadText (env : Env)
    (readSel : Z -> Z -> list rune * option (list rune)) (w : ptr) (e : Event)
  : proc Event :=
  if bool_decide (Text e = []) && (Q0 e <? Q1 e)
  then let (data, err) := readSel (Q0 e) (Q1 e) in
       _ <~ match err with Some msg => Win_Err env w msg | None => retP tt end ;;
       retP (set_Text data e)
  else retP e.

(** The body of [EventLoop] for one event. *)
Definition handleEvent (env : Env) (h : EventHandler)
    (readSel : Z -> Z -> list rune * option (list rune)) (w : ptr) (e : Event)
  : proc unit :=
  if (C2 e =? 120) || (C2 e =? 88) then
    handled <~ execute env h w (TrimSpace (Text e)) ;;
    if handled then retP tt else emit (WriteBack e)
  else if (C2 e =? 108) || (C2 e =? 76) then
    e' <~ loadText env readSel w e ;;
    _ <~ emit (CallLook (Text e')) ;;
    if Look h (Text e') then retP tt else emit (WriteBack e')
  else retP tt.

(** [EventLoop] over the events that the channel delivers, each with what
    the outside answers while it is handled. *)
Fixpoint EventLoop (h : EventHandler)
    (readSel : Z -> Z -> list rune * option (list rune)) (w : ptr)
    (evs : list (Env * Event)) : proc unit :=
  match evs with
  | [] => retP tt
  | (env, e) :: evs' =>
      _ <~ handleEvent env h readSel w e ;; EventLoop h readSel w evs'
  end.

(** What a call comes to that, after the effects [tr0], reports an error
    by [r] and then returns [a]: it returns only if [r] does. *)
Definition reported {A} (a : A) (tr0 : list effect) (r : run unit) : run A :=
  match r with
  | Returns _ tr st' => Returns a (tr0 ++ tr) st'
  | Ends how tr st' => Ends how (tr0 ++ tr) st'
  | NoFuel tr => NoFuel (tr0 ++ tr)
  end.

(** The effect is no call of a method found by reflection. *)
Definition noMethodCall (x : effect) : Prop :=
  match x with
  | CallMethod _ _ => False
  | _ => True
  end.

(** *** The words of the dispatch *)

(** [cmd] is [t] without the white space at its two ends. *)
Definition trims (t cmd : list rune) : Prop :=
  exists pre post,
    t = pre ++ cmd ++ post /\
    Forall (fun c => isSpace c = true) pre /\
    Forall (fun c => isSpace c = true) post /\
    (forall c, head cmd = Some c -> isSpace c = false) /\
    (forall c, lastOf cmd = Some c -> isSpace c = false).

(** [verb] is [cmd] up to its first blank or tab, [arg] the rest without
    the white space at its two ends; a command without blank and tab is
    its verb. *)
Definition cuts (cmd verb arg : list rune) : Prop :=
  Forall (fun c => c <> 32 /\ c <> 9) verb /\
  ((cmd = verb /\ arg = []) \/
   exists d rest, (d = 32 \/ d = 9) /\ cmd = verb ++ d :: rest /\ trims rest arg).

(** *** Samples *)

(** Control writes succeed, and the window service answers the first
    [New] with the id 42. *)
Definition env_ok : Env :=
  mkEnv 5 ctl_ok (None, inl (runes "42 0 0 0 0 ")) (Some "no acme", inr "no acme")%string.

(** The window service is gone: control writes and [New] fail. *)
Definition env_gone : Env :=
  mkEnv 5 ctl_fails (Some "no acme", inr "no acme")%string
                    (Some "no acme", inr "no acme")%string.


(** The execute event with the text " ute x ". *)
Definition ev_ute : Event :=
  mkEvent 77 120 0 7 0 7 0 0 7 (runes " ute x ") [] [].

(** A handler whose [ExecFoo] returns the error "nope". *)
Definition h_foo_err : EventHandler :=
  mkHandler (fun _ => false) (fun _ => false)
    (fun name => if bool_decide (name = runes "ExecFoo")
                 then Some (mkMethod 1 TString 1 TError (fun _ => Some (runes "nope")))
                 else None).

(** The selection cannot be read. *)
Definition sel_fails : Z -> Z -> list rune * option (list rune) :=
  fun _ _ => ([], Some (runes "read failed")).

(* ================================================================== *)
(** * Properties *)
(* ================================================================== *)

(** ** Arithmetic of [wrap] *)

Lemma wrap_id x : in_int x -> wrap x = x.
Proof.
  unfold in_int, wrap. intros H.
  rewrite Z.mod_small by lia. lia.
Qed.

Lemma wrap_step x c : wrap (wrap x * 10 + c) = wrap (x * 10 + c).
Proof.
  unfold wrap.
  replace (((x + 2 ^ 63) mod 2 ^ 64 - 2 ^ 63) * 10 + c + 2 ^ 63)
    with ((x + 2 ^ 63) mod 2 ^ 64 * 10 + (c - 9 * 2 ^ 63)) by ring.
  rewrite <- Zplus_mod_idemp_l, Zmult_mod_idemp_l, Zplus_mod_idemp_l.
  f_equal. f_equal. ring.
Qed.

(** ** Decimal numbers: what [geten] reads and what [%d] prints *)

Lemma geten_loop_digits ds : forall a rest,
  Forall isDigit ds ->
  geten_loop (wrap a) (ds ++ 32 :: rest) = Ok (wrap (digitsVal a ds)) rest.
Proof.
  induction ds as [|d ds IH]; intros a rest Hds; simpl.
  - reflexivity.
  - inversion Hds as [|? ? Hd Hds']; subst. unfold isDigit in Hd.
    destruct (d <? 48) eqn:E1; [lia|].
    destruct (d >? 57) eqn:E2; [lia|]. simpl.
    replace (wrap a * 10 + d - 48) with (wrap a * 10 + (d - 48)) by ring.
    rewrite wrap_step.
    replace (a * 10 + (d - 48)) with (a * 10 + d - 48) by ring.
    apply IH. assumption.
Qed.

Lemma fmtUint_spec k : forall n acc,
  0 <= n < 10 ^ Z.of_nat k ->
  exists ds, fmtUint k n acc = ds ++ acc /\ Forall isDigit ds /\
             forall a, digitsVal a ds = a * 10 ^ Z.of_nat (length ds) + n.
Proof.
  induction k as [|k IH]; intros n acc Hn.
  - exists []. simpl in *. repeat split; [constructor | intros a; lia].
  - simpl fmtUint. destruct (n <? 10) eqn:E.
    + exists [48 + n]. repeat split.
      * constructor; [unfold isDigit; lia | constructor].
      * intros a. unfold digitsVal. simpl. lia.
    + assert (Hpow : 10 ^ Z.of_nat (S k) = 10 * 10 ^ Z.of_nat k).
      { rewrite Nat2Z.inj_succ, Z.pow_succ_r by lia. reflexivity. }
      destruct (IH (n / 10) ((48 + n mod 10) :: acc)) as (ds & Heq & Hds & Hval).
      { split; [apply Z.div_pos; lia|].
        apply Z.div_lt_upper_bound; lia. }
      exists (ds ++ [48 + n mod 10]). repeat split.
      * rewrite Heq, <- app_assoc. reflexivity.
      * apply Forall_app. split; [assumption|].
        constructor; [|constructor].
        unfold isDigit. pose proof (Z.mod_pos_bound n 10). lia.
      * intros a. unfold digitsVal in *. rewrite fold_left_app. simpl.
        rewrite Hval, length_app. simpl length.
        rewrite Nat2Z.inj_add, Z.pow_add_r by lia.
        change (Z.of_nat 1) with 1. rewrite Z.pow_1_r.
        pose proof (Z.div_mod n 10). lia.
Qed.

(** Reading back a number printed with [%d] and followed by one space. *)
Lemma geten_fmt_d n rest :
  0 <= n < 2 ^ 63 -> geten (fmt_d n ++ 32 :: rest) = Ok n rest.
Proof.
  intros Hn. unfold fmt_d. destruct (n <? 0) eqn:E; [lia|].
  destruct (fmtUint_spec 20 n []) as (ds & Heq & Hds & Hval).
  { split; [lia|]. change (10 ^ Z.of_nat 20) with 100000000000000000000. lia. }
  rewrite Heq, app_nil_r. unfold geten.
  change 0 with (wrap 0) at 1.
  rewrite geten_loop_digits by assumption.
  rewrite Hval. f_equal. apply wrap_id. unfold in_int. lia.
Qed.

(** A number printed with [%d] is never empty and starts with a digit or
    the minus sign. *)
Lemma fmt_d_digits n : 0 <= n < 2 ^ 63 ->
  exists ds, fmt_d n = ds /\ Forall isDigit ds.
Proof.
  intros Hn. unfold fmt_d. destruct (n <? 0) eqn:E; [lia|].
  destruct (fmtUint_spec 20 n []) as (ds & Heq & Hds & _).
  { split; [lia|]. change (10 ^ Z.of_nat 20) with 100000000000000000000. lia. }
  exists ds. rewrite Heq, app_nil_r. auto.
Qed.

(** ** The event codec *)

Lemma fmtUint_digits k : forall n acc,
  0 <= n -> Forall isDigit acc -> Forall isDigit (fmtUint k n acc).
Proof.
  induction k as [|k IH]; intros n acc Hn Hacc; simpl; [assumption|].
  destruct (n <? 10) eqn:E.
  - constructor; [unfold isDigit; lia | assumption].
  - apply IH; [apply Z.div_pos; lia|].
    constructor; [|assumption].
    unfold isDigit. pose proof (Z.mod_pos_bound n 10). lia.
Qed.

(** Whatever number [%d] printed, [geten] reads a value or stops on the
    minus sign. *)
Lemma geten_fmt_d_any n rest :
  (exists v, geten (fmt_d n ++ 32 :: rest) = Ok v rest) \/
  (exists s', geten (fmt_d n ++ 32 :: rest) = Panic "event number syntax" s').
Proof.
  unfold fmt_d. destruct (n <? 0) eqn:E.
  - right. eexists. reflexivity.
  - left. unfold geten. change 0 with (wrap 0) at 1.
    eexists. apply geten_loop_digits.
    apply fmtUint_digits; [lia | constructor].
Qed.

Lemma geten_newline rest :
  geten (10 :: rest) = Panic "event number syntax" rest.
Proof. reflexivity. Qed.

Lemma WriteEvent_app e rest :
  WriteEvent e ++ rest =
  fmt_c (C1 e) :: fmt_c (C2 e) :: fmt_d (Q0 e) ++ 32 :: fmt_d (Q1 e) ++ 32 :: 10 :: rest.
Proof.
  unfold WriteEvent. simpl. rewrite <- app_assoc. simpl.
  rewrite <- app_assoc. reflexivity.
Qed.

Lemma gete_WriteEvent e0 e rest :
  exists s', gete e0 (WriteEvent e ++ rest) = Panic "event number syntax" s'.
Proof.
  rewrite WriteEvent_app. unfold gete.
  unfold bind at 1. simpl getec. unfold bind at 1. simpl getec.
  unfold bind at 1.
  destruct (geten_fmt_d_any (Q0 e) (fmt_d (Q1 e) ++ 32 :: 10 :: rest))
    as [[v0 H0]|[s0 H0]]; rewrite H0; [|eauto].
  unfold bind at 1.
  destruct (geten_fmt_d_any (Q1 e) (10 :: rest))
    as [[v1 H1]|[s1 H1]]; rewrite H1; [|eauto].
  unfold bind at 1. rewrite geten_newline. eauto.
Qed.

Lemma getHeader_WriteEvent e rest :
  validRune (C1 e) = true -> validRune (C2 e) = true ->
  0 <= Q0 e < 2 ^ 63 -> 0 <= Q1 e < 2 ^ 63 ->
  getHeader (WriteEvent e ++ rest) = Ok (C1 e, C2 e, Q0 e, Q1 e) (10 :: rest).
Proof.
  intros V1 V2 H0 H1. rewrite WriteEvent_app.
  unfold getHeader, fmt_c. rewrite V1, V2.
  unfold bind at 1. simpl getec. unfold bind at 1. simpl getec.
  unfold bind at 1. rewrite geten_fmt_d by assumption.
  unfold bind at 1. rewrite geten_fmt_d by assumption.
  reflexivity.
Qed.

Lemma ReadEvent_first_panic s v s' :
  gete newEvent s = Panic v s' ->
  ReadEvent None s = Returned None (Some ("malformed acme event: " +:+ v)%string) s'.
Proof.
  intros H. unfold ReadEvent, readEvent, readPrimary, bind. rewrite H. reflexivity.
Qed.

(** C1 (as amended).  The record [WriteEvent] writes for an event is the
    two tag runes, [Q0], a space, [Q1], a space and a newline.  Reading it
    with the event-record decoder delivers the event's [C1], [C2], [Q0] and
    [Q1] as the first four fields, but the record stops there: the decoder
    meets the newline where it expects the flag and fails, so [gete] panics
    with "event number syntax" and [ReadEvent] returns no event and a
    "malformed acme event" error. *)
Theorem C1_writeback_record_decoding (e : Event) (rest : list rune) :
  validRune (C1 e) = true -> validRune (C2 e) = true ->
  0 <= Q0 e < 2 ^ 63 -> 0 <= Q1 e < 2 ^ 63 ->
  getHeader (WriteEvent e ++ rest) = Ok (C1 e, C2 e, Q0 e, Q1 e) (10 :: rest) /\
  (exists s', gete newEvent (WriteEvent e ++ rest) = Panic "event number syntax" s') /\
  (exists s', ReadEvent None (WriteEvent e ++ rest) =
              Returned None (Some "malformed acme event: event number syntax"%string) s').
Proof.
  intros V1 V2 H0 H1. split; [|split].
  - apply getHeader_WriteEvent; assumption.
  - apply gete_WriteEvent.
  - destruct (gete_WriteEvent newEvent e rest) as [s' Hs'].
    exists s'. apply (ReadEvent_first_panic _ _ _ Hs').
Qed.

Lemma C1_writeback_record_decoding_witness :
  getHeader (WriteEvent ev_xX ++ []) = Ok (C1 ev_xX, C2 ev_xX, Q0 ev_xX, Q1 ev_xX) [10] /\
  (exists s', gete newEvent (WriteEvent ev_xX ++ []) = Panic "event number syntax" s') /\
  (exists s', ReadEvent None (WriteEvent ev_xX ++ []) =
              Returned None (Some "malformed acme event: event number syntax"%string) s').
Proof.
  apply (C1_writeback_record_decoding ev_xX []); [reflexivity | reflexivity | simpl; lia | simpl; lia].
Defined.

(** C1 (as stated) fails: the event x X 10 12 has neither the expansion nor
    the chorded bit, its record is "xX10 12 \n", and decoding that record
    does not succeed. *)
Lemma C1_counterexample :
  Z.land (Flag ev_xX) 2 = 0 /\ Z.land (Flag ev_xX) 8 = 0 /\
  WriteEvent ev_xX = runes "xX10 12 " ++ [10] /\
  gete newEvent (WriteEvent ev_xX) = Panic "event number syntax" [] /\
  ReadEvent None (WriteEvent ev_xX) =
    Returned None (Some "malformed acme event: event number syntax"%string) [] /\
  ~ (exists e' s', gete newEvent (WriteEvent ev_xX) = Ok e' s' /\
        C1 e' = C1 ev_xX /\ C2 e' = C2 ev_xX /\ Q0 e' = Q0 ev_xX /\ Q1 e' = Q1 ev_xX).
Proof.
  repeat split; try reflexivity.
  intros (e' & s' & H & _). vm_compute in H. discriminate H.
Qed.

(** [gete] first reads the six fixed fields. *)
Lemma gete_getFields e s :
  gete e s =
  match getFields s with
  | Ok (c1, c2, q0, q1, fl, nr) r =>
      (let e := set_Nr nr (set_Flag fl (set_Q1 q1 (set_Q0 q0 (set_C2 c2 (set_C1 c1 e))))) in
       if nr >? eventSize then panic "event string too long"
       else if nr <? 0 then RuntimePanic
       else r <- getecs (Z.to_nat nr) ;;
            let e := set_Text r e in
            c <- getec ;;
            if c =? 10 then ret e else panic "phase error") r
  | Panic v r => Panic v r
  | RuntimePanic r => RuntimePanic r
  end.
Proof.
  unfold gete, getFields, bind.
  destruct (getec s) as [c1 s1| |]; try reflexivity.
  destruct (getec s1) as [c2 s2| |]; try reflexivity.
  destruct (geten s2) as [q0 s3| |]; try reflexivity.
  destruct (geten s3) as [q1 s4| |]; try reflexivity.
  destruct (geten s4) as [fl s5| |]; try reflexivity.
  destruct (geten s5) as [nr s6| |]; reflexivity.
Qed.

Lemma gete_oversized e r rest :
  oversized r rest -> gete e r = Panic "event string too long" rest.
Proof.
  intros (c1 & c2 & q0 & q1 & fl & nr & Hf & Hnr).
  rewrite gete_getFields, Hf. cbv zeta.
  destruct (nr >? eventSize) eqn:E; [reflexivity | lia].
Qed.

Lemma readExpansion_set e s :
  Z.land (Flag e) 2 <> 0 ->
  readExpansion e s =
  match gete newEvent s with
  | Ok e2 s' =>
      if Q0 e =? Q1 e
      then Ok (set_Flag (Flag e) (set_OrigQ1 (Q1 e) (set_OrigQ0 (Q0 e) e2))) s'
      else Ok e s'
  | Panic v s' => Panic v s'
  | RuntimePanic s' => RuntimePanic s'
  end.
Proof.
  intros H. unfold readExpansion.
  destruct (Z.land (Flag e) 2 =? 0) eqn:E; [lia|]. cbn [negb]. unfold bind.
  destruct (gete newEvent s); try reflexivity.
  destruct (Q0 e =? Q1 e); reflexivity.
Qed.

Lemma readChorded_set e s :
  Z.land (Flag e) 8 <> 0 ->
  readChorded e s =
  match gete newEvent s with
  | Ok e3 s' =>
      match gete newEvent s' with
      | Ok e4 s'' => Ok (set_Loc (Text e4) (set_Arg (Text e3) e)) s''
      | Panic v s'' => Panic v s''
      | RuntimePanic s'' => RuntimePanic s''
      end
  | Panic v s' => Panic v s'
  | RuntimePanic s' => RuntimePanic s'
  end.
Proof.
  intros H. unfold readChorded.
  destruct (Z.land (Flag e) 8 =? 0) eqn:E; [lia|]. cbn [negb]. unfold bind.
  destruct (gete newEvent s) as [e3 s'| |]; reflexivity.
Qed.

Lemma readChorded_clear e s :
  Z.land (Flag e) 8 = 0 -> readChorded e s = Ok e s.
Proof. intros H. unfold readChorded. rewrite H. reflexivity. Qed.

(** A panic with a string value in any record read by [ReadEvent] comes out
    as the error of [ReadEvent], without an event. *)
Lemma ReadEvent_record_panic s r v rest :
  reads_record s r -> gete newEvent r = Panic v rest ->
  ReadEvent None s = Returned None (Some ("malformed acme event: " +:+ v)%string) rest.
Proof.
  intros Hr Hp. unfold ReadEvent, readEvent.
  destruct Hr as [| e s1 H1 Hfl | e s1 e' s2 H1 H2 Hfl | e s1 e' s2 e3 s3 H1 H2 Hfl H3].
  - unfold bind, readPrimary, bind. rewrite Hp. reflexivity.
  - unfold bind at 1. rewrite H1. unfold bind at 1.
    rewrite readExpansion_set, Hp by assumption. reflexivity.
  - unfold bind at 1. rewrite H1. unfold bind at 1. rewrite H2.
    rewrite readChorded_set, Hp by assumption. reflexivity.
  - unfold bind at 1. rewrite H1. unfold bind at 1. rewrite H2.
    rewrite readChorded_set, H3, Hp by assumption. reflexivity.
Qed.

(** C3.  Whichever record of an event announces a text of more than 256
    runes (the primary record, the expansion, or one of the two chorded
    records), [ReadEvent] returns no event and the error "malformed acme
    event: event string too long"; the process goes on. *)
Theorem C3_oversized_text_rejected (s r rest : list rune) :
  reads_record s r -> oversized r rest ->
  ReadEvent None s =
    Returned None (Some "malformed acme event: event string too long"%string) rest.
Proof.
  intros Hr Ho.
  apply (ReadEvent_record_panic s r "event string too long" rest Hr).
  apply gete_oversized. assumption.
Qed.

Lemma C3_oversized_text_rejected_witness :
  ReadEvent None (runes "Mx0 0 0 257 abc") =
    Returned None (Some "malformed acme event: event string too long"%string)
             (runes "abc").
Proof.
  apply (C3_oversized_text_rejected (runes "Mx0 0 0 257 abc") (runes "Mx0 0 0 257 abc")).
  - apply rr_primary.
  - exists 77, 120, 0, 0, 0, 257. split; [reflexivity | unfold eventSize; lia].
Defined.

(** ** Expansion *)

(** C2 (as amended).  When the primary record has the expansion bit and an
    empty selection, and the second record decodes, every event that
    [ReadEvent] returns has the second record's [Q0] and [Q1], the
    PRIMARY record's [Flag], and the primary's [Q0], [Q1] as [OrigQ0],
    [OrigQ1]; and [ReadEvent] does return such an event when the chorded
    bit is clear or the two chorded records decode. *)
Theorem C2_expansion_replaces_range (s s1 s2 : list rune) (e1 e2 : Event) :
  gete newEvent s = Ok e1 s1 ->
  Z.land (Flag e1) 2 <> 0 ->
  Q0 e1 = Q1 e1 ->
  gete newEvent s1 = Ok e2 s2 ->
  (forall e err s', ReadEvent None s = Returned (Some e) err s' -> expandedFrom e1 e2 e) /\
  (Z.land (Flag e1) 8 = 0 \/
   (exists e3 s3 e4 s4, gete newEvent s2 = Ok e3 s3 /\ gete newEvent s3 = Ok e4 s4) ->
   exists e s', ReadEvent None s = Returned (Some e) None s' /\ expandedFrom e1 e2 e).
Proof.
  intros H1 Hfl Hq H2. set (good := expandedFrom e1 e2).
  set (e12 := set_Flag (Flag e1) (set_OrigQ1 (Q1 e1) (set_OrigQ0 (Q0 e1) e2))).
  assert (Hrd : readEvent s = readChorded e12 s2).
  { unfold readEvent. unfold bind at 1. unfold readPrimary. unfold bind at 1.
    rewrite H1. unfold ret at 1. unfold bind at 1.
    rewrite readExpansion_set by exact Hfl. cbn [Q0 Q1 Flag set_OrigQ0 set_OrigQ1].
    rewrite H2. destruct (Q0 e1 =? Q1 e1) eqn:E2; [reflexivity | lia]. }
  assert (Hgood : forall e s', readEvent s = Ok e s' -> good e).
  { intros e s' He. rewrite Hrd in He.
    destruct (Z.eq_dec (Z.land (Flag e12) 8) 0) as [H8|H8].
    - rewrite readChorded_clear in He by exact H8.
      inversion He; subst. unfold good, expandedFrom. simpl. auto.
    - rewrite readChorded_set in He by exact H8.
      destruct (gete newEvent s2) as [e3 s3| |]; try discriminate He.
      destruct (gete newEvent s3) as [e4 s4| |]; try discriminate He.
      inversion He; subst. unfold good, expandedFrom. simpl. auto. }
  split.
  - intros e err s' Hr. unfold ReadEvent in Hr.
    destruct (readEvent s) as [e' s''| |] eqn:E; try discriminate Hr.
    inversion Hr; subst. apply (Hgood e s'). reflexivity.
  - intros Hch.
    assert (Hok : exists e s', readEvent s = Ok e s').
    { rewrite Hrd.
      destruct (Z.eq_dec (Z.land (Flag e12) 8) 0) as [H8|H8].
      - rewrite readChorded_clear by exact H8. eauto.
      - destruct Hch as [H8' | (e3 & s3 & e4 & s4 & H3 & H4)]; [exact (False_ind _ (H8 H8'))|].
        rewrite readChorded_set, H3, H4 by exact H8. eauto. }
    destruct Hok as (e & s' & He). exists e, s'. split.
    + unfold ReadEvent. rewrite He. reflexivity.
    + apply (Hgood e s' He).
Qed.

Lemma C2_expansion_replaces_range_witness :
  (forall e err s', ReadEvent None buf_expansion = Returned (Some e) err s' ->
                    expandedFrom ev_primary ev_second e) /\
  (Z.land (Flag ev_primary) 8 = 0 \/
   (exists e3 s3 e4 s4, gete newEvent [] = Ok e3 s3 /\ gete newEvent s3 = Ok e4 s4) ->
   exists e s', ReadEvent None buf_expansion = Returned (Some e) None s' /\
                expandedFrom ev_primary ev_second e).
Proof.
  apply (C2_expansion_replaces_range buf_expansion
           (runes "Mx3 7 0 2 ab" ++ [10]) [] ev_primary ev_second).
  - reflexivity.
  - vm_compute. discriminate.
  - reflexivity.
  - reflexivity.
Defined.

(** C2 (as stated) fails on the flag: the primary record has flag 2, the
    second record flag 0, and the event returned carries flag 2, the
    primary's ([e2.Flag = e.Flag] in the source). *)
Lemma C2_counterexample :
  gete newEvent buf_expansion = Ok ev_primary (runes "Mx3 7 0 2 ab" ++ [10]) /\
  Z.land (Flag ev_primary) 2 <> 0 /\
  Q0 ev_primary = Q1 ev_primary /\
  gete newEvent (runes "Mx3 7 0 2 ab" ++ [10]) = Ok ev_second [] /\
  ReadEvent None buf_expansion = Returned (Some ev_expanded) None [] /\
  Flag ev_expanded <> Flag ev_second.
Proof.
  repeat split; try reflexivity; vm_compute; discriminate.
Qed.

(** ** The registry *)

Section registry_basics.
Implicit Types (st : State) (w p q : ptr) (l : list ptr).

Lemma deref_store p f st q :
  deref (store p f st) q = if decide (q = p) then f (deref st p) else deref st q.
Proof.
  unfold deref at 1, store. simpl. case_decide as E.
  - subst. rewrite lookup_insert_eq. reflexivity.
  - rewrite lookup_insert_ne by congruence. reflexivity.
Qed.

Lemma deref_set_windows v st q : deref (set_windows v st) q = deref st q.
Proof. reflexivity. Qed.

Lemma deref_set_last v st q : deref (set_last v st) q = deref st q.
Proof. reflexivity. Qed.

Lemma heap_store_is_Some p f st q :
  is_Some (heap st !! q) -> is_Some (heap (store p f st) !! q).
Proof.
  intros H. unfold store. simpl. destruct (decide (p = q)) as [->|E].
  - rewrite lookup_insert_eq. eauto.
  - rewrite lookup_insert_ne by assumption. assumption.
Qed.

Lemma wf_initState : wf initState [].
Proof.
  unfold wf, initState. simpl. repeat split; try reflexivity.
  - constructor.
  - intros p Hp. inversion Hp.
  - destruct l1; discriminate.
  - destruct l1; discriminate.
Qed.

Lemma wf_AutoExit b st l : wf st l -> wf (AutoExit b st) l.
Proof. intros H. exact H. Qed.

Lemma wf_empty_iff st l : wf st l -> (windows st = None <-> l = []).
Proof.
  intros (_ & Hw & _). rewrite Hw. apply head_None.
Qed.

(** Two decompositions of a duplicate-free list around the same element
    coincide. *)
Lemma NoDup_split_unique (l1 l2 k1 k2 : list ptr) p :
  NoDup (l1 ++ p :: l2) -> l1 ++ p :: l2 = k1 ++ p :: k2 -> l1 = k1 /\ l2 = k2.
Proof.
  revert k1. induction l1 as [|x l1 IH]; intros k1 Hnd Heq.
  - destruct k1 as [|y k1]; simpl in *.
    + inversion Heq. auto.
    + inversion Heq; subst. apply NoDup_cons in Hnd as [Hn _].
      exfalso. apply Hn. apply elem_of_app. right. left.
  - destruct k1 as [|y k1]; simpl in *.
    + inversion Heq; subst. apply NoDup_cons in Hnd as [Hn _].
      exfalso. apply Hn. apply elem_of_app. right. left.
    + inversion Heq; subst. apply NoDup_cons in Hnd as [_ Hnd].
      destruct (IH k1 Hnd H1) as [-> ->]. auto.
Qed.

Lemma head_app_skip (l1 l2 : list ptr) w :
  l1 <> [] -> head (l1 ++ w :: l2) = head (l1 ++ l2).
Proof. destruct l1; [congruence | reflexivity]. Qed.

Lemma last_app_skip (l1 l2 : list ptr) w :
  l2 <> [] -> lastOf (l1 ++ w :: l2) = lastOf (l1 ++ l2).
Proof.
  intros H. destruct l2 as [|y l2]; [congruence|].
  rewrite !last_app. rewrite last_cons_cons. reflexivity.
Qed.

Lemma wf_links st l l1 p l2 :
  wf st l -> l = l1 ++ p :: l2 ->
  prev (deref st p) = lastOf l1 /\ next (deref st p) = head l2.
Proof. intros (_ & _ & _ & _ & H & _). apply H. Qed.

Lemma wf_outside st l p :
  wf st l -> p ∉ l -> prev (deref st p) = None /\ next (deref st p) = None.
Proof. intros (_ & _ & _ & _ & _ & H). apply H. Qed.

(** Removing a window that is not in the registry changes nothing. *)
Lemma dropLocked_outside st l w :
  wf st l -> w ∉ l -> dropLocked w st = (st, false).
Proof.
  intros Hwf Hw. destruct (wf_outside _ _ _ Hwf Hw) as [Hp Hn].
  unfold dropLocked. rewrite Hp, Hn.
  rewrite !bool_decide_eq_true_2 by reflexivity.
  rewrite bool_decide_eq_false_2; [reflexivity|].
  destruct Hwf as (_ & Hh & _). rewrite Hh. intros Hhd.
  apply Hw. apply head_Some_elem_of. assumption.
Qed.

End registry_basics.

Section registry_removal.
Implicit Types (st : State) (w p q : ptr) (l : list ptr).

(** The state after removing a member: the globals and every window's
    fields, read off the source line by line. *)
Lemma dropLocked_member_state st l1 w l2 :
  wf st (l1 ++ w :: l2) ->
  let st' := fst (dropLocked w st) in
  windows st' = head (l1 ++ l2) /\
  last st' = lastOf (l1 ++ l2) /\
  autoExit st' = autoExit st /\
  snd (dropLocked w st) = autoExit st && bool_decide (l1 ++ l2 = []) /\
  (forall q, is_Some (heap st !! q) -> is_Some (heap st' !! q)) /\
  (forall q, name (deref st' q) = name (deref st q) /\ id (deref st' q) = id (deref st q)) /\
  (forall q, next (deref st' q) =
             if decide (q = w) then None
             else if decide (lastOf l1 = Some q) then head l2
             else next (deref st q)) /\
  (forall q, prev (deref st' q) =
             if decide (q = w) then None
             else if decide (head l2 = Some q) then lastOf l1
             else prev (deref st q)).
Proof.
  intros Hwf.
  destruct (wf_links _ _ _ _ _ Hwf eq_refl) as [Hp Hn].
  destruct Hwf as (Hnd & Hh & Hl & _).
  apply NoDup_app in Hnd as (Hnd1 & Hd12 & Hnd2).
  apply NoDup_cons in Hnd2 as [Hw2 Hnd2].
  assert (Hw1 : w ∉ l1).
  { intros H. apply (Hd12 _ H). left. }
  assert (Hlast1 : forall p, lastOf l1 = Some p -> p ∈ l1 /\ p <> w /\ p ∉ l2).
  { intros p H. apply last_Some_elem_of in H. repeat split; [assumption| |].
    - intros ->. contradiction.
    - intros H2. apply (Hd12 _ H). right. assumption. }
  assert (Hhead2 : forall n, head l2 = Some n -> n ∈ l2 /\ n <> w /\ n ∉ l1).
  { intros n H. apply head_Some_elem_of in H. repeat split; [assumption| |].
    - intros ->. contradiction.
    - intros H1. apply (Hd12 _ H1). right. assumption. }
  unfold dropLocked. rewrite Hp, Hn.
  assert (Hguard : bool_decide (lastOf l1 = None) && bool_decide (head l2 = None) &&
                   negb (bool_decide (windows st = Some w)) = false).
  { destruct l1 as [|x l1'].
    - rewrite Hh. simpl. rewrite (bool_decide_eq_true_2 (Some w = Some w)) by reflexivity.
      simpl. apply andb_false_r.
    - rewrite (bool_decide_eq_false_2 (lastOf (x :: l1') = None)); [reflexivity|].
      rewrite last_None. discriminate. }
  rewrite Hguard. clear Hguard.
  destruct (lastOf l1) as [p|] eqn:El1; destruct (head l2) as [n|] eqn:El2.
  all: try (destruct (Hlast1 p eq_refl) as (Hp1 & Hpw & Hp2)).
  all: try (destruct (Hhead2 n eq_refl) as (Hn2 & Hnw & Hn1)).
  all: try (apply last_None in El1; subst l1).
  all: try (apply head_None in El2; subst l2).
  all: cbv zeta.
  all: repeat first
         [ rewrite deref_set_windows | rewrite deref_set_last
         | rewrite Hp | rewrite Hn
         | rewrite (deref_store _ _ _ w); case_decide; [congruence|] ].
  all: cbn [fst snd].
  all: match goal with |- windows ?s = ?hd /\ last _ = ?lt /\ _ =>
         set (st' := s);
         assert (Hwin : windows st' = hd);
         [ subst st'; simpl;
           first [ rewrite Hh; apply head_app_skip; intros ->; discriminate El1
                 | rewrite ?El2; reflexivity ]
         | assert (Hlst : last st' = lt);
           [ subst st'; simpl;
             first [ rewrite Hl; apply last_app_skip; intros ->; discriminate El2
                   | rewrite ?app_nil_r, ?El1; reflexivity ]
           | ] ]
       end.
  all: split; [exact Hwin|]; split; [exact Hlst|]; split; [reflexivity|].
  all: split; [change (autoExit st') with (autoExit st); f_equal;
               apply bool_decide_ext; rewrite Hwin; apply head_None|].
  all: split; [intros q Hq; subst st';
               repeat first [apply heap_store_is_Some
                            | progress cbn [heap set_last set_windows]]; exact Hq|].
  all: subst st'; repeat split; intros.
  all: repeat (progress (rewrite ?deref_store, ?deref_set_windows, ?deref_set_last;
                         repeat case_decide; subst; simpl; try congruence)).
Qed.

(** Removing a member leaves the registry well formed, without it. *)
Lemma dropLocked_member_wf st l1 w l2 :
  wf st (l1 ++ w :: l2) -> wf (fst (dropLocked w st)) (l1 ++ l2).
Proof.
  intros Hwf.
  destruct (dropLocked_member_state st l1 w l2 Hwf)
    as (Hwin & Hlst & _ & _ & Halloc & _ & Hnext & Hprev).
  pose proof Hwf as (Hnd & _ & _ & Hal & _ & _).
  assert (Hnd' := Hnd).
  apply NoDup_app in Hnd' as (Hnd1 & Hd12 & Hnd2).
  apply NoDup_cons in Hnd2 as [Hw2 Hnd2].
  assert (Hw1 : w ∉ l1) by (intros H; apply (Hd12 _ H); left).
  assert (Hdisj : forall x, x ∈ l1 -> x ∉ l2).
  { intros x H1 H2. apply (Hd12 _ H1). right. assumption. }
  repeat split.
  - apply NoDup_app. repeat split; assumption.
  - exact Hwin.
  - exact Hlst.
  - intros p Hp. apply Halloc. apply Hal.
    apply elem_of_app in Hp as [Hp|Hp]; apply elem_of_app; [left|right; right]; assumption.
  - (* prev *)
    rename H into Heq. rewrite Hprev.
    assert (Hpin : p ∈ l1 ++ l2) by (rewrite Heq; apply elem_of_app; right; left).
    case_decide as Epw; [subst p; apply elem_of_app in Hpin as [?|?]; contradiction|].
    apply app_eq_inv in Heq as [(k & E1 & E2)|(k & E1 & E2)].
    + destruct k as [|y k]; simpl in E2.
      * (* p is the head of l2 *)
        subst l2. rewrite app_nil_r in E1. subst l0.
        rewrite decide_True by reflexivity. reflexivity.
      * (* p lies in l1 *)
        inversion E2; subst y l3. clear E2.
        assert (p ∈ l1) by (rewrite E1; apply elem_of_app; right; left).
        rewrite decide_False.
        2:{ intros Hh. apply head_Some_elem_of in Hh. apply (Hdisj p); assumption. }
        subst l1.
        apply (wf_links _ _ l0 p (k ++ w :: l2) Hwf).
        rewrite <- app_assoc. reflexivity.
    + (* p lies in l2, after k *)
      subst l0 l2.
      destruct (wf_links _ _ (l1 ++ w :: k) p l3 Hwf) as [Hold _].
      { rewrite <- app_assoc. reflexivity. }
      destruct k as [|y k].
      * rewrite decide_True by reflexivity. rewrite app_nil_r. reflexivity.
      * rewrite decide_False.
        2:{ simpl. intros Hh. inversion Hh; subst y.
            apply NoDup_cons in Hnd2 as [Hn _]. apply Hn.
            apply elem_of_app. right. left. }
        rewrite Hold. apply last_app_skip. discriminate.
  - (* next *)
    rename H into Heq. rewrite Hnext.
    assert (Hpin : p ∈ l1 ++ l2) by (rewrite Heq; apply elem_of_app; right; left).
    case_decide as Epw; [subst p; apply elem_of_app in Hpin as [?|?]; contradiction|].
    apply app_eq_inv in Heq as [(k & E1 & E2)|(k & E1 & E2)].
    + destruct k as [|y k]; simpl in E2.
      * (* p is the head of l2 *)
        subst l2. rewrite app_nil_r in E1. subst l0.
        rewrite decide_False.
        2:{ intros Hh. apply last_Some_elem_of in Hh.
            apply (Hdisj p Hh). left. }
        apply (wf_links _ _ (l1 ++ [w]) p l3 Hwf).
        rewrite <- app_assoc. reflexivity.
      * (* p lies in l1 *)
        inversion E2; subst y l3. clear E2. subst l1.
        destruct (wf_links _ _ l0 p (k ++ w :: l2) Hwf) as [_ Hold].
        { rewrite <- app_assoc. reflexivity. }
        destruct k as [|y k].
        -- rewrite decide_True by apply last_snoc. reflexivity.
        -- rewrite decide_False.
           2:{ rewrite last_app. simpl. rewrite last_cons.
               intros Hh.
               apply NoDup_app in Hnd1 as (_ & _ & Hnd1).
               apply NoDup_cons in Hnd1 as [Hn _]. apply Hn.
               destruct (lastOf k) as [z|] eqn:Ek.
               - inversion Hh; subst z. right. apply last_Some_elem_of. assumption.
               - inversion Hh; subst y. left. }
           rewrite Hold. reflexivity.
    + (* p lies in l2, after k *)
      subst l0 l2.
      rewrite decide_False.
      2:{ intros Hh. apply last_Some_elem_of in Hh.
          apply (Hdisj p Hh). apply elem_of_app. right. left. }
      apply (wf_links _ _ (l1 ++ w :: k) p l3 Hwf).
      rewrite <- app_assoc. reflexivity.
  - (* prev outside *)
    rename H into Hout. rewrite Hprev. case_decide; [reflexivity|].
    assert (Hq : p ∉ l1 ++ w :: l2).
    { intros Hin. apply Hout. apply elem_of_app in Hin as [?|Hin]; apply elem_of_app.
      - left. assumption.
      - right. apply elem_of_cons in Hin as [?|?]; [congruence | assumption]. }
    rewrite decide_False.
    2:{ intros Hh. apply head_Some_elem_of in Hh. apply Hout.
        apply elem_of_app. right. assumption. }
    apply (wf_outside _ _ _ Hwf Hq).
  - (* next outside *)
    rename H into Hout. rewrite Hnext. case_decide; [reflexivity|].
    assert (Hq : p ∉ l1 ++ w :: l2).
    { intros Hin. apply Hout. apply elem_of_app in Hin as [?|Hin]; apply elem_of_app.
      - left. assumption.
      - right. apply elem_of_cons in Hin as [?|?]; [congruence | assumption]. }
    rewrite decide_False.
    2:{ intros Hh. apply last_Some_elem_of in Hh. apply Hout.
        apply elem_of_app. left. assumption. }
    apply (wf_outside _ _ _ Hwf Hq).
Qed.

End registry_removal.

Section registry_insertion.
Implicit Types (st : State) (w p q : ptr) (l : list ptr).

Lemma deref_alloc w st q :
  deref (alloc w st) q = if decide (q = w) then newWin else deref st q.
Proof.
  unfold deref, alloc. simpl. case_decide as E.
  - subst. rewrite lookup_insert_eq. reflexivity.
  - rewrite lookup_insert_ne by congruence. reflexivity.
Qed.

Lemma heap_alloc_is_Some w st q :
  is_Some (heap st !! q) -> is_Some (heap (alloc w st) !! q).
Proof.
  intros H. unfold alloc. simpl. destruct (decide (w = q)) as [->|E].
  - rewrite lookup_insert_eq. eauto.
  - rewrite lookup_insert_ne by assumption. assumption.
Qed.

Lemma wf_fresh st l : wf st l -> fresh (dom (heap st)) ∉ l.
Proof.
  intros (_ & _ & _ & Hal & _) Hin.
  apply Hal in Hin. apply elem_of_dom in Hin.
  exact (is_fresh (dom (heap st)) Hin).
Qed.

(** The state after [Open]: the new window is the fresh address. *)
Lemma Open_state st l i :
  wf st l ->
  let w := fresh (dom (heap st)) in
  exists st', Open None i st = (Some w, None, st') /\
    windows st' = head (l ++ [w]) /\
    last st' = Some w /\
    autoExit st' = autoExit st /\
    (forall q, is_Some (heap st !! q) -> is_Some (heap st' !! q)) /\
    is_Some (heap st' !! w) /\
    (forall q, q <> w -> name (deref st' q) = name (deref st q)) /\
    name (deref st' w) = ""%string /\
    (forall q, next (deref st' q) =
               if decide (lastOf l = Some q) then Some w
               else if decide (q = w) then None else next (deref st q)) /\
    (forall q, prev (deref st' q) =
               if decide (q = w) then lastOf l else prev (deref st q)).
Proof.
  intros Hwf w.
  pose proof (wf_fresh _ _ Hwf) as Hw. fold w in Hw.
  destruct Hwf as (Hnd & Hh & Hl & Hal & _ & _).
  assert (Hlw : forall p, lastOf l = Some p -> p <> w).
  { intros p H ->. apply Hw. apply last_Some_elem_of. assumption. }
  unfold Open. fold w. cbv zeta. cbn [last store alloc].
  eexists. split; [reflexivity|].
  rewrite Hl.
  destruct (lastOf l) as [p|] eqn:El.
  all: try (pose proof (Hlw p eq_refl) as Hpw).
  all: try (apply last_None in El; subst l).
  all: split; [simpl; rewrite ?Hh; try reflexivity;
               try (destruct l; [discriminate El | reflexivity])|].
  all: split; [reflexivity|]; split; [reflexivity|].
  all: split; [intros q Hq;
               repeat first [apply heap_store_is_Some
                            | progress cbn [heap set_last set_windows]];
               apply heap_alloc_is_Some; exact Hq|].
  all: split; [repeat first [apply heap_store_is_Some
                            | progress cbn [heap set_last set_windows]];
               unfold alloc; simpl; rewrite lookup_insert_eq; eauto|].
  all: repeat split; intros.
  all: repeat (progress (rewrite ?deref_store, ?deref_set_windows, ?deref_set_last,
                           ?deref_alloc;
                         repeat case_decide; subst; simpl; try congruence)).
Qed.

(** [Open] appends the new window to the registry. *)
Lemma Open_wf st l i :
  wf st l ->
  exists st', Open None i st = (Some (fresh (dom (heap st))), None, st') /\
              wf st' (l ++ [fresh (dom (heap st))]) /\
              autoExit st' = autoExit st.
Proof.
  intros Hwf.
  destruct (Open_state st l i Hwf)
    as (st' & HO & Hwin & Hlst & Hae & Halloc & Hw' & _ & _ & Hnext & Hprev).
  pose proof (wf_fresh _ _ Hwf) as Hw.
  set (w := fresh (dom (heap st))) in *.
  exists st'. split; [exact HO|]. split; [|exact Hae].
  pose proof Hwf as (Hnd & _ & _ & Hal & _ & _).
  repeat split.
  - apply NoDup_app. repeat split; [assumption | | apply NoDup_singleton].
    intros x Hx Hx'. apply list_elem_of_singleton in Hx'. subst x. contradiction.
  - exact Hwin.
  - rewrite Hlst, last_snoc. reflexivity.
  - intros p Hp. apply elem_of_app in Hp as [Hp|Hp].
    + apply Halloc, Hal, Hp.
    + apply list_elem_of_singleton in Hp. subst p. exact Hw'.
  - (* prev *)
    rename H into Heq. rewrite Hprev.
    apply app_eq_inv in Heq as [(k & E1 & E2)|(k & E1 & E2)].
    + destruct k as [|y k]; simpl in E2.
      * inversion E2; subst p l2. rewrite app_nil_r in E1. subst l1.
        rewrite decide_True by reflexivity. reflexivity.
      * inversion E2; subst y l2. clear E2.
        rewrite decide_False.
        2:{ intros ->. apply Hw. rewrite E1. apply elem_of_app. right. left. }
        apply (wf_links _ _ l1 p k Hwf E1).
    + destruct k as [|y k]; simpl in E2.
      * inversion E2; subst p l2. rewrite app_nil_r in E1. subst l1.
        rewrite decide_True by reflexivity. reflexivity.
      * inversion E2 as [[Ey Ek]]. destruct k; discriminate Ek.
  - (* next *)
    rename H into Heq. rewrite Hnext.
    apply app_eq_inv in Heq as [(k & E1 & E2)|(k & E1 & E2)].
    + destruct k as [|y k]; simpl in E2.
      * inversion E2; subst p l2. rewrite app_nil_r in E1. subst l1.
        rewrite decide_False.
        2:{ intros Hh. apply Hw. apply last_Some_elem_of. assumption. }
        rewrite decide_True by reflexivity. reflexivity.
      * inversion E2; subst y l2. clear E2.
        destruct (wf_links _ _ l1 p k Hwf E1) as [_ Hold].
        destruct k as [|y k].
        -- rewrite decide_True by (rewrite E1; apply last_snoc). reflexivity.
        -- assert (Hpw : p <> w).
           { intros ->. apply Hw. rewrite E1. apply elem_of_app. right. left. }
           rewrite decide_False.
           2:{ rewrite E1, last_app. simpl. rewrite last_cons. intros Hh.
               rewrite E1 in Hnd.
               apply NoDup_app in Hnd as (_ & _ & Hnd).
               apply NoDup_cons in Hnd as [Hn _]. apply Hn.
               destruct (lastOf k) as [z|] eqn:Ek.
               - inversion Hh; subst z. right. apply last_Some_elem_of. assumption.
               - inversion Hh; subst y. left. }
           rewrite decide_False by exact Hpw.
           rewrite Hold. reflexivity.
    + destruct k as [|y k]; simpl in E2.
      * inversion E2; subst p l2. rewrite app_nil_r in E1. subst l1.
        rewrite decide_False.
        2:{ intros Hh. apply Hw. apply last_Some_elem_of. assumption. }
        rewrite decide_True by reflexivity. reflexivity.
      * inversion E2 as [[Ey Ek]]. destruct k; discriminate Ek.
  - (* prev outside *)
    rename H into Hout. rewrite Hprev.
    rewrite decide_False.
    2:{ intros ->. apply Hout. apply elem_of_app. right. left. }
    apply (wf_outside _ _ _ Hwf). intros Hin. apply Hout. apply elem_of_app. left. assumption.
  - (* next outside *)
    rename H into Hout. rewrite Hnext.
    rewrite decide_False.
    2:{ intros Hh. apply Hout. apply elem_of_app. left. apply last_Some_elem_of. assumption. }
    rewrite decide_False.
    2:{ intros ->. apply Hout. apply elem_of_app. right. left. }
    apply (wf_outside _ _ _ Hwf). intros Hin. apply Hout. apply elem_of_app. left. assumption.
Qed.

End registry_insertion.

Section registry_sequences.
Implicit Types (st : State) (w p q : ptr) (l ws : list ptr).

Lemma Opens_wf ids : forall st l,
  wf st l ->
  exists ws st', Opens ids st = (ws, st') /\ wf st' (l ++ ws) /\
                 length ws = length ids /\ autoExit st' = autoExit st.
Proof.
  induction ids as [|i ids IH]; intros st l Hwf.
  - exists [], st. rewrite app_nil_r. auto.
  - destruct (Open_wf st l i Hwf) as (st1 & HO & Hwf1 & Hae1).
    destruct (IH st1 _ Hwf1) as (ws & st2 & HOs & Hwf2 & Hlen & Hae2).
    exists (fresh (dom (heap st)) :: ws), st2.
    cbn [Opens]. rewrite HO, HOs.
    rewrite <- app_assoc in Hwf2. simpl in Hwf2.
    split; [reflexivity|]. split; [exact Hwf2|].
    split; [simpl; congruence | congruence].
Qed.

(** Removing a member, in terms of the list. *)
Lemma dropLocked_member st l w :
  wf st l -> w ∈ l ->
  exists l', wf (fst (dropLocked w st)) l' /\
             (forall x, x ∈ l' <-> x ∈ l /\ x <> w) /\
             S (length l') = length l /\
             autoExit (fst (dropLocked w st)) = autoExit st /\
             snd (dropLocked w st) = autoExit st && bool_decide (l' = []).
Proof.
  intros Hwf Hin.
  apply list_elem_of_split in Hin as (l1 & l2 & ->).
  pose proof (dropLocked_member_wf _ _ _ _ Hwf) as Hwf'.
  destruct (dropLocked_member_state _ _ _ _ Hwf) as (_ & _ & Hae & Hex & _).
  destruct Hwf as (Hnd & _).
  exists (l1 ++ l2). split; [exact Hwf'|]. split; [|split; [|split; assumption]].
  - intros x. split.
    + intros H. split.
      * apply elem_of_app in H as [?|?]; apply elem_of_app; [left|right; right]; assumption.
      * intros ->. apply NoDup_app in Hnd as (_ & Hd & Hnd2).
        apply NoDup_cons in Hnd2 as [Hn2 _].
        apply elem_of_app in H as [H|H]; [|contradiction].
        apply (Hd _ H). left.
    + intros [Hx Hne]. apply elem_of_app in Hx as [?|Hx]; apply elem_of_app.
      * left. assumption.
      * right. apply elem_of_cons in Hx as [?|?]; [contradiction | assumption].
  - rewrite !length_app. simpl. lia.
Qed.

(** Removing twice is removing once. *)
Lemma dropLocked_idempotent st l w :
  wf st l ->
  dropLocked w (fst (dropLocked w st)) = (fst (dropLocked w st), false).
Proof.
  intros Hwf. destruct (decide (w ∈ l)) as [Hin|Hout].
  - destruct (dropLocked_member st l w Hwf Hin) as (l' & Hwf' & Hmem & _).
    apply (dropLocked_outside _ l' _ Hwf').
    intros H. apply Hmem in H as [_ H]. congruence.
  - rewrite (dropLocked_outside _ _ _ Hwf Hout). simpl.
    apply (dropLocked_outside _ _ _ Hwf Hout).
Qed.

(** The registry after each of a series of removals of distinct members. *)
Lemma drops_spec ws : forall st l,
  wf st l -> NoDup ws -> (forall x, x ∈ ws -> x ∈ l) ->
  forall k r, drops ws st !! k = Some r ->
  exists l', wf (fst r) l' /\
             (forall x, x ∈ l' <-> x ∈ l /\ x ∉ take (S k) ws) /\
             (length l' + S k = length l)%nat /\
             autoExit (fst r) = autoExit st /\
             snd r = autoExit st && bool_decide (l' = []).
Proof.
  induction ws as [|w ws IH]; intros st l Hwf Hnd Hsub k r Hk.
  - destruct k; discriminate Hk.
  - apply NoDup_cons in Hnd as [Hw Hnd].
    destruct (dropLocked_member st l w Hwf) as (l1 & Hwf1 & Hmem1 & Hlen1 & Hae1 & Hex1).
    { apply Hsub. left. }
    destruct k as [|k]; simpl in Hk.
    + inversion Hk; subst r. exists l1.
      split; [exact Hwf1|]. split; [|split; [lia|split; assumption]].
      intros x. rewrite Hmem1. simpl. rewrite take_0.
      rewrite list_elem_of_singleton. reflexivity.
    + destruct (IH (fst (dropLocked w st)) l1 Hwf1 Hnd) with (k := k) (r := r)
        as (l' & Hwf' & Hmem' & Hlen' & Hae' & Hex'); [|assumption|].
      { intros x Hx. apply Hmem1. split; [apply Hsub; right; assumption|].
        intros ->. contradiction. }
      exists l'.
      split; [exact Hwf'|]. split; [|split; [lia|split; [congruence|]]].
      * intros x. rewrite Hmem', Hmem1.
        change (take (S (S k)) (w :: ws)) with (w :: take (S k) ws).
        rewrite elem_of_cons. tauto.
      * rewrite Hex'. congruence.
Qed.

Lemma drops_length ws : forall st, length (drops ws st) = length ws.
Proof. induction ws as [|w ws IH]; intros st; simpl; [reflexivity | rewrite IH; reflexivity]. Qed.

End registry_sequences.

(** Every registry built by opening windows at process start is well
    formed. *)
Lemma Opens_init_wf ae ids :
  wf (snd (Opens ids (AutoExit ae initState))) (fst (Opens ids (AutoExit ae initState))) /\
  length (fst (Opens ids (AutoExit ae initState))) = length ids /\
  autoExit (snd (Opens ids (AutoExit ae initState))) = ae.
Proof.
  destruct (Opens_wf ids (AutoExit ae initState) [] (wf_AutoExit ae _ _ wf_initState))
    as (ws & st' & HO & Hwf & Hlen & Hae).
  rewrite HO. simpl in *. auto.
Qed.

(** C5.  After N windows have been opened and then removed in any order,
    the registry is empty after the N-th removal and after no earlier one;
    and removing a window that was removed before, or that never was in
    the registry, leaves the state as it is. *)
Theorem C5_removal_idempotent_and_empties_once
    (ae : bool) (ids : list Z) (ps ws : list ptr) (st : State) :
  Opens ids (AutoExit ae initState) = (ps, st) ->
  ws ≡ₚ ps ->
  length (drops ws st) = length ids /\
  (forall w, w ∉ ps -> dropLocked w st = (st, false)) /\
  (forall k r, drops ws st !! k = Some r ->
     (windows (fst r) = None <-> S k = length ids) /\
     (forall w, w ∈ take (S k) ws \/ w ∉ ps ->
        dropLocked w (fst r) = (fst r, false))).
Proof.
  intros HO Hperm.
  destruct (Opens_init_wf ae ids) as (Hwf & Hlen & Hae).
  rewrite HO in Hwf, Hlen. simpl in Hwf, Hlen.
  assert (Hlenws : length ws = length ids).
  { rewrite <- Hlen. apply Permutation_length. assumption. }
  split; [rewrite drops_length; assumption|].
  split; [intros w Hw; apply (dropLocked_outside _ _ _ Hwf Hw)|].
  intros k r Hk.
  destruct (drops_spec ws st ps Hwf) with (k := k) (r := r)
    as (l' & Hwf' & Hmem' & Hlen' & _ & _); [| |assumption|].
  { rewrite Hperm. destruct Hwf as (Hnd & _). exact Hnd. }
  { intros x Hx. rewrite <- Hperm. assumption. }
  split.
  - rewrite (wf_empty_iff _ _ Hwf'). split.
    + intros ->. simpl in Hlen'. lia.
    + intros Hk'. destruct l'; [reflexivity|]. simpl in Hlen'. lia.
  - intros w Hw. apply (dropLocked_outside _ _ _ Hwf').
    rewrite Hmem'. intros [Hin Hnot]. destruct Hw as [Hw|Hw]; contradiction.
Qed.

Lemma C5_removal_idempotent_and_empties_once_witness :
  length (drops [2; 3; 1]%positive (snd reg3)) = 3%nat /\
  (forall w, w ∉ fst reg3 -> dropLocked w (snd reg3) = (snd reg3, false)) /\
  (forall k r, drops [2; 3; 1]%positive (snd reg3) !! k = Some r ->
     (windows (fst r) = None <-> S k = 3%nat) /\
     (forall w, w ∈ take (S k) [2; 3; 1]%positive \/ w ∉ fst reg3 ->
        dropLocked w (fst r) = (fst r, false))).
Proof.
  apply (C5_removal_idempotent_and_empties_once true [11; 12; 13]
           (fst reg3) [2; 3; 1]%positive (snd reg3)).
  - reflexivity.
  - vm_compute. apply perm_trans with [2; 1; 3]%positive.
    + apply perm_skip. apply perm_swap.
    + apply perm_swap.
Defined.




(** Removing the second of three windows does not end the process, with
    the auto-exit flag set. *)
Example drop_one_of_three :
  autoExit (snd reg3) = true /\ snd (dropLocked 2%positive (snd reg3)) = false.
Proof. split; reflexivity. Qed.

(** ** Show *)

Section show.
Implicit Types (st : State) (w p q : ptr) (l : list ptr).
Variable ctl : ptr -> string -> option string.
Variable n : string.

(** Following the [next] links visits the members in order. *)
Lemma Show_loop_list st b : forall a fuel,
  wf st (a ++ b) ->
  (length b < fuel)%nat ->
  Show_loop fuel ctl n (head b) st = Some (Show_list ctl n b st).
Proof.
  induction b as [|x b IH]; intros a fuel Hwf Hfuel.
  - destruct fuel; reflexivity.
  - destruct fuel as [|fuel]; [simpl in Hfuel; lia|].
    simpl. destruct (bool_decide (name (deref st x) = n)).
    { destruct (ctl x "show"%string); [|reflexivity].
      destruct (dropLocked x st) as [s1 []]; reflexivity. }
    destruct (wf_links _ _ a x b Hwf eq_refl) as [_ Hn]. rewrite Hn.
    apply (IH (a ++ [x])).
    + rewrite <- app_assoc. exact Hwf.
    + simpl in Hfuel. lia.
Qed.

(** With any fuel, an answer of the loop is the answer on the list. *)
Lemma Show_loop_sound st b : forall a fuel r,
  wf st (a ++ b) ->
  Show_loop fuel ctl n (head b) st = Some r -> r = Show_list ctl n b st.
Proof.
  induction b as [|x b IH]; intros a fuel r Hwf Hr.
  - destruct fuel; simpl in Hr; inversion Hr; reflexivity.
  - destruct fuel as [|fuel]; [discriminate Hr|].
    simpl in Hr |- *.
    destruct (bool_decide (name (deref st x) = n)).
    { destruct (ctl x "show"%string); [|congruence].
      destruct (dropLocked x st) as [s1 []]; congruence. }
    destruct (wf_links _ _ a x b Hwf eq_refl) as [_ Hn]. rewrite Hn in Hr.
    apply (IH (a ++ [x]) fuel); [|exact Hr].
    rewrite <- app_assoc. exact Hwf.
Qed.

Lemma Show_list_skip st l1 l2 :
  (forall p, p ∈ l1 -> name (deref st p) <> n) ->
  Show_list ctl n (l1 ++ l2) st = Show_list ctl n l2 st.
Proof.
  induction l1 as [|x l1 IH]; intros H; [reflexivity|].
  simpl. rewrite bool_decide_eq_false_2 by (apply H; left).
  apply IH. intros p Hp. apply H. right. assumption.
Qed.

(** A window returned by [Show] is a member. *)
Lemma Show_list_found st l w st' :
  Show_list ctl n l st = ShowReturn (Some w) st' -> w ∈ l.
Proof.
  induction l as [|x l IH]; simpl; [discriminate|].
  destruct (bool_decide (name (deref st x) = n)).
  - destruct (ctl x "show"%string).
    + destruct (dropLocked x st) as [s1 []]; discriminate.
    + intros H. inversion H. left.
  - intros H. right. apply IH. assumption.
Qed.

End show.

(** C10 (as amended).  When the first registered window named [n] is [w]
    and writing "show" to it fails, [Show] removes [w] from the registry;
    unless that empties the registry while auto-exit is set (then the
    process ends inside the removal), [Show] returns nil; and no later
    [Show] returns [w]. *)
Theorem C10_show_failure_drops_window
    (ctl : ptr -> string -> option string) (n : string)
    (st : State) (l1 l2 : list ptr) (w : ptr) (fuel : nat) :
  wf st (l1 ++ w :: l2) ->
  (forall p, p ∈ l1 -> name (deref st p) <> n) ->
  name (deref st w) = n ->
  is_Some (ctl w "show"%string) ->
  (length (l1 ++ w :: l2) < fuel)%nat ->
  let st' := fst (dropLocked w st) in
  Show fuel ctl n st =
    Some (if autoExit st && bool_decide (l1 ++ l2 = [])
          then ShowExit st' else ShowReturn None st') /\
  wf st' (l1 ++ l2) /\ (w ∉ l1 ++ l2) /\
  (forall fuel' ctl' n' st'',
     Show fuel' ctl' n' st' <> Some (ShowReturn (Some w) st'')).
Proof.
  intros Hwf Hl1 Hw [err Hctl] Hfuel st'.
  pose proof (dropLocked_member_wf _ _ _ _ Hwf) as Hwf'. fold st' in Hwf'.
  destruct (dropLocked_member_state _ _ _ _ Hwf) as (_ & _ & _ & Hex & _).
  assert (Hnot : w ∉ l1 ++ l2).
  { destruct Hwf as (Hnd & _).
    apply NoDup_app in Hnd as (_ & Hd & Hnd2). apply NoDup_cons in Hnd2 as [Hn2 _].
    intros H. apply elem_of_app in H as [H|H]; [|contradiction].
    apply (Hd _ H). left. }
  split; [|split; [exact Hwf'|split; [exact Hnot|]]].
  - unfold Show. pose proof Hwf as (_ & Hh & _). rewrite Hh.
    rewrite (Show_loop_list ctl n st (l1 ++ w :: l2) [] fuel Hwf Hfuel).
    f_equal. rewrite Show_list_skip by assumption.
    simpl. rewrite bool_decide_eq_true_2 by assumption. rewrite Hctl.
    subst st'. destruct (dropLocked w st) as [s1 ex]. simpl in *. subst ex. reflexivity.
  - intros fuel' ctl' n' st'' HS. unfold Show in HS.
    pose proof Hwf' as (_ & Hh' & _). rewrite Hh' in HS.
    apply (Show_loop_sound ctl' n' st' (l1 ++ l2) [] _ _ Hwf') in HS.
    symmetry in HS. apply Show_list_found in HS. contradiction.
Qed.

Lemma wf_Name ctlErr w n st l : wf st l -> wf (snd (Name ctlErr w n st)) l.
Proof.
  intros Hwf. destruct ctlErr as [e|]; [exact Hwf|]. simpl.
  destruct Hwf as (Hnd & Hh & Hl & Hal & Hlk & Hout).
  assert (Hp : forall q, prev (deref (store w (set_name n) st) q) = prev (deref st q) /\
                         next (deref (store w (set_name n) st) q) = next (deref st q)).
  { intros q. rewrite deref_store. case_decide; subst; auto. }
  split; [exact Hnd|]. split; [exact Hh|]. split; [exact Hl|].
  split; [|split].
  - intros p Hin. apply heap_store_is_Some. apply Hal. exact Hin.
  - intros l1 p l2 E. destruct (Hp p) as [-> ->]. apply Hlk. exact E.
  - intros p Hn. destruct (Hp p) as [-> ->]. apply Hout. exact Hn.
Qed.

Lemma wf_reg3_named : wf reg3_named ([1%positive] ++ 2%positive :: [3%positive]).
Proof.
  exact (wf_Name None 2%positive "/tmp/+Errors" _ _ (proj1 (Opens_init_wf true [11; 12; 13]))).
Qed.

Lemma wf_reg1_named : wf reg1_named ([] ++ 1%positive :: []).
Proof.
  exact (wf_Name None 1%positive "/tmp/+Errors" _ _ (proj1 (Opens_init_wf true [11]))).
Qed.

Lemma C10_show_failure_drops_window_witness :
  Show 4 ctl_fails "/tmp/+Errors" reg3_named =
    Some (ShowReturn None (fst (dropLocked 2%positive reg3_named))) /\
  wf (fst (dropLocked 2%positive reg3_named)) [1; 3]%positive /\
  (2%positive ∉ [1; 3]%positive) /\
  (forall fuel' ctl' n' st'',
     Show fuel' ctl' n' (fst (dropLocked 2%positive reg3_named))
     <> Some (ShowReturn (Some 2%positive) st'')).
Proof.
  apply (C10_show_failure_drops_window ctl_fails "/tmp/+Errors" reg3_named
           [1%positive] [3%positive] 2%positive 4 wf_reg3_named).
  - intros p Hp. apply list_elem_of_singleton in Hp. subst p.
    vm_compute. discriminate.
  - reflexivity.
  - eexists. reflexivity.
  - simpl. lia.
Defined.

(** C10 (as stated) fails when the window is the last one and auto-exit is
    set: the removal inside [Show] ends the process, and [Show] does not
    return nil. *)
Lemma C10_counterexample :
  wf reg1_named [1%positive] /\
  autoExit reg1_named = true /\
  name (deref reg1_named 1%positive) = "/tmp/+Errors"%string /\
  is_Some (ctl_fails 1%positive "show"%string) /\
  Show 2 ctl_fails "/tmp/+Errors" reg1_named =
    Some (ShowExit (fst (dropLocked 1%positive reg1_named))) /\
  (forall st', Show 2 ctl_fails "/tmp/+Errors" reg1_named <> Some (ShowReturn None st')).
Proof.
  split; [exact wf_reg1_named|].
  split; [reflexivity|]. split; [reflexivity|]. split; [eexists; reflexivity|].
  assert (H : Show 2 ctl_fails "/tmp/+Errors" reg1_named =
              Some (ShowExit (fst (dropLocked 1%positive reg1_named)))) by reflexivity.
  split; [exact H|]. intros st'. rewrite H. discriminate.
Qed.

(** ** Event delivery *)

Section consumption.

Lemma getec_length c s s' : getec s = Ok c s' -> length s = S (length s').
Proof. destruct s; simpl; intros H; inversion H; reflexivity. Qed.

Lemma geten_loop_length s : forall a v s',
  geten_loop a s = Ok v s' -> (length s' < length s)%nat.
Proof.
  induction s as [|c s IH]; intros a v s' H; simpl in H; [discriminate|].
  destruct ((c <? 48) || (c >? 57)).
  - destruct (c =? 32); inversion H; subst. simpl. lia.
  - apply IH in H. simpl. lia.
Qed.

Lemma getecs_length k : forall s r s',
  getecs k s = Ok r s' -> (length s' <= length s)%nat.
Proof.
  induction k as [|k IH]; intros s r s' H; simpl in H.
  - inversion H; subst. lia.
  - unfold bind in H. destruct (getec s) as [c s1| |] eqn:E1; try discriminate.
    apply getec_length in E1.
    destruct (getecs k s1) as [r1 s2| |] eqn:E2; try discriminate.
    apply IH in E2. inversion H; subst. lia.
Qed.

(** A record that decodes is not empty. *)
Lemma gete_length e s e' s' :
  gete e s = Ok e' s' -> (length s' < length s)%nat.
Proof.
  unfold gete, bind. intros H.
  destruct (getec s) as [c1 s1| |] eqn:E1; try discriminate.
  apply getec_length in E1.
  destruct (getec s1) as [c2 s2| |] eqn:E2; try discriminate.
  apply getec_length in E2.
  destruct (geten s2) as [q0 s3| |] eqn:E3; try discriminate.
  apply geten_loop_length in E3.
  destruct (geten s3) as [q1 s4| |] eqn:E4; try discriminate.
  apply geten_loop_length in E4.
  destruct (geten s4) as [fl s5| |] eqn:E5; try discriminate.
  apply geten_loop_length in E5.
  destruct (geten s5) as [nr s6| |] eqn:E6; try discriminate.
  apply geten_loop_length in E6.
  destruct (nr >? eventSize); [discriminate|].
  destruct (nr <? 0); [discriminate|].
  destruct (getecs (Z.to_nat nr) s6) as [r s7| |] eqn:E7; try discriminate.
  apply getecs_length in E7.
  destruct (getec s7) as [c s8| |] eqn:E8; try discriminate.
  apply getec_length in E8.
  destruct (c =? 10); inversion H; subst. lia.
Qed.

Lemma readPrimary_length s e s' :
  readPrimary s = Ok e s' -> (length s' < length s)%nat.
Proof.
  unfold readPrimary, bind, ret. intros H.
  destruct (gete newEvent s) as [e1 s1| |] eqn:E1; try discriminate.
  apply gete_length in E1. inversion H; subst. exact E1.
Qed.

Lemma readExpansion_length e s e' s' :
  readExpansion e s = Ok e' s' -> (length s' <= length s)%nat.
Proof.
  destruct (Z.eq_dec (Z.land (Flag e) 2) 0) as [H2|H2].
  - unfold readExpansion. rewrite H2. simpl. unfold ret.
    intros H. inversion H; subst. lia.
  - rewrite readExpansion_set by exact H2.
    destruct (gete newEvent s) as [e2 s2| |] eqn:E2; try discriminate.
    apply gete_length in E2.
    destruct (Q0 e =? Q1 e); intros H; inversion H; subst; lia.
Qed.

Lemma readChorded_length e s e' s' :
  readChorded e s = Ok e' s' -> (length s' <= length s)%nat.
Proof.
  destruct (Z.eq_dec (Z.land (Flag e) 8) 0) as [H8|H8].
  - rewrite readChorded_clear by exact H8. intros H. inversion H; subst. lia.
  - rewrite readChorded_set by exact H8.
    destruct (gete newEvent s) as [e3 s3| |] eqn:E3; try discriminate.
    apply gete_length in E3.
    destruct (gete newEvent s3) as [e4 s4| |] eqn:E4; try discriminate.
    apply gete_length in E4. intros H. inversion H; subst. lia.
Qed.

Lemma readEvent_length s e s' :
  readEvent s = Ok e s' -> (length s' < length s)%nat.
Proof.
  unfold readEvent. unfold bind at 1. intros H.
  destruct (readPrimary s) as [e1 s1| |] eqn:E1; try discriminate.
  apply readPrimary_length in E1.
  unfold bind in H.
  destruct (readExpansion e1 s1) as [e2 s2| |] eqn:E2; try discriminate.
  apply readExpansion_length in E2.
  apply readChorded_length in H. lia.
Qed.

(** [ReadEvent] never returns both no error and the same buffer. *)
Lemma ReadEvent_progress fidErr s e s' :
  ReadEvent fidErr s = Returned e None s' ->
  (length s' < length s)%nat /\ is_Some e.
Proof.
  unfold ReadEvent. destruct fidErr; [discriminate|].
  destruct (readEvent s) as [e1 s1| |] eqn:E; try discriminate.
  intros H. inversion H; subst. split; [|eauto].
  apply (readEvent_length _ _ _ E).
Qed.

(** The loop ends, on a call that failed. *)
Lemma readLoop_total fidErr : forall fuel s,
  (length s < fuel)%nat ->
  exists evs o, readLoop fuel fidErr s = Some (evs, o) /\
                Forall is_Some evs /\
                (o = Crashed \/ exists e err s', o = Returned e (Some err) s').
Proof.
  induction fuel as [|fuel IH]; intros s Hlen; [lia|].
  simpl. destruct (ReadEvent fidErr s) as [e [err|] s'|] eqn:E.
  - exists [], (Returned e (Some err) s'). split; [reflexivity|].
    split; [constructor|]. right. eauto.
  - apply ReadEvent_progress in E as [Hlt He].
    destruct (IH s') as (evs & o & Hr & Hall & Ho); [lia|].
    rewrite Hr. exists (e :: evs), o. split; [reflexivity|].
    split; [constructor; assumption | assumption].
  - exists [], Crashed. split; [reflexivity|]. split; [constructor|]. left. reflexivity.
Qed.

End consumption.

(** C4 (as amended).  The event-delivery task sends the events it decodes;
    when a call of [ReadEvent] returns an error it sends one empty event,
    then removes the window from the registry, and then closes the channel
    and stops, unless the removal ended the process ([os.Exit] under
    auto-exit), in which case nothing follows.  Nothing is sent after the
    empty event. *)
Theorem C4_delivery_task_shutdown
    (fuel : nat) (fidErr : option string) (s : list rune) (w : ptr) (st : State) :
  (length s < fuel)%nat ->
  exists evs o,
    readLoop fuel fidErr s = Some (evs, o) /\
    Forall is_Some evs /\
    ((exists e err s', o = Returned e (Some err) s') /\
     eventReader fuel fidErr s w st =
       Some (map Send evs ++
             [Send (Some newEvent); DropWin;
              if snd (dropLocked w st) then ExitProcess else CloseChan],
             fst (dropLocked w st))
     \/
     o = Crashed /\
     eventReader fuel fidErr s w st = Some (map Send evs ++ [PanicProcess], st)).
Proof.
  intros Hlen.
  destruct (readLoop_total fidErr fuel s Hlen) as (evs & o & Hr & Hall & Ho).
  exists evs, o. split; [exact Hr|]. split; [exact Hall|].
  unfold eventReader, drop. rewrite Hr.
  destruct Ho as [-> | (e & err & s' & ->)].
  - right. split; reflexivity.
  - left. split; [eauto|].
    destruct (dropLocked w st) as [st1 ex]. reflexivity.
Qed.

Lemma C4_delivery_task_shutdown_witness :
  exists evs o,
    readLoop 40 None (runes "Mx0 0 0 2 ab" ++ [10] ++ runes "Mx1 ") = Some (evs, o) /\
    Forall is_Some evs /\
    ((exists e err s', o = Returned e (Some err) s') /\
     eventReader 40 None (runes "Mx0 0 0 2 ab" ++ [10] ++ runes "Mx1 ") 2%positive (snd reg3) =
       Some (map Send evs ++
             [Send (Some newEvent); DropWin;
              if snd (dropLocked 2%positive (snd reg3)) then ExitProcess else CloseChan],
             fst (dropLocked 2%positive (snd reg3)))
     \/
     o = Crashed /\
     eventReader 40 None (runes "Mx0 0 0 2 ab" ++ [10] ++ runes "Mx1 ") 2%positive (snd reg3) =
       Some (map Send evs ++ [PanicProcess], snd reg3)).
Proof.
  apply (C4_delivery_task_shutdown 40 None
           (runes "Mx0 0 0 2 ab" ++ [10] ++ runes "Mx1 ") 2%positive (snd reg3)).
  simpl. lia.
Defined.

(** C4 (as stated) fails when the window is the last one and auto-exit is
    set: the task sends the empty event and removes the window, the removal
    ends the process, and the channel is never closed. *)
Lemma C4_counterexample :
  wf (snd reg1) [1%positive] /\
  autoExit (snd reg1) = true /\
  ReadEvent None [] = Returned None (Some "malformed acme event: EOF"%string) [] /\
  eventReader 1 None [] 1%positive (snd reg1) =
    Some ([Send (Some newEvent); DropWin; ExitProcess],
          fst (dropLocked 1%positive (snd reg1))) /\
  (forall tr st', eventReader 1 None [] 1%positive (snd reg1) = Some (tr, st') ->
                  CloseChan ∉ tr).
Proof.
  split; [exact (proj1 (Opens_init_wf true [11]))|].
  split; [reflexivity|]. split; [reflexivity|].
  assert (H : eventReader 1 None [] 1%positive (snd reg1) =
              Some ([Send (Some newEvent); DropWin; ExitProcess],
                    fst (dropLocked 1%positive (snd reg1)))) by reflexivity.
  split; [exact H|]. intros tr st' H'. rewrite H in H'. inversion H'; subst.
  intros Hin. repeat (apply elem_of_cons in Hin as [Hin|Hin]; [discriminate Hin|]).
  inversion Hin.
Qed.

(** ** The command dispatcher *)

Section strings.

Lemma trimLeft_spec s :
  exists pre, s = pre ++ trimLeft s /\ Forall (fun c => isSpace c = true) pre /\
              (forall c, head (trimLeft s) = Some c -> isSpace c = false).
Proof.
  induction s as [|c s (pre & E & Hpre & Hhd)]; simpl.
  - exists []. repeat split; [constructor | discriminate].
  - destruct (isSpace c) eqn:Ec.
    + exists (c :: pre). simpl. rewrite <- E. repeat split; [|assumption].
      constructor; assumption.
    + exists []. repeat split; [constructor|].
      intros c' H. inversion H; subst. assumption.
Qed.

(** [TrimSpace] cuts white space off both ends, and nothing else. *)
Lemma TrimSpace_spec s :
  exists pre post,
    s = pre ++ TrimSpace s ++ post /\
    Forall (fun c => isSpace c = true) pre /\
    Forall (fun c => isSpace c = true) post /\
    (forall c, head (TrimSpace s) = Some c -> isSpace c = false) /\
    (forall c, head (rev (TrimSpace s)) = Some c -> isSpace c = false).
Proof.
  destruct (trimLeft_spec s) as (pre & E1 & Hpre & Hhd1).
  destruct (trimLeft_spec (rev (trimLeft s))) as (post & E2 & Hpost & Hhd2).
  exists pre, (rev post). unfold TrimSpace.
  set (t := trimLeft s) in *. set (u := trimLeft (rev t)) in *.
  assert (Et : t = rev u ++ rev post).
  { rewrite <- rev_app_distr, <- E2, rev_involutive. reflexivity. }
  split; [rewrite <- Et; exact E1|].
  split; [exact Hpre|].
  split; [apply Forall_rev; exact Hpost|].
  split.
  - intros c Hc. apply Hhd1. rewrite Et.
    destruct (rev u); [discriminate Hc | exact Hc].
  - rewrite rev_involutive. exact Hhd2.
Qed.

Lemma IndexAny_Some s chars : forall i,
  IndexAny s chars = Some i ->
  exists d, s = take i s ++ d :: skipn (S i) s /\
            existsb (Z.eqb d) chars = true /\
            Forall (fun c => existsb (Z.eqb c) chars = false) (take i s).
Proof.
  induction s as [|c s IH]; intros i H; simpl in H; [discriminate|].
  destruct (existsb (Z.eqb c) chars) eqn:Ec.
  - inversion H; subst. exists c. simpl. repeat split; [assumption | constructor].
  - destruct (IndexAny s chars) as [j|]; [|discriminate].
    inversion H; subst. destruct (IH j eq_refl) as (d & E & Hd & Hall).
    exists d. simpl. rewrite <- E. repeat split; [assumption|].
    constructor; assumption.
Qed.

Lemma IndexAny_None s chars :
  IndexAny s chars = None -> Forall (fun c => existsb (Z.eqb c) chars = false) s.
Proof.
  induction s as [|c s IH]; intros H; simpl in H; [constructor|].
  destruct (existsb (Z.eqb c) chars) eqn:Ec; [discriminate|].
  destruct (IndexAny s chars); [discriminate|].
  constructor; [assumption | apply IH; reflexivity].
Qed.

Lemma not_delim c : existsb (Z.eqb c) [32; 9] = false -> c <> 32 /\ c <> 9.
Proof. simpl. intros H. apply orb_false_elim in H as [H1 H2].
  apply orb_false_elim in H2 as [H2 _]. lia. Qed.

Lemma is_delim c : existsb (Z.eqb c) [32; 9] = true -> c = 32 \/ c = 9.
Proof. simpl. intros H. apply orb_true_elim in H as [H|H]; [lia|].
  apply orb_true_elim in H as [H|H]; [lia | discriminate]. Qed.

(** The verb is the text before the first blank or tab, the argument
    the trimmed text after it. *)
Lemma splitVerb_spec cmd verb arg :
  splitVerb cmd = (verb, arg) ->
  Forall (fun c => c <> 32 /\ c <> 9) verb /\
  ((cmd = verb /\ arg = []) \/
   exists d rest, (d = 32 \/ d = 9) /\ cmd = verb ++ d :: rest /\ arg = TrimSpace rest).
Proof.
  unfold splitVerb. destruct (IndexAny cmd [32; 9]) as [i|] eqn:E; intros H; inversion H; subst.
  - destruct (IndexAny_Some _ _ _ E) as (d & Ecmd & Hd & Hall). split.
    + eapply Forall_impl; [exact Hall|]. intros c Hc. apply not_delim. exact Hc.
    + right. exists d, (skipn (S i) cmd). split; [apply is_delim; exact Hd|].
      split; [exact Ecmd | reflexivity].
  - split; [|left; auto].
    eapply Forall_impl; [exact (IndexAny_None _ _ E)|]. intros c Hc. apply not_delim. exact Hc.
Qed.

End strings.








(** The words are there for every text and every command. *)
Lemma trims_exists t : trims t (TrimSpace t).
Proof.
  destruct (TrimSpace_spec t) as (pre & post & E & Hpre & Hpost & Hhd & Hlast).
  exists pre, post. split; [exact E|]. split; [exact Hpre|]. split; [exact Hpost|].
  split; [exact Hhd|].
  intros c Hc. apply Hlast.
  destruct (TrimSpace t) as [|a u _] using rev_ind; [discriminate Hc|].
  rewrite last_snoc in Hc. rewrite rev_app_distr. exact Hc.
Qed.

Lemma cuts_exists cmd : exists verb arg, cuts cmd verb arg.
Proof.
  destruct (splitVerb cmd) as [verb arg] eqn:E. exists verb, arg.
  destruct (splitVerb_spec cmd verb arg E) as [Hv [H | (d & rest & Hd & Hc & Ha)]].
  - split; [exact Hv | left; exact H].
  - split; [exact Hv|]. right. exists d, rest. split; [exact Hd|].
    split; [exact Hc|]. rewrite Ha. apply trims_exists.
Qed.

(** With fuel above the number of registered windows, [Err] and what
    calls it come to an end. *)
Lemma Err_fuel fuel ctl new1 new2 src msg st l :
  wf st l -> (length l < fuel)%nat ->
  Err fuel ctl new1 new2 src msg st <> None.
Proof.
  intros Hwf Hfuel. unfold Err, Show.
  pose proof Hwf as (_ & Hh & _). rewrite Hh.
  rewrite (Show_loop_list ctl _ st l [] fuel Hwf Hfuel).
  destruct (Show_list ctl (Err_name src) l st) as [[w1|] st'|st']; try discriminate.
  destruct (New (fst new1) (snd new1) st') as [[w1 [e1|]] st1]; try discriminate.
  destruct (New (fst new2) (snd new2) st1) as [[w2 [e2|]] st2]; discriminate.
Qed.

Lemma Win_Err_fuel env w msg st l :
  wf st l -> (length l < e_fuel env)%nat ->
  forall tr, Win_Err env w msg st <> NoFuel tr.
Proof.
  intros Hwf Hfuel tr. unfold Win_Err.
  pose proof (Err_fuel (e_fuel env) (e_ctl env) (e_new1 env) (e_new2 env)
                (errorPrefix (deref st w)) (utf8 msg) st l Hwf Hfuel) as H.
  destruct (Err _ _ _ _ _ _ st) as [[w1 ws st'|st'|st'|st']|];
    [discriminate..|congruence].
Qed.

Lemma reports_fuel {A} env w msg (a : A) st l :
  wf st l -> (length l < e_fuel env)%nat ->
  forall tr, (_ <~ Win_Err env w msg ;; retP a) st <> NoFuel tr.
Proof.
  intros Hwf Hfuel tr. unfold bindP, retP.
  pose proof (Win_Err_fuel env w msg st l Hwf Hfuel) as H.
  destruct (Win_Err env w msg st) as [[] tr' st'|how tr' st'|tr'];
    [discriminate..|exfalso; exact (H tr' eq_refl)].
Qed.

Lemma execute_fuel env h w cmd st l :
  wf st l -> (length l < e_fuel env)%nat ->
  forall tr, execute env h w cmd st <> NoFuel tr.
Proof.
  intros Hwf Hfuel tr. unfold execute.
  destruct (splitVerb cmd) as [verb arg].
  destruct (MethodByName h (runes "Exec" ++ verb)) as [m|]; [|discriminate].
  repeat match goal with
         | |- (if ?c then _ else _) st <> _ =>
             destruct c; [apply (reports_fuel env w _ true st l Hwf Hfuel)|]
         end.
  cbv zeta. unfold bindP at 1. unfold emit at 1.
  destruct (if (NumOut m =? 1)%nat then _ else _) as [err|].
  - pose proof (Win_Err_fuel env w err st l Hwf Hfuel) as H.
    unfold bindP, retP.
    destruct (Win_Err env w err st) as [[] tr' st'|how tr' st'|tr']; simpl;
      try discriminate.
    exfalso. exact (H tr' eq_refl).
  - discriminate.
Qed.

Lemma handleEvent_fuel env h readSel w e st l :
  wf st l -> (length l < e_fuel env)%nat ->
  forall tr, handleEvent env h readSel w e st <> NoFuel tr.
Proof.
  intros Hwf Hfuel tr. unfold handleEvent.
  destruct ((C2 e =? 120) || (C2 e =? 88)).
  - unfold bindP.
    pose proof (execute_fuel env h w (TrimSpace (Text e)) st l Hwf Hfuel) as H.
    destruct (execute env h w (TrimSpace (Text e)) st) as [[] tr' st'|how tr' st'|tr'];
      try discriminate.
    exfalso. exact (H tr' eq_refl).
  - destruct ((C2 e =? 108) || (C2 e =? 76)); [|discriminate].
    unfold loadText.
    destruct (bool_decide (Text e = []) && (Q0 e <? Q1 e)).
    + destruct (readSel (Q0 e) (Q1 e)) as [data [msg|]].
      * unfold bindP, retP, emit.
        pose proof (Win_Err_fuel env w msg st l Hwf Hfuel) as H.
        destruct (Win_Err env w msg st) as [[] tr' st'|how tr' st'|tr']; simpl;
          try discriminate.
        -- destruct (Look h data); discriminate.
        -- intros E. exact (H tr' eq_refl).
      * unfold bindP, retP, emit. simpl. destruct (Look h data); discriminate.
    + unfold bindP, retP, emit. simpl. destruct (Look h (Text e)); discriminate.
Qed.



(** The cases of the dispatch on the sample handler: "Foo bar baz" calls
    [ExecFoo("bar baz")]; "Put now", for which there is no [ExecPut], goes
    unchanged to [Execute], which declines, and is written back; " ute x "
    finds [Execute] by reflection and reports its result type, here to a
    window service that is gone, which ends the process. *)
Example dispatch_Foo env w st :
  handleEvent env h_foo noSel w ev_foo st =
    Returns tt [CallMethod (runes "ExecFoo") [runes "bar baz"]] st.
Proof. reflexivity. Qed.

Example dispatch_Put env w st :
  handleEvent env h_foo noSel w ev_put st =
    Returns tt [CallExecute (runes "Put now"); WriteBack ev_put] st.
Proof. reflexivity. Qed.

Example dispatch_ute :
  handleEvent env_gone h_foo noSel 1%positive ev_ute (snd reg3) =
    Ends Fatal [Errf (runes "bad method ute x: return type bool, not error")] (snd reg3).
Proof. vm_compute. reflexivity. Qed.


(** ** Sort *)

Section sorting.
Variable less : string -> string -> bool.

Lemma insertStable_perm x l : insertStable less x l ≡ₚ x :: l.
Proof.
  induction l as [|y l IH]; simpl; [reflexivity|].
  destruct (less y x); [|reflexivity].
  rewrite IH. apply perm_swap.
Qed.

(** The sorted lines are the lines. *)
Lemma SliceStable_perm l : SliceStable less l ≡ₚ l.
Proof.
  induction l as [|x l IH]; simpl; [reflexivity|].
  rewrite insertStable_perm, IH. reflexivity.
Qed.

(** [less] is a strict weak order: asymmetric, and "not after" is
    transitive. *)
Hypothesis less_asym : forall x y, less x y = true -> less y x = false.
Hypothesis notAfter_trans :
  forall x y z, notAfter less x y -> notAfter less y z -> notAfter less x z.

Lemma insertStable_sorted x l :
  StronglySorted (notAfter less) l ->
  StronglySorted (notAfter less) (insertStable less x l).
Proof.
  induction l as [|y l IH]; intros Hs; simpl.
  - constructor; constructor.
  - inversion Hs as [|? ? Hs' Hall]; subst.
    destruct (less y x) eqn:E.
    + constructor; [apply IH; assumption|].
      rewrite insertStable_perm. constructor; [|assumption].
      unfold notAfter. apply less_asym. assumption.
    + constructor; [assumption|]. constructor; [exact E|].
      eapply Forall_impl; [exact Hall|]. intros z Hz.
      apply (notAfter_trans x y z); assumption.
Qed.

(** No line of the result is less than a line before it. *)
Lemma SliceStable_sorted l : StronglySorted (notAfter less) (SliceStable less l).
Proof.
  induction l as [|x l IH]; simpl; [constructor|].
  apply insertStable_sorted. assumption.
Qed.

Lemma insertStable_tied z x l :
  filter (fun y => tied less z y = true) (insertStable less x l) =
  filter (fun y => tied less z y = true) (x :: l).
Proof.
  induction l as [|y l IH]; simpl; [reflexivity|].
  destruct (less y x) eqn:E; [|reflexivity].
  rewrite filter_cons. rewrite IH. rewrite !filter_cons.
  destruct (decide (tied less z y = true)) as [Hy|Hy];
    destruct (decide (tied less z x = true)) as [Hx|Hx]; try reflexivity.
  exfalso. unfold tied in Hx, Hy.
  apply andb_true_iff in Hx as [Hx1 Hx2]. apply andb_true_iff in Hy as [Hy1 Hy2].
  apply negb_true_iff in Hx1, Hx2, Hy1, Hy2.
  assert (Hxy : notAfter less x y) by (apply (notAfter_trans x z y); assumption).
  unfold notAfter in Hxy. congruence.
Qed.

(** The sort is stable: tied lines keep their order. *)
Lemma SliceStable_stable z l :
  filter (fun y => tied less z y = true) (SliceStable less l) =
  filter (fun y => tied less z y = true) l.
Proof.
  induction l as [|x l IH]; simpl; [reflexivity|].
  rewrite insertStable_tied, !filter_cons, IH. reflexivity.
Qed.

(** A stable sort is determined: two sorted arrangements of the same lines
    in which tied lines come in the same order are equal. *)
Lemma stable_sort_unique l1 : forall l2,
  l1 ≡ₚ l2 ->
  StronglySorted (notAfter less) l1 ->
  StronglySorted (notAfter less) l2 ->
  (forall z, filter (fun y => tied less z y = true) l1 =
             filter (fun y => tied less z y = true) l2) ->
  l1 = l2.
Proof.
  assert (Hirr : forall x, less x x = false).
  { intros x. destruct (less x x) eqn:E; [|reflexivity].
    rewrite (less_asym x x E) in E. discriminate E. }
  induction l1 as [|x l1 IH]; intros l2 Hp Hs1 Hs2 Hf.
  - apply Permutation_nil in Hp. congruence.
  - destruct l2 as [|y l2]; [symmetry in Hp; apply Permutation_nil in Hp; discriminate Hp|].
    inversion Hs1 as [|? ? Hs1' Hall1]; subst.
    inversion Hs2 as [|? ? Hs2' Hall2]; subst.
    assert (Hxy : tied less x y = true).
    { unfold tied. apply andb_true_iff. split; apply negb_true_iff.
      - assert (Hin : x ∈ y :: l2) by (rewrite <- Hp; left).
        apply elem_of_cons in Hin as [->|Hin]; [apply Hirr|].
        rewrite Forall_forall in Hall2. apply Hall2. exact Hin.
      - assert (Hin : y ∈ x :: l1) by (rewrite Hp; left).
        apply elem_of_cons in Hin as [->|Hin]; [apply Hirr|].
        rewrite Forall_forall in Hall1. apply Hall1. exact Hin. }
    assert (Hxx : tied less x x = true).
    { unfold tied. rewrite Hirr. reflexivity. }
    assert (Heq : x = y).
    { pose proof (Hf x) as Hfx. rewrite !filter_cons in Hfx.
      rewrite decide_True in Hfx by exact Hxx.
      rewrite decide_True in Hfx by exact Hxy.
      inversion Hfx. reflexivity. }
    subst y. f_equal. apply IH; [| assumption | assumption |].
    + apply Permutation_cons_inv in Hp. exact Hp.
    + intros z. pose proof (Hf z) as Hfz. rewrite !filter_cons in Hfz.
      destruct (decide (tied less z x = true)); [inversion Hfz; reflexivity | exact Hfz].
Qed.

End sorting.

Section lines.

Lemma Split_not_nil s : Split s <> [].
Proof.
  destruct s as [|c s]; simpl; [discriminate|].
  destruct (Ascii.eqb c nl); [discriminate|].
  destruct (Split s); discriminate.
Qed.

(** A final newline gives a final empty line. *)
Lemma Split_snoc_nl s : Split (s +:+ String nl EmptyString) = Split s ++ [EmptyString].
Proof.
  induction s as [|c s IH]; simpl; [reflexivity|].
  destruct (Ascii.eqb c nl); rewrite IH; [reflexivity|].
  pose proof (Split_not_nil s) as Hn.
  destruct (Split s); [congruence | reflexivity].
Qed.

(** The last line is empty only for the empty text and for a text that
    ends in a newline. *)
Lemma Split_last_empty s :
  List.last (Split s) EmptyString = EmptyString ->
  s = EmptyString \/ exists d, s = (d +:+ String nl EmptyString)%string.
Proof.
  induction s as [|c s IH]; [auto|]. intros H. right.
  simpl Split in H.
  pose proof (Split_not_nil s) as Hn.
  destruct (Ascii.eqb c nl) eqn:Ec.
  - apply Ascii.eqb_eq in Ec. subst c.
    destruct (Split s) as [|l ls] eqn:Es; [congruence|].
    change (List.last (EmptyString :: l :: ls) EmptyString)
      with (List.last (l :: ls) EmptyString) in H.
    destruct (IH H) as [-> | [d ->]].
    + exists EmptyString. reflexivity.
    + exists (String nl d). reflexivity.
  - destruct (Split s) as [|l ls] eqn:Es; [congruence|].
    destruct ls as [|l' ls].
    + simpl in H. discriminate H.
    + change (List.last (String c l :: l' :: ls) EmptyString)
        with (List.last (l :: l' :: ls) EmptyString) in H.
      destruct (IH H) as [-> | [d ->]]; [simpl in Es; inversion Es|].
      exists (String c d). reflexivity.
Qed.

End lines.

(** What [Sort] writes for a text that is not empty: the lines of the text
    without its final newline, sorted and joined, and the final newline
    again iff the text had one. *)
Lemma Sort_data_lines less data :
  data <> EmptyString ->
  (forall d, data = (d +:+ String nl EmptyString)%string ->
     Sort_data less data =
       (Join (SliceStable less (Split d)) +:+ String nl EmptyString)%string) /\
  ((forall d, data <> (d +:+ String nl EmptyString)%string) ->
     Sort_data less data = Join (SliceStable less (Split data))).
Proof.
  intros Hne. split.
  - intros d ->. unfold Sort_data. rewrite Split_snoc_nl.
    rewrite last_last, removelast_last. reflexivity.
  - intros Hno. unfold Sort_data.
    destruct (String.eqb (List.last (Split data) EmptyString) EmptyString) eqn:E.
    + apply String.eqb_eq in E. apply Split_last_empty in E as [-> | [d ->]].
      * congruence.
      * exfalso. apply (Hno d). reflexivity.
    + simpl. generalize (Join (SliceStable less (Split data))).
      intros s. induction s as [|a s IHs]; [reflexivity|].
      change (String a (s +:+ EmptyString) = String a s). f_equal. exact IHs.
Qed.

(** The example of the claim: "b", "a", "c" with a final newline, sorted
    in ascending order. *)
Example Sort_bac :
  Sort (inl (0, 6)) (inl text_bac) String.ltb =
    ([WriteAddr 0 6; WriteData text_abc], None).
Proof. reflexivity. Qed.

(** Without the final newline none is added. *)
Example Sort_ba :
  Sort_data String.ltb ("b" +:+ String nl "a")%string = ("a" +:+ String nl "b")%string.
Proof. reflexivity. Qed.

(** C8, at the input on which the code departs from it: for an empty
    address range the text read is empty, it does not end in a newline,
    and [Sort] still writes a newline. *)
Theorem C8_sort_empty_text_gains_newline (less : string -> string -> bool) (q0 q1 : Z) :
  Split EmptyString = [EmptyString] /\
  Sort_data less EmptyString = String nl EmptyString /\
  Sort (inl (q0, q1)) (inl EmptyString) less =
    ([WriteAddr q0 q1; WriteData (String nl EmptyString)], None).
Proof. repeat split. Qed.

(** ** Err *)

Section err_name.

Lemma LastIndexByte_nonempty s c i : LastIndexByte s c = Some i -> s <> EmptyString.
Proof. destruct s; [discriminate | discriminate]. Qed.

(** The directory that [path.Split] returns is empty or ends in a slash
    after at least one more byte, or is "/": it is never ".". *)
Lemma path_Split_not_dot p : fst (path_Split p) <> "."%string.
Proof.
  unfold path_Split. destruct (LastIndexByte p "/"%char) as [i|] eqn:E; [|discriminate].
  simpl fst. destruct p as [|a p]; [discriminate E|].
  simpl in E. destruct (LastIndexByte p "/"%char) as [j|] eqn:Ej.
  - inversion E; subst i. simpl.
    destruct p as [|b p]; [discriminate Ej|]. simpl. discriminate.
  - destruct (Ascii.eqb a "/"%char) eqn:Ea; [|discriminate E].
    inversion E; subst i. apply Ascii.eqb_eq in Ea. subst a.
    simpl. destruct p; discriminate.
Qed.

(** So the test [prefix == "."] of [Err] never holds, and only the
    directory "/" is replaced by the empty prefix. *)
Lemma Err_name_general src :
  Err_name src =
  ((if String.eqb (fst (path_Split src)) "/" then EmptyString else fst (path_Split src))
   +:+ "+Errors")%string.
Proof.
  unfold Err_name. pose proof (path_Split_not_dot src) as Hd.
  destruct (path_Split src) as [d f]. simpl in *.
  apply String.eqb_neq in Hd. rewrite Hd, orb_false_r. reflexivity.
Qed.

End err_name.

(** The sources for which the claim holds: a file in the root directory and
    a bare name. *)
Example Err_name_root : Err_name "/name" = "+Errors"%string.
Proof. reflexivity. Qed.

Example Err_name_bare : Err_name "name" = "+Errors"%string.
Proof. reflexivity. Qed.

(** C9, at the input on which the code departs from it: for the source
    "./name" the directory is "./", which is neither "/" nor ".", and the
    window is named "./+Errors", not "+Errors". *)
Theorem C9_err_name_current_dir :
  path_Split "./name" = ("./", "name")%string /\
  Err_name "./name" = "./+Errors"%string /\
  Err_name "./name" <> "+Errors"%string.
Proof. repeat split. discriminate. Qed.

(* ================================================================== *)
(** * Further properties of the event codec *)
(* ================================================================== *)

Section codec_invariants.

Lemma getecs_count k : forall s r s', getecs k s = Ok r s' -> length r = k.
Proof.
  induction k as [|k IH]; intros s r s' H; simpl in H.
  - inversion H. reflexivity.
  - unfold bind in H. destruct (getec s) as [c s1| |]; try discriminate.
    destruct (getecs k s1) as [r1 s2| |] eqn:E; try discriminate.
    inversion H; subst. simpl. f_equal. apply (IH _ _ _ E).
Qed.

(** A record that [gete] decodes into [e0] sets the six fields and the
    text, within the bound, and nothing else. *)
Lemma gete_result e0 s e s' :
  gete e0 s = Ok e s' ->
  0 <= Nr e <= eventSize /\ length (Text e) = Z.to_nat (Nr e) /\
  Arg e = Arg e0 /\ Loc e = Loc e0 /\
  OrigQ0 e = OrigQ0 e0 /\ OrigQ1 e = OrigQ1 e0 /\ Nb e = Nb e0.
Proof.
  rewrite gete_getFields.
  destruct (getFields s) as [[[[[[c1 c2] q0] q1] fl] nr] r| |]; try discriminate.
  cbv zeta. destruct (nr >? eventSize) eqn:E1; [discriminate|].
  destruct (nr <? 0) eqn:E2; [discriminate|].
  unfold bind. destruct (getecs (Z.to_nat nr) r) as [t r1| |] eqn:Et; try discriminate.
  destruct (getec r1) as [c r2| |]; try discriminate.
  destruct (c =? 10); [|discriminate].
  intros H. inversion H; subst. simpl.
  apply getecs_count in Et.
  split; [lia|]. split; [exact Et|]. repeat split.
Qed.

End codec_invariants.

(** X1.  Every event that [ReadEvent] returns comes without an error and
    keeps the invariants of [Event]: without the expansion bit the original
    range is the range, without the chorded bit there is no argument and no
    location, and the text has the [Nr] runes announced, at most 256. *)
Theorem ReadEvent_event_invariant
    (fidErr : option string) (s : list rune) (e : Event)
    (err : option string) (s' : list rune) :
  ReadEvent fidErr s = Returned (Some e) err s' ->
  err = None /\
  (Z.land (Flag e) 2 = 0 -> OrigQ0 e = Q0 e /\ OrigQ1 e = Q1 e) /\
  (Z.land (Flag e) 8 = 0 -> Arg e = [] /\ Loc e = []) /\
  0 <= Nr e <= 256 /\ length (Text e) = Z.to_nat (Nr e).
Proof.
  unfold ReadEvent. destruct fidErr; [discriminate|].
  destruct (readEvent s) as [e0 s0| |] eqn:E; try discriminate.
  intros H. inversion H; subst. clear H. split; [reflexivity|].
  unfold readEvent in E. unfold bind at 1 in E.
  destruct (readPrimary s) as [e1 s1| |] eqn:E1; try discriminate.
  unfold bind in E.
  destruct (readExpansion e1 s1) as [e2 s2| |] eqn:E2; try discriminate.
  (* the primary record *)
  unfold readPrimary, bind, ret in E1.
  destruct (gete newEvent s) as [p sp| |] eqn:Ep; try discriminate.
  inversion E1; subst. clear E1.
  destruct (gete_result _ _ _ _ Ep) as (Hnr & Hlen & Ha & Hl & _).
  set (e1 := set_OrigQ1 (Q1 p) (set_OrigQ0 (Q0 p) p)) in *.
  (* the expansion *)
  assert (P2 : (Z.land (Flag e2) 2 = 0 -> OrigQ0 e2 = Q0 e2 /\ OrigQ1 e2 = Q1 e2) /\
               Arg e2 = [] /\ Loc e2 = [] /\
               0 <= Nr e2 <= 256 /\ length (Text e2) = Z.to_nat (Nr e2)).
  { destruct (Z.eq_dec (Z.land (Flag e1) 2) 0) as [H2|H2].
    - unfold readExpansion in E2. rewrite H2 in E2. simpl in E2.
      inversion E2; subst. subst e1. simpl. auto.
    - rewrite readExpansion_set in E2 by exact H2.
      destruct (gete newEvent s1) as [x sx| |] eqn:Ex; try discriminate.
      destruct (gete_result _ _ _ _ Ex) as (Hnr' & Hlen' & Ha' & Hl' & _).
      destruct (Q0 e1 =? Q1 e1); inversion E2; subst.
      + simpl. split; [intros C; subst e1; simpl in H2; contradiction|]. auto.
      + subst e1. simpl. auto. }
  destruct P2 as (Ho & Ha2 & Hl2 & Hnr2 & Hlen2).
  (* the chorded argument *)
  destruct (Z.eq_dec (Z.land (Flag e2) 8) 0) as [H8|H8].
  - rewrite readChorded_clear in E by exact H8. inversion E; subst. auto.
  - rewrite readChorded_set in E by exact H8.
    destruct (gete newEvent s2) as [e3 s3| |]; try discriminate.
    destruct (gete newEvent s3) as [e4 s4| |]; try discriminate.
    inversion E; subst. simpl.
    split; [exact Ho|]. split; [intros C; contradiction|]. auto.
Qed.

Lemma ReadEvent_event_invariant_witness :
  None = (None : option string) /\
  (Z.land (Flag ev_expanded) 2 = 0 ->
     OrigQ0 ev_expanded = Q0 ev_expanded /\ OrigQ1 ev_expanded = Q1 ev_expanded) /\
  (Z.land (Flag ev_expanded) 8 = 0 -> Arg ev_expanded = [] /\ Loc ev_expanded = []) /\
  0 <= Nr ev_expanded <= 256 /\
  length (Text ev_expanded) = Z.to_nat (Nr ev_expanded).
Proof.
  apply (ReadEvent_event_invariant None buf_expansion ev_expanded None []).
  reflexivity.
Defined.

(** X2.  With the chorded bit in the flag of the event as it stands after
    the expansion step, whether or not an expansion took place, the next
    two records are read and the event gets the text of the first as [Arg]
    and the text of the second as [Loc]. *)
Theorem ReadEvent_chorded
    (s s1 s2 s3 s4 : list rune) (e e' e3 e4 : Event) :
  readPrimary s = Ok e s1 ->
  readExpansion e s1 = Ok e' s2 ->
  Z.land (Flag e') 8 <> 0 ->
  gete newEvent s2 = Ok e3 s3 ->
  gete newEvent s3 = Ok e4 s4 ->
  ReadEvent None s =
    Returned (Some (set_Loc (Text e4) (set_Arg (Text e3) e'))) None s4.
Proof.
  intros H1 H2 H8 H3 H4. unfold ReadEvent, readEvent.
  unfold bind at 1. rewrite H1. unfold bind at 1. rewrite H2.
  rewrite readChorded_set, H3, H4 by exact H8. reflexivity.
Qed.

Lemma ReadEvent_chorded_witness :
  exists e', readExpansion (set_OrigQ1 5 (set_OrigQ0 5 (mkEvent 77 120 5 5 0 0 10 0 0 [] [] [])))
               (runes "Mx3 7 0 2 ab" ++ [10] ++
                runes "Mx0 0 0 3 arg" ++ [10] ++ runes "Mx0 0 0 3 loc" ++ [10])
             = Ok e' (runes "Mx0 0 0 3 arg" ++ [10] ++ runes "Mx0 0 0 3 loc" ++ [10]) /\
  ReadEvent None buf_chorded =
    Returned (Some (set_Loc (runes "loc") (set_Arg (runes "arg") e'))) None [].
Proof.
  eexists. split; [reflexivity|].
  apply (ReadEvent_chorded buf_chorded
           (runes "Mx3 7 0 2 ab" ++ [10] ++
            runes "Mx0 0 0 3 arg" ++ [10] ++ runes "Mx0 0 0 3 loc" ++ [10])
           (runes "Mx0 0 0 3 arg" ++ [10] ++ runes "Mx0 0 0 3 loc" ++ [10])
           (runes "Mx0 0 0 3 loc" ++ [10]) []
           (set_OrigQ1 5 (set_OrigQ0 5 (mkEvent 77 120 5 5 0 0 10 0 0 [] [] [])))
           _
           (mkEvent 77 120 0 0 0 0 0 0 3 (runes "arg") [] [])
           (mkEvent 77 120 0 0 0 0 0 0 3 (runes "loc") [] [])).
  - reflexivity.
  - reflexivity.
  - vm_compute. discriminate.
  - reflexivity.
  - reflexivity.
Defined.

(** X3.  When the primary record has the expansion bit but a selection
    that is not empty, the second record is read and dropped: the event
    is the primary one, with its own range as original range. *)
Theorem ReadEvent_expansion_of_selection
    (s s1 s2 : list rune) (e1 e2 : Event) :
  gete newEvent s = Ok e1 s1 ->
  Z.land (Flag e1) 2 <> 0 ->
  Q0 e1 <> Q1 e1 ->
  gete newEvent s1 = Ok e2 s2 ->
  Z.land (Flag e1) 8 = 0 ->
  ReadEvent None s =
    Returned (Some (set_OrigQ1 (Q1 e1) (set_OrigQ0 (Q0 e1) e1))) None s2.
Proof.
  intros H1 H2 Hq H3 H8. unfold ReadEvent, readEvent.
  unfold bind at 1. unfold readPrimary. unfold bind at 1. rewrite H1.
  unfold ret at 1. unfold bind at 1.
  rewrite readExpansion_set by exact H2. cbn [Q0 Q1 Flag set_OrigQ0 set_OrigQ1].
  rewrite H3. destruct (Q0 e1 =? Q1 e1) eqn:E; [lia|].
  rewrite readChorded_clear by exact H8. reflexivity.
Qed.

Lemma ReadEvent_expansion_of_selection_witness :
  ReadEvent None buf_selected =
    Returned (Some (mkEvent 77 120 5 9 5 9 2 0 0 [] [] [])) None [].
Proof.
  apply (ReadEvent_expansion_of_selection buf_selected
           (runes "Mx3 7 0 2 ab" ++ [10]) []
           (mkEvent 77 120 5 9 0 0 2 0 0 [] [] []) ev_second).
  - reflexivity.
  - vm_compute. discriminate.
  - vm_compute. discriminate.
  - reflexivity.
  - reflexivity.
Defined.

Lemma geten_loop_terminator (ds : list rune) (c : rune) (rest : list rune) :
  Forall isDigit ds -> ~ isDigit c ->
  forall a, geten_loop (wrap a) (ds ++ c :: rest) =
            if c =? 32 then Ok (wrap (digitsVal a ds)) rest
            else Panic "event number syntax" rest.
Proof.
  intros Hds Hc. induction ds as [|d ds IH]; intros a.
  - simpl. unfold isDigit in Hc.
    assert (E : (c <? 48) || (c >? 57) = true).
    { destruct (c <? 48) eqn:E1; [reflexivity|]. destruct (c >? 57) eqn:E2; [reflexivity|]. lia. }
    rewrite E. reflexivity.
  - inversion Hds as [|? ? Hd Hds']; subst. unfold isDigit in Hd. simpl.
    destruct (d <? 48) eqn:E1; [lia|]. destruct (d >? 57) eqn:E2; [lia|]. simpl.
    replace (wrap a * 10 + d - 48) with (wrap a * 10 + (d - 48)) by ring.
    rewrite wrap_step.
    replace (a * 10 + (d - 48)) with (a * 10 + d - 48) by ring.
    apply (IH Hds').
Qed.

(** X4.  [geten] reads a run of digits, possibly empty, up to the first
    rune that is not a digit: a blank ends the number, whose value it
    returns (0 for the empty run, wrapped into [int]); any other rune is
    a panic "event number syntax". *)
Theorem geten_terminator (ds : list rune) (c : rune) (rest : list rune) :
  Forall isDigit ds -> ~ isDigit c ->
  geten (ds ++ c :: rest) =
    if c =? 32 then Ok (wrap (digitsVal 0 ds)) rest
    else Panic "event number syntax" rest.
Proof.
  intros Hds Hc. unfold geten.
  exact (geten_loop_terminator ds c rest Hds Hc 0).
Qed.

Lemma geten_terminator_witness :
  geten ([49; 50] ++ 10 :: runes "x") = Panic "event number syntax" (runes "x") /\
  geten ([] ++ 32 :: runes "x") = Ok (wrap (digitsVal 0 [])) (runes "x").
Proof.
  split.
  - apply (geten_terminator [49; 50] 10 (runes "x")).
    + constructor; [unfold isDigit; lia|]. constructor; [unfold isDigit; lia|]. constructor.
    + unfold isDigit. lia.
  - apply (geten_terminator [] 32 (runes "x")).
    + constructor.
    + unfold isDigit. lia.
Defined.

(* ================================================================== *)
(** * Further properties of the registry *)
(* ================================================================== *)

Section registry_more.
Implicit Types (st : State) (w p q : ptr) (l : list ptr).

(** [Open] sets the id of the new window and leaves the id and the name of
    the others. *)
Lemma Open_fields st l i :
  wf st l ->
  forall st', Open None i st = (Some (fresh (dom (heap st))), None, st') ->
  id (deref st' (fresh (dom (heap st)))) = i /\
  (forall q, q <> fresh (dom (heap st)) ->
     id (deref st' q) = id (deref st q) /\ name (deref st' q) = name (deref st q)).
Proof.
  intros Hwf st' HO.
  pose proof (wf_fresh _ _ Hwf) as Hw.
  set (w := fresh (dom (heap st))) in *.
  destruct Hwf as (_ & _ & Hl & _).
  assert (Hlw : forall p, lastOf l = Some p -> p <> w).
  { intros p H ->. apply Hw. apply last_Some_elem_of. assumption. }
  unfold Open in HO. fold w in HO. cbv zeta in HO. cbn [last store alloc] in HO.
  rewrite Hl in HO. inversion HO as [HO']. clear HO HO'.
  destruct (lastOf l) as [p|] eqn:El.
  all: try (pose proof (Hlw p eq_refl) as Hpw).
  all: split; [|intros q Hq; split].
  all: repeat (progress (rewrite ?deref_store, ?deref_set_windows, ?deref_set_last,
                           ?deref_alloc;
                         repeat case_decide; subst; simpl; try congruence)).
Qed.

End registry_more.

(** X5.  [Open] on a registry with the windows [l] allocates a window that
    was not in it, gives it the id asked for and an empty name, appends it
    after the others, and leaves their ids, their names and the auto-exit
    flag alone. *)
Theorem Open_appends (st : State) (l : list ptr) (i : Z) :
  wf st l ->
  exists w st',
    Open None i st = (Some w, None, st') /\
    (w ∉ l) /\ wf st' (l ++ [w]) /\
    id (deref st' w) = i /\ name (deref st' w) = ""%string /\
    autoExit st' = autoExit st /\
    (forall q, q ∈ l -> id (deref st' q) = id (deref st q) /\
                        name (deref st' q) = name (deref st q)).
Proof.
  intros Hwf.
  destruct (Open_state st l i Hwf)
    as (st' & HO & _ & _ & Hae & _ & _ & _ & Hname & _).
  destruct (Open_wf st l i Hwf) as (st1 & HO1 & Hwf1 & _).
  rewrite HO in HO1. inversion HO1; subst st1. clear HO1.
  destruct (Open_fields st l i Hwf st' HO) as [Hid Hothers].
  pose proof (wf_fresh _ _ Hwf) as Hw.
  exists (fresh (dom (heap st))), st'.
  split; [exact HO|]. split; [exact Hw|]. split; [exact Hwf1|].
  split; [exact Hid|]. split; [exact Hname|]. split; [exact Hae|].
  intros q Hq. apply Hothers. intros ->. contradiction.
Qed.

Lemma Open_appends_witness :
  exists w st',
    Open None 14 (snd reg3) = (Some w, None, st') /\
    (w ∉ fst reg3) /\ wf st' (fst reg3 ++ [w]) /\
    id (deref st' w) = 14 /\ name (deref st' w) = ""%string /\
    autoExit st' = autoExit (snd reg3) /\
    (forall q, q ∈ fst reg3 -> id (deref st' q) = id (deref (snd reg3) q) /\
                               name (deref st' q) = name (deref (snd reg3) q)).
Proof.
  apply (Open_appends (snd reg3) (fst reg3) 14).
  apply (Opens_init_wf true [11; 12; 13]).
Defined.

Lemma Show_found
    (ctl : ptr -> string -> option string) (n : string)
    (st : State) (l1 l2 : list ptr) (w : ptr) (fuel : nat) :
  wf st (l1 ++ w :: l2) ->
  (forall p, p ∈ l1 -> name (deref st p) <> n) ->
  name (deref st w) = n ->
  ctl w "show"%string = None ->
  (length (l1 ++ w :: l2) < fuel)%nat ->
  Show fuel ctl n st = Some (ShowReturn (Some w) st).
Proof.
  intros Hwf Hl1 Hw Hctl Hfuel. unfold Show.
  pose proof Hwf as (_ & Hh & _). rewrite Hh.
  rewrite (Show_loop_list ctl n st (l1 ++ w :: l2) [] fuel Hwf Hfuel).
  f_equal. rewrite Show_list_skip by assumption.
  simpl. rewrite bool_decide_eq_true_2 by assumption. rewrite Hctl. reflexivity.
Qed.

Lemma Show_not_found
    (ctl : ptr -> string -> option string) (n : string)
    (st : State) (l : list ptr) (fuel : nat) :
  wf st l ->
  (forall p, p ∈ l -> name (deref st p) <> n) ->
  (length l < fuel)%nat ->
  Show fuel ctl n st = Some (ShowReturn None st).
Proof.
  intros Hwf Hl Hfuel. unfold Show.
  pose proof Hwf as (_ & Hh & _). rewrite Hh.
  rewrite (Show_loop_list ctl n st l [] fuel Hwf Hfuel).
  f_equal. rewrite <- (app_nil_r l). rewrite Show_list_skip by assumption.
  reflexivity.
Qed.

(** X6.  [Show] returns the first registered window with the name, in the
    order of creation, when the "show" command can be written to it, and
    leaves the registry as it is. *)
Theorem Show_first_match
    (ctl : ptr -> string -> option string) (n : string)
    (st : State) (l1 l2 : list ptr) (w : ptr) (fuel : nat) :
  wf st (l1 ++ w :: l2) ->
  (forall p, p ∈ l1 -> name (deref st p) <> n) ->
  name (deref st w) = n ->
  ctl w "show"%string = None ->
  (length (l1 ++ w :: l2) < fuel)%nat ->
  Show fuel ctl n st = Some (ShowReturn (Some w) st).
Proof.
  intros Hwf Hl1 Hw Hctl Hfuel.
  exact (Show_found ctl n st l1 l2 w fuel Hwf Hl1 Hw Hctl Hfuel).
Qed.

Lemma Show_first_match_witness :
  Show 4 ctl_ok "/tmp/+Errors" reg3_named = Some (ShowReturn (Some 2%positive) reg3_named).
Proof.
  apply (Show_first_match ctl_ok "/tmp/+Errors" reg3_named
           [1%positive] [3%positive] 2%positive 4 wf_reg3_named).
  - intros p Hp. apply list_elem_of_singleton in Hp. subst p.
    vm_compute. discriminate.
  - reflexivity.
  - reflexivity.
  - simpl. lia.
Defined.

(** X7.  [Show] of a name that no registered window has returns nil,
    writes to no control file and leaves the registry as it is. *)
Theorem Show_unknown_name
    (ctl : ptr -> string -> option string) (n : string)
    (st : State) (l : list ptr) (fuel : nat) :
  wf st l ->
  (forall p, p ∈ l -> name (deref st p) <> n) ->
  (length l < fuel)%nat ->
  Show fuel ctl n st = Some (ShowReturn None st).
Proof.
  intros Hwf Hl Hfuel.
  exact (Show_not_found ctl n st l fuel Hwf Hl Hfuel).
Qed.

Lemma Show_unknown_name_witness :
  Show 4 ctl_fails "nowhere" reg3_named = Some (ShowReturn None reg3_named).
Proof.
  apply (Show_unknown_name ctl_fails "nowhere" reg3_named [1; 2; 3]%positive 4 wf_reg3_named).
  - intros p Hp.
    repeat (apply elem_of_cons in Hp as [->|Hp]; [vm_compute; discriminate|]).
    inversion Hp.
  - simpl. lia.
Defined.

(** X8.  A window that is opened and then named is the one [Show] finds
    under that name, when no window registered before has the name. *)
Theorem Open_Name_Show
    (ctl : ptr -> string -> option string) (n : string)
    (st : State) (l : list ptr) (i : Z) (fuel : nat) :
  wf st l ->
  (forall p, p ∈ l -> name (deref st p) <> n) ->
  ctl (fresh (dom (heap st))) "show"%string = None ->
  (S (length l) < fuel)%nat ->
  exists st1,
    Open None i st = (Some (fresh (dom (heap st))), None, st1) /\
    Show fuel ctl n (snd (Name None (fresh (dom (heap st))) n st1)) =
      Some (ShowReturn (Some (fresh (dom (heap st))))
                       (snd (Name None (fresh (dom (heap st))) n st1))).
Proof.
  intros Hwf Hl Hctl Hfuel.
  destruct (Open_wf st l i Hwf) as (st1 & HO & Hwf1 & _).
  destruct (Open_fields st l i Hwf st1 HO) as [_ Hothers].
  pose proof (wf_fresh _ _ Hwf) as Hw.
  set (w := fresh (dom (heap st))) in *.
  exists st1. split; [exact HO|].
  apply (Show_found ctl n _ l [] w fuel).
  - apply wf_Name. exact Hwf1.
  - intros p Hp. simpl. rewrite deref_store.
    assert (p <> w) by (intros ->; contradiction).
    rewrite decide_False by assumption.
    destruct (Hothers p) as [_ ->]; [assumption|]. apply Hl. exact Hp.
  - simpl. rewrite deref_store. rewrite decide_True by reflexivity. reflexivity.
  - exact Hctl.
  - rewrite length_app. simpl. lia.
Qed.

Lemma Open_Name_Show_witness :
  exists st1,
    Open None 14 (snd reg3) = (Some (fresh (dom (heap (snd reg3)))), None, st1) /\
    Show 5 ctl_ok "/tmp/+Errors" (snd (Name None (fresh (dom (heap (snd reg3)))) "/tmp/+Errors" st1)) =
      Some (ShowReturn (Some (fresh (dom (heap (snd reg3)))))
                       (snd (Name None (fresh (dom (heap (snd reg3)))) "/tmp/+Errors" st1))).
Proof.
  apply (Open_Name_Show ctl_ok "/tmp/+Errors" (snd reg3) (fst reg3) 14 5).
  - apply (Opens_init_wf true [11; 12; 13]).
  - intros p Hp. change (fst reg3) with [1; 2; 3]%positive in Hp.
    repeat (apply elem_of_cons in Hp as [->|Hp]; [vm_compute; discriminate|]).
    inversion Hp.
  - reflexivity.
  - vm_compute. lia.
Defined.

(** X9.  Removing a registered window keeps the other windows registered,
    in their order, with their ids and names, and keeps the auto-exit
    flag. *)
Theorem dropLocked_keeps_others (st : State) (l1 l2 : list ptr) (w : ptr) :
  wf st (l1 ++ w :: l2) ->
  wf (fst (dropLocked w st)) (l1 ++ l2) /\
  autoExit (fst (dropLocked w st)) = autoExit st /\
  (forall q, name (deref (fst (dropLocked w st)) q) = name (deref st q) /\
             id (deref (fst (dropLocked w st)) q) = id (deref st q)).
Proof.
  intros Hwf. split; [apply dropLocked_member_wf; exact Hwf|].
  destruct (dropLocked_member_state st l1 w l2 Hwf) as (_ & _ & Hae & _ & _ & Hn & _).
  split; [exact Hae | exact Hn].
Qed.

Lemma dropLocked_keeps_others_witness :
  wf (fst (dropLocked 2%positive reg3_named)) ([1%positive] ++ [3%positive]) /\
  autoExit (fst (dropLocked 2%positive reg3_named)) = autoExit reg3_named /\
  (forall q, name (deref (fst (dropLocked 2%positive reg3_named)) q) = name (deref reg3_named q) /\
             id (deref (fst (dropLocked 2%positive reg3_named)) q) = id (deref reg3_named q)).
Proof.
  apply (dropLocked_keeps_others reg3_named [1%positive] [3%positive] 2%positive).
  exact wf_reg3_named.
Defined.

Lemma DeleteAll_loop_list st b : forall a fuel,
  wf st (a ++ b) -> (length b < fuel)%nat ->
  DeleteAll_loop fuel (head b) st = Some (map (fun w => (w, "delete"%string)) b).
Proof.
  induction b as [|x b IH]; intros a fuel Hwf Hfuel.
  - destruct fuel; reflexivity.
  - destruct fuel as [|fuel]; [simpl in Hfuel; lia|].
    simpl. destruct (wf_links _ _ a x b Hwf eq_refl) as [_ Hn]. rewrite Hn.
    rewrite (IH (a ++ [x]) fuel).
    + reflexivity.
    + rewrite <- app_assoc. exact Hwf.
    + simpl in Hfuel. lia.
Qed.

(** X10.  [DeleteAll] writes "delete" to the control file of every
    registered window, once each, in the order of creation. *)
Theorem DeleteAll_every_window (st : State) (l : list ptr) (fuel : nat) :
  wf st l -> (length l < fuel)%nat ->
  DeleteAll fuel st = Some (map (fun w => (w, "delete"%string)) l).
Proof.
  intros Hwf Hfuel. unfold DeleteAll.
  pose proof Hwf as (_ & Hh & _). rewrite Hh.
  apply (DeleteAll_loop_list st l [] fuel Hwf Hfuel).
Qed.

Lemma DeleteAll_every_window_witness :
  DeleteAll 4 (snd reg3) =
    Some (map (fun w => (w, "delete"%string)) (fst reg3)).
Proof.
  apply (DeleteAll_every_window (snd reg3) (fst reg3) 4).
  - apply (Opens_init_wf true [11; 12; 13]).
  - vm_compute. lia.
Defined.

(* ================================================================== *)
(** * Further properties of the dispatcher *)
(* ================================================================== *)

(** What [w.Err] leaves in the trace: the call and, if it wrote, the
    writes into the error window. *)
Lemma Win_Err_trace env w msg st :
  exists rest, traceOf (Win_Err env w msg st) = Errf msg :: rest /\
               Forall (fun x => exists w1 ws, x = ErrWrites w1 ws) rest.
Proof.
  unfold Win_Err.
  destruct (Err _ _ _ _ _ _ st) as [[w1 ws st'|st'|st'|st']|]; simpl;
    eexists; (split; [reflexivity|]); repeat constructor; eauto.
Qed.

Lemma Win_Err_kept env w msg st :
  Forall keptFromHost (traceOf (Win_Err env w msg st)) /\
  Forall noMethodCall (traceOf (Win_Err env w msg st)).
Proof.
  destruct (Win_Err_trace env w msg st) as (rest & -> & Hrest).
  split; (constructor; [exact I|]);
    (eapply Forall_impl; [exact Hrest|]); intros x (w1 & ws & ->); exact I.
Qed.

Lemma traceOf_reported {A} (a : A) tr0 r :
  traceOf (reported a tr0 r) = tr0 ++ traceOf r.
Proof. destruct r; reflexivity. Qed.

(** What [execute] does once the method is found. *)
Lemma execute_found env (h : EventHandler) w (cmd verb arg : list rune) (m : Method) st :
  splitVerb cmd = (verb, arg) ->
  MethodByName h (runes "Exec" ++ verb) = Some m ->
  (acceptable m arg = true ->
   execute env h w cmd st =
     match (if (NumOut m =? 1)%nat
            then Call m (if (0 <? NumIn m)%nat then [arg] else [])
            else None) with
     | None =>
         Returns true
           [CallMethod (runes "Exec" ++ verb) (if (0 <? NumIn m)%nat then [arg] else [])] st
     | Some err =>
         reported true
           [CallMethod (runes "Exec" ++ verb) (if (0 <? NumIn m)%nat then [arg] else [])]
           (Win_Err env w err st)
     end) /\
  (acceptable m arg = false ->
   exists msg, execute env h w cmd st = reported true [] (Win_Err env w msg st)).
Proof.
  intros Hs Hm. unfold execute, acceptable. rewrite Hs, Hm.
  assert (Hrep : forall msg,
            (_ <~ Win_Err env w msg ;; retP true) st =
            reported true [] (Win_Err env w msg st)).
  { intros msg. unfold bindP, retP, reported.
    destruct (Win_Err env w msg st); simpl; rewrite ?app_nil_r; reflexivity. }
  destruct (NumOut m) as [|[|no]]; destruct (NumIn m) as [|[|ni]];
    destruct (isTError (Out0 m)); destruct (isTString (In0 m));
    destruct (bool_decide (arg = [])); simpl;
    split; intros H; try discriminate H;
    try (eexists; apply Hrep);
    try reflexivity;
    match goal with
    | |- context [Call m ?a] =>
        destruct (Call m a); [|reflexivity];
        unfold bindP, emit, retP, reported;
        destruct (Win_Err env w _ st); simpl; rewrite ?app_nil_r; reflexivity
    end.
Qed.

(** X11.  When the handler has a method [Exec<verb>], the signature
    decides.  With an acceptable signature the method is called once, with
    the argument if it takes one, and an error it returns is reported by
    [w.Errf].  With any other signature (too many results or parameters, a
    result that is not an error, a parameter that is not a string, an
    argument for a method that takes none) the method is not called and
    one error is reported by [w.Errf].  Reporting runs [Err], which may end
    the process; [execute] returns only if it does not, and whenever
    [execute] returns, it answers that the command was handled. *)
Theorem execute_signature_decides
    (env : Env) (h : EventHandler) (w : ptr) (cmd verb arg : list rune)
    (m : Method) (st : State) :
  splitVerb cmd = (verb, arg) ->
  MethodByName h (runes "Exec" ++ verb) = Some m ->
  (forall b tr st', execute env h w cmd st = Returns b tr st' -> b = true) /\
  (acceptable m arg = true ->
   execute env h w cmd st =
     match (if (NumOut m =? 1)%nat
            then Call m (if (0 <? NumIn m)%nat then [arg] else [])
            else None) with
     | None =>
         Returns true
           [CallMethod (runes "Exec" ++ verb) (if (0 <? NumIn m)%nat then [arg] else [])] st
     | Some err =>
         reported true
           [CallMethod (runes "Exec" ++ verb) (if (0 <? NumIn m)%nat then [arg] else [])]
           (Win_Err env w err st)
     end) /\
  (acceptable m arg = false ->
   Forall noMethodCall (traceOf (execute env h w cmd st)) /\
   exists msg, execute env h w cmd st = reported true [] (Win_Err env w msg st)) /\
  (forall l, wf st l -> (length l < e_fuel env)%nat ->
             forall tr, execute env h w cmd st <> NoFuel tr).
Proof.
  intros Hs Hm.
  cut ((forall b tr st', execute env h w cmd st = Returns b tr st' -> b = true) /\
       (acceptable m arg = true ->
        execute env h w cmd st =
          match (if (NumOut m =? 1)%nat
                 then Call m (if (0 <? NumIn m)%nat then [arg] else [])
                 else None) with
          | None =>
              Returns true
                [CallMethod (runes "Exec" ++ verb) (if (0 <? NumIn m)%nat then [arg] else [])] st
          | Some err =>
              reported true
                [CallMethod (runes "Exec" ++ verb) (if (0 <? NumIn m)%nat then [arg] else [])]
                (Win_Err env w err st)
          end) /\
       (acceptable m arg = false ->
        Forall noMethodCall (traceOf (execute env h w cmd st)) /\
        exists msg, execute env h w cmd st = reported true [] (Win_Err env w msg st))).
  { intros (H1 & H2 & H3). split; [exact H1|]. split; [exact H2|]. split; [exact H3|].
    intros l. apply execute_fuel. }
  destruct (execute_found env h w cmd verb arg m st Hs Hm) as [Hy Hn].
  assert (Hrep : forall tr0 r b tr st',
            reported true tr0 r = Returns b tr st' -> b = true).
  { intros tr0 r b tr st'. destruct r; simpl; intros H; inversion H; reflexivity. }
  destruct (acceptable m arg) eqn:Ea.
  - split; [|split; [intros _; exact (Hy eq_refl) | intros H; discriminate H]].
    intros b tr st'. rewrite (Hy eq_refl).
    destruct (if (NumOut m =? 1)%nat then _ else _).
    + apply Hrep.
    + intros H. inversion H. reflexivity.
  - destruct (Hn eq_refl) as [msg Hmsg].
    split; [|split; [intros H; discriminate H|]].
    + intros b tr st'. rewrite Hmsg. apply Hrep.
    + intros _. split; [|exists msg; exact Hmsg].
      rewrite Hmsg, traceOf_reported. simpl. apply Win_Err_kept.
Qed.

Lemma execute_signature_decides_witness :
  (forall b tr st',
     execute env_gone h_foo0 1%positive (runes "Foo bar") (snd reg3) = Returns b tr st' ->
     b = true) /\
  (acceptable (mkMethod 0 TString 0 TError (fun _ => None)) (runes "bar") = true ->
   execute env_gone h_foo0 1%positive (runes "Foo bar") (snd reg3) =
     Returns true [CallMethod (runes "Exec" ++ runes "Foo") []] (snd reg3)) /\
  (acceptable (mkMethod 0 TString 0 TError (fun _ => None)) (runes "bar") = false ->
   Forall noMethodCall
     (traceOf (execute env_gone h_foo0 1%positive (runes "Foo bar") (snd reg3))) /\
   exists msg,
     execute env_gone h_foo0 1%positive (runes "Foo bar") (snd reg3) =
       reported true [] (Win_Err env_gone 1%positive msg (snd reg3))) /\
  (forall l, wf (snd reg3) l -> (length l < e_fuel env_gone)%nat ->
             forall tr, execute env_gone h_foo0 1%positive (runes "Foo bar") (snd reg3) <> NoFuel tr).
Proof.
  apply (execute_signature_decides env_gone h_foo0 1%positive (runes "Foo bar")
           (runes "Foo") (runes "bar")
           (mkMethod 0 TString 0 TError (fun _ => None)) (snd reg3)).
  - reflexivity.
  - reflexivity.
Defined.

(** An argument for a method that takes none, with the window service
    gone: the error cannot be shown, the process ends, and [execute] does
    not return.  With the service there, the error goes into a new window
    and [execute] returns true. *)
Example execute_ends_process :
  execute env_gone h_foo0 1%positive (runes "Foo bar") (snd reg3) =
    Ends Fatal [Errf (runes "Foo bar takes no arguments")] (snd reg3).
Proof. vm_compute. reflexivity. Qed.

Example execute_reports_and_returns :
  exists st',
    execute env_ok h_foo0 1%positive (runes "Foo bar") (snd reg3) =
      Returns true
        [Errf (runes "Foo bar takes no arguments");
         ErrWrites 4%positive (errWrites (Err_msg "Foo bar takes no arguments"))] st' /\
    name (deref st' 4%positive) = "+Errors"%string.
Proof. eexists. split; vm_compute; reflexivity. Qed.

(** X12.  An execute event whose verb has a method [Exec<verb>] is never
    handed to [Execute] and never written back to the host, whatever the
    signature of the method and however the call ends. *)
Theorem execute_event_kept_from_host
    (env : Env) (h : EventHandler)
    (readSel : Z -> Z -> list rune * option (list rune))
    (w : ptr) (e : Event) (verb arg : list rune) (m : Method) (st : State) :
  C2 e = 120 \/ C2 e = 88 ->
  splitVerb (TrimSpace (Text e)) = (verb, arg) ->
  MethodByName h (runes "Exec" ++ verb) = Some m ->
  Forall keptFromHost (traceOf (handleEvent env h readSel w e st)).
Proof.
  intros Hc Hs Hm.
  assert (Hx : (C2 e =? 120) || (C2 e =? 88) = true).
  { destruct Hc as [-> | ->]; reflexivity. }
  unfold handleEvent. rewrite Hx. unfold bindP at 1.
  destruct (execute_found env h w _ verb arg m st Hs Hm) as [Hy Hn].
  assert (Hrep : forall tr0 r,
            Forall keptFromHost tr0 -> Forall keptFromHost (traceOf r) ->
            Forall keptFromHost
              (traceOf match reported true tr0 r with
                       | Returns a tr st' =>
                           match (if a then retP tt else emit (WriteBack e)) st' with
                           | Returns b tr' st'' => Returns b (tr ++ tr') st''
                           | Ends how tr' st'' => Ends how (tr ++ tr') st''
                           | NoFuel tr' => NoFuel (tr ++ tr')
                           end
                       | Ends how tr st' => Ends how tr st'
                       | NoFuel tr => NoFuel tr
                       end)).
  { intros tr0 r H0 Hr. destruct r; simpl in *; rewrite ?app_nil_r;
      apply Forall_app; split; assumption. }
  destruct (acceptable m arg).
  - rewrite (Hy eq_refl).
    destruct (if (NumOut m =? 1)%nat then _ else _).
    + apply Hrep; [repeat constructor | apply Win_Err_kept].
    + simpl. repeat constructor.
  - destruct (Hn eq_refl) as [msg ->].
    apply Hrep; [constructor | apply Win_Err_kept].
Qed.

Lemma execute_event_kept_from_host_witness :
  Forall keptFromHost (traceOf (handleEvent env_ok h_foo_err noSel 1%positive ev_foo (snd reg3))).
Proof.
  apply (execute_event_kept_from_host env_ok h_foo_err noSel 1%positive ev_foo
           (runes "Foo") (runes "bar baz")
           (mkMethod 1 TString 1 TError (fun _ => Some (runes "nope"))) (snd reg3)).
  - left. reflexivity.
  - reflexivity.
  - reflexivity.
Defined.

(** X13.  For a look event the selection is read only when the event has no
    text and its range is not empty.  [Look] gets the text of the event,
    or what was read, and the event is written back when [Look] declines.
    A failure of the read is reported by [w.Err] first, which runs [Err]
    and may end the process: then [Look] is not called and nothing is
    written back. *)
Theorem look_event_dispatch
    (env : Env) (h : EventHandler)
    (readSel : Z -> Z -> list rune * option (list rune))
    (w : ptr) (e : Event) (st : State) :
  C2 e = 108 \/ C2 e = 76 ->
  (Text e <> [] \/ Q1 e <= Q0 e ->
   handleEvent env h readSel w e st =
     Returns tt (CallLook (Text e) :: (if Look h (Text e) then [] else [WriteBack e])) st) /\
  (Text e = [] -> Q0 e < Q1 e ->
   handleEvent env h readSel w e st =
     match snd (readSel (Q0 e) (Q1 e)) with
     | None =>
         Returns tt
           (CallLook (fst (readSel (Q0 e) (Q1 e))) ::
            (if Look h (fst (readSel (Q0 e) (Q1 e))) then []
             else [WriteBack (set_Text (fst (readSel (Q0 e) (Q1 e))) e)])) st
     | Some msg =>
         match Win_Err env w msg st with
         | Returns _ tr st' =>
             Returns tt
               (tr ++ CallLook (fst (readSel (Q0 e) (Q1 e))) ::
                (if Look h (fst (readSel (Q0 e) (Q1 e))) then []
                 else [WriteBack (set_Text (fst (readSel (Q0 e) (Q1 e))) e)])) st'
         | Ends how tr st' => Ends how tr st'
         | NoFuel tr => NoFuel tr
         end
     end) /\
  (forall l, wf st l -> (length l < e_fuel env)%nat ->
             forall tr, handleEvent env h readSel w e st <> NoFuel tr).
Proof.
  intros Hc.
  assert (Hx : (C2 e =? 120) || (C2 e =? 88) = false).
  { destruct Hc as [-> | ->]; reflexivity. }
  assert (Hl : (C2 e =? 108) || (C2 e =? 76) = true).
  { destruct Hc as [-> | ->]; reflexivity. }
  split; [|split; [|intros l; apply handleEvent_fuel]];
    unfold handleEvent; rewrite Hx, Hl; unfold loadText.
  - intros H.
    assert (E : bool_decide (Text e = []) && (Q0 e <? Q1 e) = false).
    { destruct H as [H|H].
      - rewrite bool_decide_eq_false_2 by exact H. reflexivity.
      - destruct (Q0 e <? Q1 e) eqn:E; [lia|]. apply andb_false_r. }
    rewrite E. unfold bindP, retP, emit. simpl.
    destruct (Look h (Text e)); reflexivity.
  - intros Ht Hq.
    rewrite bool_decide_eq_true_2 by exact Ht.
    destruct (Q0 e <? Q1 e) eqn:E; [|lia]. simpl.
    destruct (readSel (Q0 e) (Q1 e)) as [data [msg|]]; simpl.
    + unfold bindP, retP, emit.
      destruct (Win_Err env w msg st) as [[] tr st'|how tr st'|tr]; simpl;
        [|reflexivity|reflexivity].
      rewrite app_nil_r. destruct (Look h data); reflexivity.
    + unfold bindP, retP, emit. simpl. destruct (Look h data); reflexivity.
Qed.

Lemma look_event_dispatch_witness :
  (Text ev_look <> [] \/ Q1 ev_look <= Q0 ev_look ->
   handleEvent env_gone h_foo sel_fails 1%positive ev_look (snd reg3) =
     Returns tt (CallLook (Text ev_look) ::
                 (if Look h_foo (Text ev_look) then [] else [WriteBack ev_look])) (snd reg3)) /\
  (Text ev_look = [] -> Q0 ev_look < Q1 ev_look ->
   handleEvent env_gone h_foo sel_fails 1%positive ev_look (snd reg3) =
     match snd (sel_fails (Q0 ev_look) (Q1 ev_look)) with
     | None =>
         Returns tt
           (CallLook (fst (sel_fails (Q0 ev_look) (Q1 ev_look))) ::
            (if Look h_foo (fst (sel_fails (Q0 ev_look) (Q1 ev_look))) then []
             else [WriteBack (set_Text (fst (sel_fails (Q0 ev_look) (Q1 ev_look))) ev_look)]))
           (snd reg3)
     | Some msg =>
         match Win_Err env_gone 1%positive msg (snd reg3) with
         | Returns _ tr st' =>
             Returns tt
               (tr ++ CallLook (fst (sel_fails (Q0 ev_look) (Q1 ev_look))) ::
                (if Look h_foo (fst (sel_fails (Q0 ev_look) (Q1 ev_look))) then []
                 else [WriteBack (set_Text (fst (sel_fails (Q0 ev_look) (Q1 ev_look))) ev_look)]))
               st'
         | Ends how tr st' => Ends how tr st'
         | NoFuel tr => NoFuel tr
         end
     end) /\
  (forall l, wf (snd reg3) l -> (length l < e_fuel env_gone)%nat ->
             forall tr,
               handleEvent env_gone h_foo sel_fails 1%positive ev_look (snd reg3) <> NoFuel tr).
Proof.
  apply (look_event_dispatch env_gone h_foo sel_fails 1%positive ev_look (snd reg3)).
  left. reflexivity.
Defined.

(** The selection cannot be read and the window service is gone: the
    process ends in [w.Err], before [Look].  With the selection read,
    [Look] gets it. *)
Example look_ends_process :
  handleEvent env_gone h_foo sel_fails 1%positive ev_look (snd reg3) =
    Ends Fatal [Errf (runes "read failed")] (snd reg3).
Proof. vm_compute. reflexivity. Qed.

Example look_reads_selection env w st :
  handleEvent env h_foo sel_hello w ev_look st =
    Returns tt [CallLook (runes "hello"); WriteBack (set_Text (runes "hello") ev_look)] st.
Proof. reflexivity. Qed.

(** X14.  The verb and the argument cut from a trimmed command: the verb
    is empty only for an empty command, and the argument neither starts
    nor ends with white space. *)
Theorem splitVerb_of_trimmed (t verb arg : list rune) :
  splitVerb (TrimSpace t) = (verb, arg) ->
  (TrimSpace t <> [] -> verb <> []) /\
  (forall c, head arg = Some c -> isSpace c = false) /\
  (forall c, head (rev arg) = Some c -> isSpace c = false).
Proof.
  intros Hs.
  destruct (TrimSpace_spec t) as (pre & post & _ & _ & _ & Hhd & _).
  unfold splitVerb in Hs.
  destruct (IndexAny (TrimSpace t) [32; 9]) as [i|] eqn:E.
  - inversion Hs; subst. clear Hs. split; [|split].
    + intros Hne Hnil.
      destruct (TrimSpace t) as [|c u] eqn:Eu; [congruence|].
      destruct i as [|i]; [|discriminate Hnil].
      cbn [IndexAny] in E. destruct (existsb (Z.eqb c) [32; 9]) eqn:Ec.
      * apply is_delim in Ec. specialize (Hhd c eq_refl).
        destruct Ec as [-> | ->]; discriminate Hhd.
      * destruct (IndexAny u [32; 9]); discriminate E.
    + intros c Hc.
      destruct (TrimSpace_spec (skipn (S i) (TrimSpace t))) as (a & b & _ & _ & _ & H1 & _).
      apply H1. exact Hc.
    + intros c Hc.
      destruct (TrimSpace_spec (skipn (S i) (TrimSpace t))) as (a & b & _ & _ & _ & _ & H2).
      apply H2. exact Hc.
  - inversion Hs; subst. split; [auto|]. split; intros c Hc; discriminate Hc.
Qed.

Lemma splitVerb_of_trimmed_witness :
  (TrimSpace (runes "  Foo   bar baz  ") <> [] -> runes "Foo" <> []) /\
  (forall c, head (runes "bar baz") = Some c -> isSpace c = false) /\
  (forall c, head (rev (runes "bar baz")) = Some c -> isSpace c = false).
Proof.
  apply (splitVerb_of_trimmed (runes "  Foo   bar baz  ") (runes "Foo") (runes "bar baz")).
  reflexivity.
Defined.

(* ================================================================== *)
(** * Further properties of Sort and Err *)
(* ================================================================== *)

Section lines_more.

Lemma Join_cons_String c l ls : Join (String c l :: ls) = String c (Join (l :: ls)).
Proof. destruct ls; reflexivity. Qed.

(** Splitting a text into lines and joining them gives the text back. *)
Lemma Join_Split s : Join (Split s) = s.
Proof.
  induction s as [|c s IH]; [reflexivity|].
  simpl Split. pose proof (Split_not_nil s) as Hn.
  destruct (Ascii.eqb c nl) eqn:Ec.
  - apply Ascii.eqb_eq in Ec. subst c.
    destruct (Split s) as [|l ls] eqn:Es; [congruence|].
    change (Join (EmptyString :: l :: ls)) with (String nl (Join (l :: ls))).
    rewrite IH. reflexivity.
  - destruct (Split s) as [|l ls] eqn:Es; [congruence|].
    rewrite Join_cons_String, IH. reflexivity.
Qed.

Lemma Split_noNl s : Forall (fun l => noNl l = true) (Split s).
Proof.
  induction s as [|c s IH]; simpl.
  - constructor; [reflexivity | constructor].
  - destruct (Ascii.eqb c nl) eqn:Ec.
    + constructor; [reflexivity | exact IH].
    + destruct (Split s) as [|l ls]; [repeat constructor; simpl; rewrite Ec; reflexivity|].
      inversion IH; subst. constructor; [|assumption].
      simpl. rewrite Ec. assumption.
Qed.

Lemma Split_line_nl l r :
  noNl l = true -> Split (l +:+ String nl r) = l :: Split r.
Proof.
  induction l as [|c l IH]; intros H.
  - reflexivity.
  - simpl in H. apply andb_true_iff in H as [Hc Hl]. apply negb_true_iff in Hc.
    change (Split (String c (l +:+ String nl r)) = String c l :: Split r).
    simpl Split. rewrite Hc. rewrite (IH Hl). reflexivity.
Qed.

Lemma Split_line l : noNl l = true -> Split l = [l].
Proof.
  induction l as [|c l IH]; intros H; [reflexivity|].
  simpl in H. apply andb_true_iff in H as [Hc Hl]. apply negb_true_iff in Hc.
  simpl. rewrite Hc, (IH Hl). reflexivity.
Qed.

(** Joining lines and splitting the text gives the lines back. *)
Lemma Split_Join ls :
  ls <> [] -> Forall (fun l => noNl l = true) ls -> Split (Join ls) = ls.
Proof.
  induction ls as [|l ls IH]; intros Hne Hall; [congruence|].
  inversion Hall as [|? ? Hl Hls]; subst.
  destruct ls as [|y ls].
  - simpl. apply Split_line. assumption.
  - change (Join (l :: y :: ls)) with (l +:+ String nl (Join (y :: ls)))%string.
    rewrite Split_line_nl by assumption. rewrite IH; [reflexivity | discriminate | assumption].
Qed.

Lemma ends_nl_dec s :
  (exists d, s = (d +:+ String nl EmptyString)%string) \/
  (forall d, s <> (d +:+ String nl EmptyString)%string).
Proof.
  destruct (String.eqb (List.last (Split s) EmptyString) EmptyString) eqn:E.
  - apply String.eqb_eq in E. apply Split_last_empty in E as [-> | H]; [|left; exact H].
    right. intros d H. destruct d; discriminate H.
  - right. intros d ->. rewrite Split_snoc_nl, last_last in E. discriminate E.
Qed.

Lemma append_empty_r s : (s +:+ EmptyString)%string = s.
Proof.
  induction s as [|a s IHs]; [reflexivity|].
  change (String a (s +:+ EmptyString) = String a s). f_equal. exact IHs.
Qed.

End lines_more.

Section sorting_more.
Variable less : string -> string -> bool.

Lemma StronglySorted_prefix (R : string -> string -> Prop) l k :
  StronglySorted R (l ++ k) -> StronglySorted R l.
Proof.
  induction l as [|x l IH]; intros H; [constructor|].
  simpl in H. inversion H as [|? ? Hs Hall]; subst.
  constructor; [apply IH; assumption|].
  apply Forall_app in Hall as [Hl _]. exact Hl.
Qed.

(** Lines that are in order stay as they are. *)
Lemma SliceStable_sorted_id l :
  StronglySorted (notAfter less) l -> SliceStable less l = l.
Proof.
  induction l as [|x l IH]; intros H; [reflexivity|].
  inversion H as [|? ? Hs Hall]; subst.
  simpl. rewrite (IH Hs).
  destruct l as [|y l]; [reflexivity|].
  inversion Hall as [|? ? Hy _]; subst. unfold notAfter in Hy.
  simpl. rewrite Hy. reflexivity.
Qed.

End sorting_more.

(** X15.  For a strict weak order, [Sort] writes the lines of the text in
    an order in which no line is less than one before it, tied lines in
    the order they had, joined by newlines; the text keeps its final
    newline if it had one and gets none otherwise (for a text that is not
    empty). *)
Theorem Sort_sorts_lines (less : string -> string -> bool) (d : string) :
  (forall x y, less x y = true -> less y x = false) ->
  (forall x y z, notAfter less x y -> notAfter less y z -> notAfter less x z) ->
  Sort_data less (d +:+ String nl EmptyString) =
    (Join (SliceStable less (Split d)) +:+ String nl EmptyString)%string /\
  (d <> EmptyString -> (forall d', d <> (d' +:+ String nl EmptyString)%string) ->
   Sort_data less d = Join (SliceStable less (Split d))) /\
  Join (Split d) = d /\
  SliceStable less (Split d) ≡ₚ Split d /\
  StronglySorted (notAfter less) (SliceStable less (Split d)) /\
  (forall z, filter (fun y => tied less z y = true) (SliceStable less (Split d)) =
             filter (fun y => tied less z y = true) (Split d)).
Proof.
  intros Hasym Htrans.
  split.
  { apply (proj1 (Sort_data_lines less (d +:+ String nl EmptyString)
                    ltac:(destruct d; discriminate))). reflexivity. }
  split.
  { intros Hne Hno. apply (proj2 (Sort_data_lines less d Hne)). exact Hno. }
  split; [apply Join_Split|].
  split; [apply SliceStable_perm|].
  split; [apply SliceStable_sorted; assumption|].
  intros z. apply SliceStable_stable; assumption.
Qed.

Lemma shorter_asym x y : shorter x y = true -> shorter y x = false.
Proof.
  unfold shorter. intros H. apply Nat.ltb_lt in H. apply Nat.ltb_ge. lia.
Qed.

Lemma shorter_notAfter_trans x y z :
  notAfter shorter x y -> notAfter shorter y z -> notAfter shorter x z.
Proof.
  unfold notAfter, shorter. intros H1 H2.
  apply Nat.ltb_ge in H1, H2. apply Nat.ltb_ge. lia.
Qed.

Lemma Sort_sorts_lines_witness :
  Sort_data shorter (text_bb_a +:+ String nl EmptyString) =
    (Join (SliceStable shorter (Split text_bb_a)) +:+ String nl EmptyString)%string /\
  (text_bb_a <> EmptyString ->
   (forall d', text_bb_a <> (d' +:+ String nl EmptyString)%string) ->
   Sort_data shorter text_bb_a = Join (SliceStable shorter (Split text_bb_a))) /\
  Join (Split text_bb_a) = text_bb_a /\
  SliceStable shorter (Split text_bb_a) ≡ₚ Split text_bb_a /\
  StronglySorted (notAfter shorter) (SliceStable shorter (Split text_bb_a)) /\
  (forall z, filter (fun y => tied shorter z y = true)
               (SliceStable shorter (Split text_bb_a)) =
             filter (fun y => tied shorter z y = true) (Split text_bb_a)).
Proof.
  apply (Sort_sorts_lines shorter text_bb_a).
  - exact shorter_asym.
  - exact shorter_notAfter_trans.
Defined.

Lemma SliceStable_allTied l : SliceStable allTied l = l.
Proof.
  induction l as [|x l IH]; [reflexivity|].
  simpl. rewrite IH. destruct l; reflexivity.
Qed.

(** X16.  With a comparison under which no line is less than another,
    [Sort] writes back the text it read (for a text that is not empty). *)
Theorem Sort_all_tied_unchanged (data : string) :
  data <> EmptyString -> Sort_data allTied data = data.
Proof.
  intros Hne. destruct (ends_nl_dec data) as [[d ->] | Hno].
  - rewrite (proj1 (Sort_data_lines allTied _ Hne) d eq_refl).
    rewrite SliceStable_allTied, Join_Split. reflexivity.
  - rewrite (proj2 (Sort_data_lines allTied _ Hne) Hno).
    rewrite SliceStable_allTied, Join_Split. reflexivity.
Qed.

Lemma Sort_all_tied_unchanged_witness : Sort_data allTied text_bac = text_bac.
Proof.
  apply (Sort_all_tied_unchanged text_bac). discriminate.
Defined.

Section sort_twice.
Variable less : string -> string -> bool.
Hypothesis less_asym : forall x y, less x y = true -> less y x = false.
Hypothesis notAfter_trans :
  forall x y z, notAfter less x y -> notAfter less y z -> notAfter less x z.

Lemma append_nl_not_empty d : (d +:+ String nl EmptyString)%string <> EmptyString.
Proof. destruct d; discriminate. Qed.

Lemma sorted_lines_noNl d :
  Forall (fun l => noNl l = true) (SliceStable less (Split d)) /\
  SliceStable less (Split d) <> [].
Proof.
  split.
  - apply Forall_forall. intros x Hx. rewrite SliceStable_perm in Hx.
    pose proof (Split_noNl d) as H. rewrite Forall_forall in H. apply H. exact Hx.
  - intros E. pose proof (SliceStable_perm less (Split d)) as Hp.
    rewrite E in Hp. apply Permutation_nil in Hp. apply (Split_not_nil d Hp).
Qed.

Lemma Split_sorted_lines d :
  Split (Join (SliceStable less (Split d))) = SliceStable less (Split d).
Proof.
  destruct (sorted_lines_noNl d) as [Hall Hne]. apply Split_Join; assumption.
Qed.

Lemma Sort_data_twice data :
  data <> EmptyString ->
  Sort_data less (Sort_data less data) = Sort_data less data.
Proof.
  intros Hne.
  pose proof (fun d => SliceStable_sorted less less_asym notAfter_trans (Split d)) as Hsorted.
  destruct (ends_nl_dec data) as [[d ->] | Hno].
  - rewrite (proj1 (Sort_data_lines less _ Hne) d eq_refl).
    rewrite (proj1 (Sort_data_lines less (Join (SliceStable less (Split d)) +:+ String nl EmptyString)
                      (append_nl_not_empty _)) _ eq_refl).
    rewrite Split_sorted_lines.
    rewrite (SliceStable_sorted_id less _ (Hsorted d)). reflexivity.
  - rewrite (proj2 (Sort_data_lines less _ Hne) Hno).
    set (S := SliceStable less (Split data)).
    assert (HS : Split (Join S) = S) by apply Split_sorted_lines.
    assert (Hout : Join S <> EmptyString).
    { intros E. rewrite E in HS. simpl in HS.
      pose proof (SliceStable_perm less (Split data)) as Hp. fold S in Hp.
      rewrite <- HS in Hp. symmetry in Hp. apply Permutation_singleton_r in Hp.
      apply Hne. rewrite <- (Join_Split data), Hp. reflexivity. }
    destruct (ends_nl_dec (Join S)) as [[d' Ed] | Hno'].
    + rewrite Ed.
      rewrite (proj1 (Sort_data_lines less (d' +:+ String nl EmptyString)
                        (append_nl_not_empty d')) d' eq_refl).
      assert (Hd : S = Split d' ++ [EmptyString]).
      { rewrite <- HS, Ed. apply Split_snoc_nl. }
      assert (Hsd : StronglySorted (notAfter less) (Split d')).
      { apply (StronglySorted_prefix _ _ [EmptyString]). rewrite <- Hd. apply Hsorted. }
      rewrite (SliceStable_sorted_id less _ Hsd), Join_Split. reflexivity.
    + rewrite (proj2 (Sort_data_lines less _ Hout) Hno').
      rewrite HS. unfold S. rewrite (SliceStable_sorted_id less _ (Hsorted data)). reflexivity.
Qed.

End sort_twice.

(** X17.  Sorting twice is sorting once: for a strict weak order, what
    [Sort] writes for the text it wrote is that text (for a text that is
    not empty). *)
Theorem Sort_idempotent (less : string -> string -> bool) (data : string) :
  (forall x y, less x y = true -> less y x = false) ->
  (forall x y z, notAfter less x y -> notAfter less y z -> notAfter less x z) ->
  data <> EmptyString ->
  Sort_data less (Sort_data less data) = Sort_data less data.
Proof.
  intros Ha Ht Hne. apply Sort_data_twice; assumption.
Qed.

Lemma Sort_idempotent_witness :
  Sort_data shorter (Sort_data shorter text_bb_a) = Sort_data shorter text_bb_a.
Proof.
  apply (Sort_idempotent shorter text_bb_a).
  - exact shorter_asym.
  - exact shorter_notAfter_trans.
  - discriminate.
Defined.

Section err_msg.

Lemma length_append_nl d :
  String.length (d +:+ String nl EmptyString) = S (String.length d).
Proof. induction d as [|a d IH]; simpl; [reflexivity | rewrite IH; reflexivity]. Qed.

Lemma LastIndexByte_snoc d c :
  LastIndexByte (d +:+ String c EmptyString) c = Some (String.length d).
Proof.
  induction d as [|a d IH].
  - simpl. rewrite Ascii.eqb_refl. reflexivity.
  - change (LastIndexByte (String a (d +:+ String c EmptyString)) c = Some (S (String.length d))).
    simpl. rewrite IH. reflexivity.
Qed.

Lemma Err_msg_ends_nl d :
  Err_msg (d +:+ String nl EmptyString) = (d +:+ String nl EmptyString)%string.
Proof.
  unfold Err_msg. rewrite LastIndexByte_snoc, length_append_nl, Nat.eqb_refl. reflexivity.
Qed.

Lemma Err_msg_cases m :
  Err_msg m = m \/ Err_msg m = (m +:+ String nl EmptyString)%string.
Proof.
  unfold Err_msg. destruct (LastIndexByte m nl) as [i|]; [|right; reflexivity].
  destruct (Nat.eqb (S i) (String.length m)); [left | right]; reflexivity.
Qed.

End err_msg.

(** X18.  The message that [Err] prints ends in a newline; it is the
    message given if that ends in a newline, and the message with one
    newline added otherwise; so a message is never given a second
    newline. *)
Theorem Err_msg_final_newline (m d : string) :
  (Err_msg m = m \/ Err_msg m = (m +:+ String nl EmptyString)%string) /\
  (exists b, Err_msg m = (b +:+ String nl EmptyString)%string) /\
  Err_msg (d +:+ String nl EmptyString) = (d +:+ String nl EmptyString)%string /\
  Err_msg (Err_msg m) = Err_msg m.
Proof.
  assert (Hex : exists b, Err_msg m = (b +:+ String nl EmptyString)%string).
  { unfold Err_msg. destruct (LastIndexByte m nl) as [i|] eqn:E; [|eauto].
    destruct (Nat.eqb (S i) (String.length m)) eqn:El; [|eauto].
    apply Nat.eqb_eq in El. clear -E El. revert i E El.
    induction m as [|a m IH]; intros i E El; [discriminate E|].
    simpl in E. destruct (LastIndexByte m nl) as [j|] eqn:Ej.
    - inversion E; subst i. simpl in El.
      destruct (IH j eq_refl ltac:(lia)) as [b Hb].
      exists (String a b). rewrite Hb at 1. reflexivity.
    - destruct (Ascii.eqb a nl) eqn:Ea; [|discriminate E].
      inversion E; subst i. apply Ascii.eqb_eq in Ea. subst a.
      simpl in El. destruct m; [|discriminate El].
      exists EmptyString. reflexivity. }
  split; [apply Err_msg_cases|]. split; [exact Hex|].
  split; [apply Err_msg_ends_nl|].
  destruct Hex as [b ->]. apply Err_msg_ends_nl.
Qed.

(* ================================================================== *)
(** * Numbers, fields and files *)
(* ================================================================== *)

Section fields.

Lemma Fields_aux_pad pad s :
  Forall (fun c => isSpace c = true) pad -> Fields_aux (pad ++ s) [] = Fields_aux s [].
Proof.
  induction pad as [|c pad IH]; intros H; [reflexivity|].
  inversion H as [|? ? Hc Hp]; subst. simpl. rewrite Hc. apply IH. exact Hp.
Qed.

Lemma Fields_aux_word w : forall s cur,
  Forall (fun c => isSpace c = false) w ->
  Fields_aux (w ++ s) cur = Fields_aux s (rev w ++ cur).
Proof.
  induction w as [|c w IH]; intros s cur H; [reflexivity|].
  inversion H as [|? ? Hc Hw]; subst. simpl. rewrite Hc.
  rewrite (IH s (c :: cur) Hw). rewrite <- app_assoc. reflexivity.
Qed.

(** Blanks, a word and a blank: the word is the first field. *)
Lemma Fields_pad_word pad w c s :
  Forall (fun c => isSpace c = true) pad ->
  Forall (fun c => isSpace c = false) w -> w <> [] -> isSpace c = true ->
  Fields (pad ++ w ++ c :: s) = w :: Fields s.
Proof.
  intros Hpad Hw Hne Hc. unfold Fields.
  rewrite Fields_aux_pad by exact Hpad.
  rewrite Fields_aux_word by exact Hw. rewrite app_nil_r.
  simpl. rewrite Hc.
  destruct (rev w) as [|x r] eqn:E.
  - exfalso. apply Hne. rewrite <- (rev_involutive w), E. reflexivity.
  - rewrite <- E, rev_involutive. reflexivity.
Qed.

End fields.

Section atoi.

Lemma digitsVal_ge ds : forall a, Forall isDigit ds -> 0 <= a -> a <= digitsVal a ds.
Proof.
  induction ds as [|d ds IH]; intros a H Ha; [unfold digitsVal; simpl; lia|].
  inversion H as [|? ? Hd Hds]; subst. unfold isDigit in Hd.
  change (digitsVal a (d :: ds)) with (digitsVal (a * 10 + d - 48) ds).
  specialize (IH (a * 10 + d - 48) Hds). lia.
Qed.

Lemma ParseUint_loop_digits ds : forall a,
  Forall isDigit ds -> 0 <= a -> digitsVal a ds <= maxUint64 ->
  ParseUint_loop ds a = (digitsVal a ds, None).
Proof.
  induction ds as [|d ds IH]; intros a H Ha Hv; [reflexivity|].
  inversion H as [|? ? Hd Hds]; subst. unfold isDigit in Hd.
  change (digitsVal a (d :: ds)) with (digitsVal (a * 10 + d - 48) ds) in *.
  pose proof (digitsVal_ge ds (a * 10 + d - 48) Hds ltac:(lia)) as Hge.
  cbn [ParseUint_loop].
  destruct (48 <=? d) eqn:E1; [|lia]. destruct (d <=? 57) eqn:E2; [|lia].
  cbn [andb].
  assert (Hmax : maxUint64 = 18446744073709551615) by reflexivity.
  assert (Hcut : maxUint64 / 10 + 1 = 1844674407370955162) by reflexivity.
  rewrite Hcut.
  destruct (a >=? 1844674407370955162) eqn:E3; [lia|].
  destruct (a * 10 + (d - 48) >? maxUint64) eqn:E4; [lia|].
  replace (a * 10 + (d - 48)) with (a * 10 + d - 48) by ring.
  apply IH; [assumption | lia | assumption].
Qed.

Lemma fmtUint_length_ge k : forall n acc, (length acc <= length (fmtUint k n acc))%nat.
Proof.
  induction k as [|k IH]; intros n acc; simpl; [lia|].
  destruct (n <? 10); simpl; [lia|].
  specialize (IH (n / 10) ((48 + n mod 10) :: acc)). simpl in IH. lia.
Qed.

Lemma fmtUint_decimal n :
  0 <= n < 2 ^ 64 ->
  exists d ds, fmtUint 20 n [] = d :: ds /\ Forall isDigit (d :: ds) /\
               digitsVal 0 (d :: ds) = n.
Proof.
  intros Hn. destruct (fmtUint_spec 20 n []) as (l & Heq & Hl & Hval).
  { split; [lia|]. change (10 ^ Z.of_nat 20) with 100000000000000000000. lia. }
  rewrite app_nil_r in Heq. destruct l as [|d ds].
  - exfalso. change (fmtUint 20 n []) with
      (if n <? 10 then [48 + n] else fmtUint 19 (n / 10) [48 + n mod 10]) in Heq.
    destruct (n <? 10); [discriminate Heq|].
    pose proof (fmtUint_length_ge 19 (n / 10) [48 + n mod 10]) as Hlen.
    rewrite Heq in Hlen. simpl in Hlen. lia.
  - exists d, ds. split; [exact Heq|]. split; [exact Hl|]. rewrite Hval. lia.
Qed.

(** [Atoi] reads back what [%d] prints, for every [int]. *)
Lemma Atoi_fmt_d n : in_int n -> Atoi (fmt_d n) = (n, None).
Proof.
  unfold in_int, fmt_d. intros Hn. destruct (n <? 0) eqn:E.
  - destruct (fmtUint_decimal (- n)) as (d & ds & Heq & Hds & Hval); [lia|].
    assert (HP : ParseUint (d :: ds) = (- n, None)).
    { unfold ParseUint.
      rewrite ParseUint_loop_digits; [|exact Hds|lia|unfold maxUint64; lia].
      rewrite Hval. reflexivity. }
    rewrite Heq. unfold Atoi.
    change (45 =? 45) with true. change (45 =? 43) with false.
    cbn [orb negb andb]. rewrite HP.
    destruct (- n >? 2 ^ 63) eqn:E1; [lia|]. f_equal. lia.
  - destruct (fmtUint_decimal n) as (d & ds & Heq & Hds & Hval); [lia|].
    rewrite Heq. unfold Atoi.
    assert (Hd : isDigit d) by (inversion Hds; assumption). unfold isDigit in Hd.
    assert (HP : ParseUint (d :: ds) = (n, None)).
    { unfold ParseUint.
      rewrite ParseUint_loop_digits; [|exact Hds|lia|unfold maxUint64; lia].
      rewrite Hval. reflexivity. }
    destruct (d =? 45) eqn:E1; [lia|]. destruct (d =? 43) eqn:E2; [lia|].
    cbn [orb negb andb]. rewrite HP.
    destruct (n >=? 2 ^ 63) eqn:E3; [lia|]. reflexivity.
Qed.

Lemma fmt_d_word n :
  in_int n -> Forall (fun c => isSpace c = false) (fmt_d n) /\ fmt_d n <> [].
Proof.
  unfold in_int, fmt_d. intros Hn.
  assert (Hdig : forall l, Forall isDigit l -> Forall (fun c => isSpace c = false) l).
  { intros l Hl. eapply Forall_impl; [exact Hl|]. intros c Hc. unfold isDigit in Hc.
    unfold isSpace.
    rewrite (proj2 (Z.leb_gt c 13)) by lia.
    rewrite (proj2 (Z.leb_gt 8192 c)) by lia.
    rewrite !(proj2 (Z.eqb_neq c _)) by lia.
    rewrite andb_false_r. reflexivity. }
  destruct (n <? 0) eqn:E.
  - destruct (fmtUint_decimal (- n)) as (d & ds & Heq & Hds & _); [lia|].
    rewrite Heq. split; [|discriminate]. constructor; [reflexivity | apply Hdig; exact Hds].
  - destruct (fmtUint_decimal n) as (d & ds & Heq & Hds & _); [lia|].
    rewrite Heq. split; [apply Hdig; exact Hds | discriminate].
Qed.

End atoi.

Lemma DecodeRune_ascii b s : 0 <= b < 128 -> DecodeRune b s = (b, 1%nat).
Proof.
  intros H. unfold DecodeRune.
  rewrite (proj2 (Z.leb_le 0 b)), (proj2 (Z.ltb_lt b 128)) by lia. reflexivity.
Qed.

(** The runes of ASCII bytes are the bytes. *)
Lemma decodeRunes_ascii s :
  Forall (fun c => 0 <= c < 128) s -> decodeRunes s 0 = s.
Proof.
  induction 1 as [|c s Hc _ IH]; simpl; [reflexivity|].
  rewrite (DecodeRune_ascii c s Hc). simpl. rewrite IH. reflexivity.
Qed.

Lemma fmt_d_ascii n : in_int n -> Forall (fun c => 0 <= c < 128) (fmt_d n).
Proof.
  unfold in_int, fmt_d. intros Hn.
  assert (Hdig : forall l, Forall isDigit l -> Forall (fun c => 0 <= c < 128) l).
  { intros l Hl. eapply Forall_impl; [exact Hl|]. intros c Hc.
    unfold isDigit in Hc. lia. }
  destruct (n <? 0) eqn:E.
  - constructor; [lia|]. apply Hdig, fmtUint_digits; [lia | constructor].
  - apply Hdig, fmtUint_digits; [lia | constructor].
Qed.

(** X19.  [ReadAddr] parses what [ReadAt] puts into its buffer of 40
    bytes, and [ReadAt] fills the buffer or fails.  From a file that
    serves fewer than 40 bytes [ReadAddr] returns the error EOF, whatever
    the bytes.  From a file whose first 40 bytes are ASCII and hold two
    addresses printed in decimal, each after any padding of white space
    and followed by a blank, it returns the two addresses, whatever
    follows the 40 bytes. *)
Theorem ReadAddr_reads_addresses
    (q0 q1 : Z) (pad0 pad1 mid rest short : list Z) :
  in_int q0 -> in_int q1 ->
  Forall (fun c => isSpace c = true /\ c < 128) pad0 ->
  Forall (fun c => isSpace c = true /\ c < 128) pad1 ->
  Forall (fun c => 0 <= c < 128) mid ->
  length (pad0 ++ fmt_d q0 ++ 32 :: pad1 ++ fmt_d q1 ++ 32 :: mid) = 40%nat ->
  (length short < 40)%nat ->
  ReadAddr None (inl ((pad0 ++ fmt_d q0 ++ 32 :: pad1 ++ fmt_d q1 ++ 32 :: mid) ++ rest)) =
    (q0, q1, None) /\
  ReadAddr None (inl short) = (0, 0, Some "EOF"%string).
Proof.
  intros H0 H1 Hp0 Hp1 Hmid Hlen Hshort. split.
  - assert (Hsp : forall pad, Forall (fun c => isSpace c = true /\ c < 128) pad ->
                    Forall (fun c => isSpace c = true) pad /\
                    Forall (fun c => 0 <= c < 128) pad).
    { intros pad Hpad. split; (eapply Forall_impl; [exact Hpad|]); intros c [Hs Hc].
      - exact Hs.
      - split; [|exact Hc]. unfold isSpace in Hs.
        repeat match type of Hs with
               | context [?a <=? ?b] => destruct (Z.leb_spec a b); try lia
               | context [?a =? ?b] => destruct (Z.eqb_spec a b); try lia
               end;
        simpl in Hs; discriminate Hs. }
    destruct (Hsp pad0 Hp0) as [Hs0 Ha0]. destruct (Hsp pad1 Hp1) as [Hs1 Ha1].
    unfold ReadAddr, ReadAt.
    rewrite length_app, Hlen.
    replace (40 + length rest <? 40)%nat with false
      by (symmetry; apply Nat.ltb_ge; lia).
    rewrite <- Hlen, take_app_length.
    rewrite decodeRunes_ascii.
    + destruct (fmt_d_word q0 H0) as [Hw0 Hn0]. destruct (fmt_d_word q1 H1) as [Hw1 Hn1].
      unfold rune in *.
      rewrite (Fields_pad_word pad0 (fmt_d q0) 32 _ Hs0 Hw0 Hn0 eq_refl).
      rewrite (Fields_pad_word pad1 (fmt_d q1) 32 _ Hs1 Hw1 Hn1 eq_refl).
      rewrite (Atoi_fmt_d q0 H0), (Atoi_fmt_d q1 H1). reflexivity.
    + repeat (first [apply Forall_app; split | apply Forall_cons; split]);
        try assumption; try lia; apply fmt_d_ascii; assumption.
  - unfold ReadAddr, ReadAt.
    rewrite (proj2 (Nat.ltb_lt _ _) Hshort). reflexivity.
Qed.

Lemma ReadAddr_reads_addresses_witness :
  ReadAddr None
    (inl ((runes "         " ++ fmt_d 12 ++ 32 :: runes "        " ++ fmt_d 345 ++ 32 ::
           runes "                ") ++ runes "more")) = (12, 345, None) /\
  ReadAddr None (inl (runes "         12         345 ")) = (0, 0, Some "EOF"%string).
Proof.
  apply (ReadAddr_reads_addresses 12 345 (runes "         ") (runes "        ")
           (runes "                ") (runes "more") (runes "         12         345 ")).
  - unfold in_int. lia.
  - unfold in_int. lia.
  - repeat constructor.
  - repeat constructor.
  - repeat constructor; vm_compute; discriminate.
  - reflexivity.
  - simpl. lia.
Defined.

Lemma New_opens (st : State) (l : list ptr) (n : Z) (pad tail : list rune) :
  wf st l -> in_int n ->
  Forall (fun c => isSpace c = true) pad ->
  exists st',
    Open None n st = (Some (fresh (dom (heap st))), None, st') /\
    New None (inl (pad ++ fmt_d n ++ 32 :: tail)) st =
      (Some (fresh (dom (heap st))), None, st') /\
    wf st' (l ++ [fresh (dom (heap st))]) /\
    id (deref st' (fresh (dom (heap st)))) = n.
Proof.
  intros Hwf Hn Hpad.
  destruct (Open_wf st l n Hwf) as (st' & HO & Hwf' & _).
  destruct (Open_fields st l n Hwf st' HO) as [Hid _].
  exists st'. split; [exact HO|]. split; [|split; [exact Hwf' | exact Hid]].
  unfold New. destruct (fmt_d_word n Hn) as [Hw Hne].
  rewrite (Fields_pad_word pad (fmt_d n) 32 _ Hpad Hw Hne eq_refl).
  rewrite (Atoi_fmt_d n Hn), HO. reflexivity.
Qed.

(** X20.  [New] registers a window under the id that the window service
    printed as the first field of "new/ctl": the new window is appended to
    the registry with that id. *)
Theorem New_registers_window
    (st : State) (l : list ptr) (n : Z) (pad tail : list rune) :
  wf st l -> in_int n ->
  Forall (fun c => isSpace c = true) pad ->
  exists w st',
    New None (inl (pad ++ fmt_d n ++ 32 :: tail)) st = (Some w, None, st') /\
    (w ∉ l) /\ wf st' (l ++ [w]) /\ id (deref st' w) = n.
Proof.
  intros Hwf Hn Hpad.
  destruct (New_opens st l n pad tail Hwf Hn Hpad) as (st' & _ & HN & Hwf' & Hid).
  exists (fresh (dom (heap st))), st'.
  split; [exact HN|]. split; [apply (wf_fresh _ _ Hwf)|]. split; [exact Hwf' | exact Hid].
Qed.

Lemma New_registers_window_witness :
  exists w st',
    New None (inl ([] ++ fmt_d 42 ++ 32 :: runes "0 0 0 0")) (snd reg3) = (Some w, None, st') /\
    (w ∉ fst reg3) /\ wf st' (fst reg3 ++ [w]) /\ id (deref st' w) = 42.
Proof.
  apply (New_registers_window (snd reg3) (fst reg3) 42 [] (runes "0 0 0 0")).
  - apply (Opens_init_wf true [11; 12; 13]).
  - unfold in_int. lia.
  - constructor.
Defined.

Lemma getf_setf sl v fs : getf sl (setf sl v fs) = v.
Proof. destruct sl; reflexivity. Qed.

(** X21.  [fid] opens a file once: after a call that returned a handle,
    every further call for that name returns the same handle and changes
    nothing, whatever opening the file would answer by then.  A call that
    failed leaves the window's files as they were. *)
Theorem fid_opens_once
    (open open' : Z -> string -> openMode -> handle + string)
    (wid : Z) (name : string) (fs fs' : Files) (r : handle + string) :
  fid open wid name fs = (r, fs') ->
  match r with
  | inl h => fid open' wid name fs' = (inl h, fs')
  | inr _ => fs' = fs
  end.
Proof.
  unfold fid. destruct (slotOf name) as [sl|]; [|intros H; inversion H; reflexivity].
  destruct (getf sl fs) as [h|] eqn:E.
  - intros H. inversion H; subst. rewrite E. reflexivity.
  - destruct (open wid name (modeOf sl)) as [h|e]; intros H; inversion H; subst.
    + rewrite getf_setf. reflexivity.
    + reflexivity.
Qed.

Lemma fid_opens_once_witness :
  fid (fun _ _ _ => inr "gone"%string) 3 "body" (setf Sbody (Some 7%nat) noFiles) =
    (inl 7%nat, setf Sbody (Some 7%nat) noFiles).
Proof.
  apply (fid_opens_once open7 (fun _ _ _ => inr "gone"%string) 3 "body"
           noFiles (setf Sbody (Some 7%nat) noFiles) (inl 7%nat)).
  reflexivity.
Defined.

(** X22.  [fid] knows eight names.  For any other name it returns the
    error "unknown acme file" with the name, opens nothing and changes
    nothing. *)
Theorem fid_unknown_name
    (open : Z -> string -> openMode -> handle + string)
    (wid : Z) (name : string) (fs : Files) :
  name ∉ ["addr"; "body"; "ctl"; "data"; "event"; "tag"; "xdata"; "errors"]%string ->
  fid open wid name fs = (inr ("unknown acme file: " +:+ name)%string, fs).
Proof.
  intros H. unfold fid, slotOf.
  repeat match goal with
  | |- context [String.eqb name ?s] =>
      destruct (String.eqb_spec name s) as [->|_];
      [exfalso; apply H; repeat first [left; reflexivity | right]|]
  end.
  reflexivity.
Qed.

Lemma fid_unknown_name_witness :
  fid open7 3 "index" noFiles = (inr "unknown acme file: index"%string, noFiles).
Proof.
  apply (fid_unknown_name open7 3 "index" noFiles).
  intros H. repeat (apply elem_of_cons in H as [H|H]; [discriminate H|]). inversion H.
Defined.

(** X26.  After [CloseFiles] nothing is cached: [fid] for any of the
    eight names opens the file again, whatever was open before, and
    answers what the open answers; "errors" is opened for writing only,
    every other file for reading and writing. *)
Theorem CloseFiles_reopens
    (open : Z -> string -> openMode -> handle + string)
    (wid : Z) (name : string) (fs : Files) :
  name ∈ ["addr"; "body"; "ctl"; "data"; "event"; "tag"; "xdata"; "errors"]%string ->
  fst (fid open wid name (CloseFiles fs)) =
    open wid name (if String.eqb name "errors" then O_WRONLY else O_RDWR).
Proof.
  intros H.
  repeat (apply elem_of_cons in H as [->|H];
          [unfold fid; simpl; match goal with |- context [open ?a ?b ?c] =>
             destruct (open a b c) end; reflexivity|]).
  inversion H.
Qed.

Lemma CloseFiles_reopens_witness :
  fst (fid open7 3 "errors" (CloseFiles (setf Serrors (Some 5%nat) noFiles))) =
    open7 3 "errors"%string O_WRONLY.
Proof.
  apply (CloseFiles_reopens open7 3 "errors" (setf Serrors (Some 5%nat) noFiles)).
  repeat first [apply list_elem_of_here | apply list_elem_of_further].
Defined.

(* ------------------------------------------------------------------ *)
(** ** Err and its window *)

(** A call of [New] that fails registers nothing. *)
Lemma New_fails_state err rd st w e st' :
  New err rd st = (w, Some e, st') -> st' = st.
Proof.
  unfold New. destruct err; [intros H; inversion H; reflexivity|].
  destruct rd as [text|]; [|intros H; inversion H; reflexivity].
  destruct (Fields text) as [|a0 ?]; [intros H; inversion H; reflexivity|].
  destruct (Atoi a0) as [id0 [?|]]; [intros H; inversion H; reflexivity|].
  unfold Open. simpl. intros H. inversion H.
Qed.

(** What [Err] does when no window has its name and [New] answers with the
    id [n]. *)
Lemma Err_creates ctl new2 src msg st l n pad tail fuel :
  wf st l ->
  (forall p, p ∈ l -> name (deref st p) <> Err_name src) ->
  (forall p c, ctl p c = None) ->
  in_int n ->
  Forall (fun c => isSpace c = true) pad ->
  (S (length l) < fuel)%nat ->
  exists w st1,
    Err fuel ctl (None, inl (pad ++ fmt_d n ++ 32 :: tail)) new2 src msg st =
      Some (ErrWrote w (errWrites (Err_msg msg)) st1) /\
    (w ∉ l) /\ wf st1 (l ++ [w]) /\
    name (deref st1 w) = Err_name src /\
    (forall p, p ∈ l -> name (deref st1 p) <> Err_name src).
Proof.
  intros Hwf Hl Hctl Hn Hpad Hfuel.
  destruct (New_opens st l n pad tail Hwf Hn Hpad) as (st' & HO & HN & Hwf' & _).
  destruct (Open_fields st l n Hwf st' HO) as [_ Hothers].
  pose proof (wf_fresh _ _ Hwf) as Hw.
  set (w := fresh (dom (heap st))) in *.
  exists w, (snd (Name None w (Err_name src) st')).
  split; [|split; [exact Hw|split; [apply wf_Name; exact Hwf'|split]]].
  - unfold Err. rewrite (Show_not_found ctl _ st l fuel Hwf Hl) by lia.
    cbn [fst snd]. rewrite HN, Hctl. reflexivity.
  - simpl. rewrite deref_store. rewrite decide_True by reflexivity. reflexivity.
  - intros p Hp. simpl. rewrite deref_store.
    assert (p <> w) by (intros ->; contradiction).
    rewrite decide_False by assumption.
    destruct (Hothers p) as [_ ->]; [assumption|]. apply Hl. exact Hp.
Qed.

(** X23.  [Err] writes into the first registered window that has the name
    of its error window, when showing it succeeds: it creates no window,
    whatever the window service would answer, and leaves the registry as it
    is. *)
Theorem Err_reuses_window
    (ctl : ptr -> string -> option string)
    (new1 new2 : option string * (list rune + string))
    (src msg : string) (st : State) (l1 l2 : list ptr) (w : ptr) (fuel : nat) :
  wf st (l1 ++ w :: l2) ->
  (forall p, p ∈ l1 -> name (deref st p) <> Err_name src) ->
  name (deref st w) = Err_name src ->
  ctl w "show"%string = None ->
  (length (l1 ++ w :: l2) < fuel)%nat ->
  Err fuel ctl new1 new2 src msg st =
    Some (ErrWrote w (errWrites (Err_msg msg)) st).
Proof.
  intros Hwf Hl1 Hw Hctl Hfuel. unfold Err.
  rewrite (Show_found ctl _ st l1 l2 w fuel Hwf Hl1 Hw Hctl Hfuel).
  reflexivity.
Qed.

Lemma Err_reuses_window_witness :
  Err 4 ctl_ok (Some "no acme", inr "no acme") (Some "no acme", inr "no acme")
      "/tmp/x.go" "x.go:1: oops" reg3_named =
    Some (ErrWrote 2%positive (errWrites (Err_msg "x.go:1: oops")) reg3_named).
Proof.
  apply (Err_reuses_window ctl_ok _ _ "/tmp/x.go" "x.go:1: oops" reg3_named
           [1%positive] [3%positive] 2%positive 4 wf_reg3_named).
  - intros p Hp. apply list_elem_of_singleton in Hp. subst p.
    vm_compute. discriminate.
  - reflexivity.
  - reflexivity.
  - simpl. lia.
Defined.

(** X24.  [Err] creates its window once.  When no registered window has
    the name of the error window, control writes succeed and [New] answers
    with an id, [Err] appends one new window to the registry, names it and
    writes the message into it; every later [Err] for the same source
    writes into that window and leaves the registry as it is, whatever the
    window service would answer to a [New]. *)
Theorem Err_creates_window_once
    (ctl : ptr -> string -> option string)
    (new2 : option string * (list rune + string))
    (src msg : string) (st : State) (l : list ptr)
    (n : Z) (pad tail : list rune) (fuel : nat) :
  wf st l ->
  (forall p, p ∈ l -> name (deref st p) <> Err_name src) ->
  (forall p c, ctl p c = None) ->
  in_int n ->
  Forall (fun c => isSpace c = true) pad ->
  (S (length l) < fuel)%nat ->
  exists w st1,
    Err fuel ctl (None, inl (pad ++ fmt_d n ++ 32 :: tail)) new2 src msg st =
      Some (ErrWrote w (errWrites (Err_msg msg)) st1) /\
    (w ∉ l) /\ wf st1 (l ++ [w]) /\
    name (deref st1 w) = Err_name src /\
    forall new1' new2' msg',
      Err fuel ctl new1' new2' src msg' st1 =
        Some (ErrWrote w (errWrites (Err_msg msg')) st1).
Proof.
  intros Hwf Hl Hctl Hn Hpad Hfuel.
  destruct (Err_creates ctl new2 src msg st l n pad tail fuel
              Hwf Hl Hctl Hn Hpad Hfuel)
    as (w & st1 & HE & Hw & Hwf1 & Hname & Hl1).
  exists w, st1. split; [exact HE|]. split; [exact Hw|].
  split; [exact Hwf1|]. split; [exact Hname|].
  intros new1' new2' msg'. unfold Err.
  rewrite (Show_found ctl _ st1 l [] w fuel Hwf1 Hl1 Hname (Hctl _ _)).
  - reflexivity.
  - rewrite length_app. simpl. lia.
Qed.

Lemma Err_creates_window_once_witness :
  exists w st1,
    Err 5 ctl_ok (None, inl ([] ++ fmt_d 42 ++ 32 :: runes "0 0 0 0"))
        (Some "no acme", inr "no acme") "/tmp/x.go" "x.go:1: oops" (snd reg3) =
      Some (ErrWrote w (errWrites (Err_msg "x.go:1: oops")) st1) /\
    (w ∉ fst reg3) /\ wf st1 (fst reg3 ++ [w]) /\
    name (deref st1 w) = Err_name "/tmp/x.go" /\
    forall new1' new2' msg',
      Err 5 ctl_ok new1' new2' "/tmp/x.go" msg' st1 =
        Some (ErrWrote w (errWrites (Err_msg msg')) st1).
Proof.
  apply (Err_creates_window_once ctl_ok (Some "no acme", inr "no acme")
           "/tmp/x.go" "x.go:1: oops" (snd reg3) (fst reg3) 42 [] (runes "0 0 0 0") 5).
  - apply (Opens_init_wf true [11; 12; 13]).
  - intros p Hp. change (fst reg3) with [1; 2; 3]%positive in Hp.
    repeat (apply elem_of_cons in Hp as [->|Hp]; [vm_compute; discriminate|]).
    inversion Hp.
  - reflexivity.
  - unfold in_int. lia.
  - constructor.
  - vm_compute. lia.
Defined.

(** X25.  [Err] asks for a new window at most twice.  When no registered
    window has the name of the error window and the first [New] fails, the
    second answer decides: if it fails too, [Err] ends the program with
    nothing registered and nothing written; if it gives an id, the window
    is created, named and written as after a first success. *)
Theorem Err_retries_New_once
    (ctl : ptr -> string -> option string)
    (new1 : option string * (list rune + string))
    (src msg : string) (st : State) (l : list ptr) (fuel : nat) :
  wf st l ->
  (forall p, p ∈ l -> name (deref st p) <> Err_name src) ->
  (S (length l) < fuel)%nat ->
  snd (fst (New (fst new1) (snd new1) st)) <> None ->
  (forall new2,
     snd (fst (New (fst new2) (snd new2) st)) <> None ->
     Err fuel ctl new1 new2 src msg st = Some (ErrFatal st)) /\
  (forall n pad tail,
     in_int n -> Forall (fun c => isSpace c = true) pad ->
     Err fuel ctl new1 (None, inl (pad ++ fmt_d n ++ 32 :: tail)) src msg st =
     Err fuel ctl (None, inl (pad ++ fmt_d n ++ 32 :: tail)) new1 src msg st).
Proof.
  intros Hwf Hl Hfuel H1.
  destruct (New (fst new1) (snd new1) st) as [[w1 [e1|]] st1] eqn:E1;
    [|exfalso; apply H1; reflexivity].
  pose proof (New_fails_state _ _ _ _ _ _ E1) as ->.
  split.
  - intros new2 H2.
    destruct (New (fst new2) (snd new2) st) as [[w2 [e2|]] st2] eqn:E2;
      [|exfalso; apply H2; reflexivity].
    pose proof (New_fails_state _ _ _ _ _ _ E2) as ->.
    unfold Err. rewrite (Show_not_found ctl _ st l fuel Hwf Hl) by lia.
    rewrite E1, E2. reflexivity.
  - intros n pad tail Hn Hpad.
    destruct (New_opens st l n pad tail Hwf Hn Hpad) as (st' & _ & HN & _).
    unfold Err. rewrite (Show_not_found ctl _ st l fuel Hwf Hl) by lia.
    rewrite E1. cbn [fst snd]. rewrite HN. reflexivity.
Qed.

Lemma Err_retries_New_once_witness :
  (forall new2,
     snd (fst (New (fst new2) (snd new2) (snd reg3))) <> None ->
     Err 5 ctl_ok (Some "no acme", inr "no acme") new2 "/tmp/x.go" "oops" (snd reg3) =
       Some (ErrFatal (snd reg3))) /\
  (forall n pad tail,
     in_int n -> Forall (fun c => isSpace c = true) pad ->
     Err 5 ctl_ok (Some "no acme", inr "no acme")
         (None, inl (pad ++ fmt_d n ++ 32 :: tail)) "/tmp/x.go" "oops" (snd reg3) =
     Err 5 ctl_ok (None, inl (pad ++ fmt_d n ++ 32 :: tail))
         (Some "no acme", inr "no acme") "/tmp/x.go" "oops" (snd reg3)).
Proof.
  apply (Err_retries_New_once ctl_ok (Some "no acme", inr "no acme")
           "/tmp/x.go" "oops" (snd reg3) (fst reg3) 5).
  - apply (Opens_init_wf true [11; 12; 13]).
  - intros p Hp. change (fst reg3) with [1; 2; 3]%positive in Hp.
    repeat (apply elem_of_cons in Hp as [->|Hp]; [vm_compute; discriminate|]).
    inversion Hp.
  - vm_compute. lia.
  - simpl. discriminate.
Defined.
